(** * Logging and monitoring pipeline (index.js): model and properties

    A shallow embedding of the event pipeline of [src/index.js]: the ring
    buffer, the metrics collector, the alert manager, the rotating file
    writer and the [Logger] that ties them together, with child loggers.

    Conventions.
    - JavaScript numbers that hold integers (levels, instants in ms, sizes,
      samples) are [Z] or [nat]; every arithmetic result of the modelled
      code stays far below 2^53, where doubles are exact.
    - A [string] holds the UTF-8 text of a JavaScript string, as Node.js
      writes it to a file or to the console: [String.length] is its size
      in bytes, and [JS.length] its [length] in JavaScript, which counts
      UTF-16 code units.  [<] on strings is the lexicographic order on
      bytes, which is JavaScript's order on code units whenever one of
      the two strings is ASCII, as every timestamp is.
    - A plain object used as a dictionary ([{}] indexed by names that the
      caller chooses) is the finite map of its own properties; it is read
      and written through [Dict.get] and [Dict.set], which account for
      the members that every object inherits from [Object.prototype].
    - An optional field of an options object is an [option]; the source
      defaults with [x || d], which also replaces a present but falsy
      value (the empty string, the number 0), and the helpers below keep
      that behaviour.
    - Objects with identity ([Logger]) live in a heap indexed by [nat].
    - Callbacks supplied by the user (rule handlers, event listeners) are
      represented by the logging calls they perform synchronously. *)

From Stdlib Require Import ZArith String Ascii List Lia.
From Stdlib Require QArith_base.
From stdpp Require Import base option list gmap strings pretty sorting.

(** ** JavaScript values and helpers *)

Module JS.

(** [s || d] on an optional string: [undefined] and the empty string are falsy. *)
Definition truthy_str (o : option string) : bool :=
  match o with
  | Some s => negb (String.eqb s "")
  | None => false
  end.

Definition or_str (o : option string) (d : string) : string :=
  match o with
  | Some s => if String.eqb s "" then d else s
  | None => d
  end.

(** [n || d] on an optional number: [undefined] and 0 are falsy. *)
Definition truthy_num (o : option Z) : bool :=
  match o with
  | Some n => negb (n =? 0)%Z
  | None => false
  end.

Definition or_num (o : option Z) (d : Z) : Z :=
  match o with
  | Some n => if (n =? 0)%Z then d else n
  | None => d
  end.

Definition or_nat (o : option nat) (d : nat) : nat :=
  match o with
  | Some n => if (n =? 0)%nat then d else n
  | None => d
  end.

(** [(x !== undefined) ? x : d]. *)
Definition defined_or {A : Type} (o : option A) (d : A) : A :=
  match o with
  | Some x => x
  | None => d
  end.

(** [a < b] where a side may be no number: [undefined], or a member that
    a table inherits, when it is read at a name that is not one of its
    own.  The comparison is then made with NaN and is false. *)
Definition lt (a b : option Z) : bool :=
  match a, b with
  | Some x, Some y => (x <? y)%Z
  | _, _ => false
  end.

(** [a >= b], false as well when a side is no number. *)
Definition ge (a b : option Z) : bool :=
  match a, b with
  | Some x, Some y => (y <=? x)%Z
  | _, _ => false
  end.

(** [s.indexOf(sub) === -1]. *)
Definition indexOf_misses (s sub : string) : bool :=
  match String.index 0 sub s with
  | Some _ => false
  | None => true
  end.

(** [String(n)] for an integer. *)
Definition String_of (n : Z) : string := pretty n.

(** The UTF-16 code units of the character whose UTF-8 encoding starts
    with byte [b]: none for a continuation byte (10xxxxxx), which belongs
    to the character before it; two for the first byte of a four-byte
    sequence, since a character beyond U+FFFF is a surrogate pair; one
    otherwise. *)
Definition units (b : ascii) : nat :=
  let n := nat_of_ascii b in
  if (n <? 128)%nat then 1
  else if (n <? 192)%nat then 0
  else if (n <? 240)%nat then 1
  else 2.

(** [s.length]. *)
Fixpoint length (s : string) : nat :=
  match s with
  | EmptyString => 0
  | String c rest => units c + length rest
  end.

(** U+FFFD, which Node.js writes for half of a surrogate pair. *)
Definition REPLACEMENT : string :=
  String (ascii_of_nat 239) (String (ascii_of_nat 191) (String (ascii_of_nat 189) EmptyString)).

(** [s.slice(0, n)] for [n >= 0]: the first [n] code units.  When the cut
    falls inside a surrogate pair the result ends with its first half. *)
Fixpoint slice_to (n : nat) (s : string) : string :=
  match s with
  | EmptyString => EmptyString
  | String c rest =>
      match units c with
      | O => String c (slice_to n rest)
      | u =>
          if (u <=? n)%nat then String c (slice_to (n - u) rest)
          else if (n =? 0)%nat then EmptyString
          else REPLACEMENT
      end
  end.

(** [lines.join(sep)]. *)
Fixpoint join (sep : string) (lines : list string) : string :=
  match lines with
  | [] => ""
  | [l] => l
  | l :: rest => l +:+ sep +:+ join sep rest
  end.

(** Numbers that may be infinite: the accumulators of [getTimerStats]
    start at [Infinity] and [-Infinity]. *)
Inductive Num := NegInfinity | Fin (z : Z) | Infinity.

Definition num_lt (a b : Num) : bool :=
  match a, b with
  | NegInfinity, NegInfinity => false
  | NegInfinity, _ => true
  | Fin _, NegInfinity => false
  | Fin x, Fin y => (x <? y)%Z
  | Fin _, Infinity => true
  | Infinity, _ => false
  end.

(** [x || d] where [x] is an array element: [undefined] (index out of
    range) and 0 are both falsy. *)
Definition or_elem (x : option Z) (d : Num) : Num :=
  match x with
  | Some z => if (z =? 0)%Z then d else Fin z
  | None => d
  end.

End JS.

(** ** Plain objects used as dictionaries *)

Module Dict.

(** What every object inherits from [Object.prototype]: eleven methods,
    with their [length], and the accessor [__proto__], whose getter
    answers the prototype object and whose setter ignores a value that is
    not an object. *)
Inductive Member := Method (arity : nat) | Prototype.

Definition Object_prototype : gmap string Member :=
  list_to_map
    [("constructor", Method 1); ("__defineGetter__", Method 2);
     ("__defineSetter__", Method 2); ("hasOwnProperty", Method 1);
     ("__lookupGetter__", Method 1); ("__lookupSetter__", Method 1);
     ("isPrototypeOf", Method 1); ("propertyIsEnumerable", Method 1);
     ("toString", Method 0); ("valueOf", Method 0); ("toLocaleString", Method 0);
     ("__proto__", Prototype)].

(** What a read [obj[k]] finds: a property of the object itself, else an
    inherited member, else [undefined]. *)
Inductive Slot (V : Type) : Type :=
| Own (v : V)
| Inherited (m : Member)
| Undefined.
Arguments Own {V} v.
Arguments Inherited {V} m.
Arguments Undefined {V}.

Definition get {V : Type} (k : string) (o : gmap string V) : Slot V :=
  match o !! k with
  | Some v => Own v
  | None =>
      match Object_prototype !! k with
      | Some m => Inherited m
      | None => Undefined
      end
  end.

(** [obj[k] = v] for a number [v]: the property is created or replaced,
    except that the assignment goes to the inherited setter when [k] is
    ["__proto__"] and the object has no property of that name, and the
    setter drops a number. *)
Definition set {V : Type} (k : string) (v : V) (o : gmap string V) : gmap string V :=
  match o !! k with
  | Some _ => <[k := v]> o
  | None => if String.eqb k "__proto__" then o else <[k := v]> o
  end.

End Dict.

Definition LF : string := String (ascii_of_nat 10) EmptyString.
Definition ESC : string := String (ascii_of_nat 27) EmptyString.
Definition DQUOTE : string := String (ascii_of_nat 34) EmptyString.

(** ** Constants *)

Definition LOG_LEVELS : gmap string Z :=
  list_to_map
    [("TRACE", 0%Z); ("DEBUG", 10%Z); ("INFO", 20%Z); ("SUCCESS", 25%Z);
     ("WARN", 30%Z); ("ERROR", 40%Z); ("FATAL", 50%Z); ("SILENT", 100%Z)].

Definition ANSI : gmap string string :=
  list_to_map
    [("reset", ESC +:+ "[0m"); ("bold", ESC +:+ "[1m"); ("dim", ESC +:+ "[2m");
     ("trace", ESC +:+ "[35m"); ("debug", ESC +:+ "[36m");
     ("info", ESC +:+ "[34m"); ("success", ESC +:+ "[32m");
     ("warn", ESC +:+ "[33m"); ("error", ESC +:+ "[31m");
     ("fatal", ESC +:+ "[41m"); ("label", ESC +:+ "[90m");
     ("value", ESC +:+ "[97m"); ("border", ESC +:+ "[90m")].

Definition MAX_FILE_MB : Z := 5.
Definition MAX_BACKUPS : nat := 5.
Definition FLUSH_INTERVAL_MS : Z := 3000.

(** ** Log entries *)

(** The [meta] payload is opaque to the pipeline: it is stored as it is
    and only ever serialised, so it is represented by its JSON text. *)
Definition Meta := string.

(** The meta object [{ code: code }] of the exit hook. *)
Definition meta_code (code : Z) : Meta :=
  "{" +:+ DQUOTE +:+ "code" +:+ DQUOTE +:+ ":" +:+ JS.String_of code +:+ "}".

(** The meta object [{ ms: elapsed }] of the timer helpers. *)
Definition meta_ms (elapsed : Z) : Meta :=
  "{" +:+ DQUOTE +:+ "ms" +:+ DQUOTE +:+ ":" +:+ JS.String_of elapsed +:+ "}".

Module Entry.
Record t := mk {
  timestamp : string;
  level : string;
  levelCode : Z;
  pid : Z;
  hostname : string;
  context : string;
  message : string;
  meta : option Meta
}.
End Entry.

(** The fields a [Date] object answers in local time. *)
Record DateFields := {
  getFullYear : Z;
  getMonth : Z;
  getDate : Z;
  getHours : Z;
  getMinutes : Z;
  getSeconds : Z;
  getMilliseconds : Z
}.

(** What the pipeline reads from the Node.js runtime. *)
Class Runtime := {
  (** the value of the k-th reading of the wall clock, in ms since the epoch *)
  clock : nat -> Z;
  (** the calendar fields of an instant in the local time zone *)
  localFields : Z -> DateFields;
  process_pid : Z;
  os_hostname : string;
  process_cwd : string;
  (** [JSON.stringify] of an entry *)
  JSON_stringify : Entry.t -> string
}.

(** ** Helper utilities *)

Fixpoint padStart_loop (fuel : nat) (str : string) (len : nat) (char : string) : string :=
  match fuel with
  | O => str
  | S fuel' =>
      if (JS.length str <? len)%nat
      then padStart_loop fuel' (char +:+ str) len char
      else str
  end.

(** The loop adds at least one code unit per round ([char] is never
    empty after the default), so [len] rounds are enough. *)
Definition padStart (str : string) (len : nat) (char : option string) : string :=
  let char := JS.or_str char "0" in
  padStart_loop len str len char.

Definition formatTimestamp (date : DateFields) : string :=
  JS.String_of (getFullYear date)
  +:+ "-" +:+ padStart (JS.String_of (getMonth date + 1)) 2 None
  +:+ "-" +:+ padStart (JS.String_of (getDate date)) 2 None
  +:+ "T" +:+ padStart (JS.String_of (getHours date)) 2 None
  +:+ ":" +:+ padStart (JS.String_of (getMinutes date)) 2 None
  +:+ ":" +:+ padStart (JS.String_of (getSeconds date)) 2 None
  +:+ "." +:+ padStart (JS.String_of (getMilliseconds date)) 3 None
  +:+ "Z".

Definition truncateMessage (msg : string) (maxLen : nat) : string :=
  if (maxLen <? JS.length msg)%nat
  then JS.slice_to maxLen msg +:+ "…[truncated]"
  else msg.

(** [uptime(startedAt)]; [now] is its reading of [Date.now()].  [/] is the
    floor of the quotient ([Math.floor]) and [Z.rem] the remainder [%],
    which takes the sign of the dividend. *)
Definition uptime (startedAt now : Z) : string :=
  let ms := (now - startedAt)%Z in
  let secs := (ms / 1000)%Z in
  let mins := (secs / 60)%Z in
  let hrs := (mins / 60)%Z in
  padStart (JS.String_of hrs) 2 None +:+ "h "
  +:+ padStart (JS.String_of (Z.rem mins 60)) 2 None +:+ "m "
  +:+ padStart (JS.String_of (Z.rem secs 60)) 2 None +:+ "s".

Definition toLowerCase_char (c : ascii) : ascii :=
  let n := nat_of_ascii c in
  if ((65 <=? n) && (n <=? 90))%nat then ascii_of_nat (n + 32) else c.

Fixpoint toLowerCase (s : string) : string :=
  match s with
  | EmptyString => EmptyString
  | String c rest => String (toLowerCase_char c) (toLowerCase rest)
  end.

Section Formatting.
Context `{rt : Runtime}.

(** [buildEntry] reads the clock once ([new Date()]); [now] is that reading. *)
Definition buildEntry (now : Z) (level : Z) (levelName : string) (message : string)
    (meta : option Meta) (context : option string) : Entry.t :=
  {| Entry.timestamp := formatTimestamp (localFields now);
     Entry.level := levelName;
     Entry.levelCode := level;
     Entry.pid := process_pid;
     Entry.hostname := os_hostname;
     Entry.context := JS.or_str context "app";
     Entry.message := truncateMessage message 4096;
     Entry.meta := meta |}.

Definition entryToJson (entry : Entry.t) : string := JSON_stringify entry.

Definition ansi (key : string) : string := default "" (ANSI !! key).

Definition entryToText (entry : Entry.t) (useColor : bool) : string :=
  let lvlName := padStart (Entry.level entry) 7 (Some " ") in
  let color := default (ansi "info") (ANSI !! toLowerCase (Entry.level entry)) in
  let reset := ansi "reset" in
  let bold := ansi "bold" in
  let dim := ansi "dim" in
  let labelC := ansi "label" in
  let valueC := ansi "value" in
  if negb useColor then
    "[" +:+ Entry.timestamp entry +:+ "] [" +:+ lvlName +:+ "] ["
    +:+ Entry.context entry +:+ "] " +:+ Entry.message entry
    +:+ match Entry.meta entry with
        | Some m => " | meta=" +:+ m
        | None => ""
        end
  else
    let metaStr :=
      match Entry.meta entry with
      | Some m => dim +:+ " | " +:+ labelC +:+ "meta=" +:+ valueC +:+ m +:+ reset
      | None => ""
      end in
    labelC +:+ "[" +:+ Entry.timestamp entry +:+ "] " +:+ reset
    +:+ bold +:+ color +:+ "[" +:+ lvlName +:+ "]" +:+ reset
    +:+ labelC +:+ " [" +:+ Entry.context entry +:+ "] " +:+ reset
    +:+ valueC +:+ Entry.message entry +:+ reset
    +:+ metaStr.

End Formatting.

(** ** Ring buffer and query engine *)

Module RingBuffer.

Section Buffer.
Context {A : Type}.

Record t := mk { _capacity : nat; _data : list A; _head : nat }.

Definition new (capacity : nat) : t :=
  {| _capacity := capacity; _data := []; _head := 0 |}.

(** [this._data[this._head] = item] is only reached when the array is
    full; with a capacity of at least 1 the index is then within the
    array (lemma [ring_head_in_range]), where the assignment replaces the
    element.  A [Logger] never builds a buffer of capacity 0
    ([ringSize || 2000]). *)
Definition push (item : A) (rb : t) : t :=
  if (length (_data rb) <? _capacity rb)%nat
  then {| _capacity := _capacity rb;
          _data := _data rb ++ [item];
          _head := _head rb |}
  else {| _capacity := _capacity rb;
          _data := <[_head rb := item]> (_data rb);
          _head := (_head rb + 1) mod _capacity rb |}.

Definition toArray (rb : t) : list A :=
  if (length (_data rb) <? _capacity rb)%nat
  then _data rb
  else drop (_head rb) (_data rb) ++ take (_head rb) (_data rb).

(** Successive pushes, first item first. *)
Definition pushAll (items : list A) (rb : t) : t :=
  fold_left (fun b x => push x b) items rb.

End Buffer.
Arguments t : clear implicits.

(** The filter object of [query]. *)
Record QueryOpts := {
  opt_level : option string;
  opt_context : option string;
  opt_search : option string;
  opt_since : option string;
  opt_until : option string;
  opt_limit : option Z
}.

(** [o && test(o)] for an optional string field. *)
Definition and_then (o : option string) (test : string -> bool) : bool :=
  match o with
  | Some s => if JS.truthy_str o then test s else false
  | None => false
  end.

(** The body of the scan: [true] when the entry is skipped ([continue]). *)
Definition skipped (opts : QueryOpts) (e : Entry.t) : bool :=
  if and_then (opt_level opts)
       (fun l => JS.lt (LOG_LEVELS !! Entry.level e) (LOG_LEVELS !! l)) then true
  else if and_then (opt_context opts)
       (fun c => negb (String.eqb (Entry.context e) c)) then true
  else if and_then (opt_search opts)
       (fun s => JS.indexOf_misses (Entry.message e) s) then true
  else if and_then (opt_since opts)
       (fun s => String.ltb (Entry.timestamp e) s) then true
  else if and_then (opt_until opts)
       (fun u => String.ltb u (Entry.timestamp e)) then true
  else false.

Definition scan (opts : QueryOpts) (all : list Entry.t) : list Entry.t :=
  fold_left (fun results e => if skipped opts e then results else results ++ [e])
    all [].

(** [results.slice(start)] for an integer [start >= 0]. *)
Definition slice_from {A : Type} (start : Z) (l : list A) : list A :=
  drop (Z.to_nat start) l.

Definition query (opts : QueryOpts) (rb : t Entry.t) : list Entry.t :=
  let all := toArray rb in
  let results := scan opts all in
  match opt_limit opts with
  | Some limit =>
      if JS.truthy_num (Some limit) && (limit <? Z.of_nat (length results))%Z
      then slice_from (Z.of_nat (length results) - limit) results
      else results
  | None => results
  end.

End RingBuffer.

(** ** Outcomes of effectful code *)

Inductive res (A : Type) : Type :=
| Ok (a : A)
| OutOfFuel
| Throw (what : string).
Arguments Ok {A} a.
Arguments OutOfFuel {A}.
Arguments Throw {A} what.

#[global] Instance res_ret : MRet res := fun A a => Ok a.
#[global] Instance res_bind : MBind res := fun A B f m =>
  match m with
  | Ok a => f a
  | OutOfFuel => OutOfFuel
  | Throw what => Throw what
  end.

#[global] Instance res_fmap : FMap res := fun A B f m =>
  match m with
  | Ok a => Ok (f a)
  | OutOfFuel => OutOfFuel
  | Throw what => Throw what
  end.

(** Runs a loop body over a list, threading the state. *)
Fixpoint forEach {A S : Type} (body : A -> S -> res S) (l : list A) (s : S) : res S :=
  match l with
  | [] => Ok s
  | x :: rest => s' ← body x s; forEach body rest s'
  end.

(** ** Metrics collector *)

Module MetricsCollector.

Record t := mk {
  _startedAt : Z;
  _counts : gmap string Z;
  _timers : gmap string Z;
  _gauges : gmap string Z;
  _histograms : gmap string (list Z)
}.

Definition new (now : Z) : t :=
  {| _startedAt := now;
     _counts := (fun _ => 0%Z) <$> LOG_LEVELS;
     _timers := ∅;
     _gauges := ∅;
     _histograms := ∅ |}.

Definition incrementLevel (levelName : string) (m : t) : t :=
  match _counts m !! levelName with
  | Some n =>
      {| _startedAt := _startedAt m;
         _counts := <[levelName := (n + 1)%Z]> (_counts m);
         _timers := _timers m;
         _gauges := _gauges m;
         _histograms := _histograms m |}
  | None => m
  end.

Definition startTimer (now : Z) (name : string) (m : t) : t :=
  {| _startedAt := _startedAt m;
     _counts := _counts m;
     _timers := Dict.set name now (_timers m);
     _gauges := _gauges m;
     _histograms := _histograms m |}.

(** The end of [endTimer], once the start is known: the start is deleted
    and the sample recorded.  [this._histograms[name]] is created when
    the read is [undefined]; an inherited member is truthy, so that
    nothing is created, and has no [push]: the call then throws.  *)
Definition record_sample (name : string) (elapsed : Z) (m : t) : res (option Z * t) :=
  let recorded := fun samples =>
    Ok (Some elapsed,
        {| _startedAt := _startedAt m;
           _counts := _counts m;
           _timers := delete name (_timers m);
           _gauges := _gauges m;
           _histograms := <[name := samples ++ [elapsed]]> (_histograms m) |}) in
  match Dict.get name (_histograms m) with
  | Dict.Undefined => recorded []
  | Dict.Own samples => recorded samples
  | Dict.Inherited _ => Throw "TypeError"
  end.

(** [endTimer] returns [null] when the read of the start is falsy:
    [undefined], or a start instant of 0.  For a name that the
    dictionaries only inherit the start is an object, the elapsed time is
    not a number, and the call throws at [push] as above; a histogram of
    its own under such a name, with which it would instead record that
    value, is never created, since this function is the only one that
    creates histograms. *)
Definition endTimer (now : Z) (name : string) (m : t) : res (option Z * t) :=
  match Dict.get name (_timers m) with
  | Dict.Undefined => Ok (None, m)
  | Dict.Own start =>
      if (start =? 0)%Z then Ok (None, m)
      else record_sample name (now - start) m
  | Dict.Inherited _ => Throw "TypeError"
  end.

Definition setGauge (name : string) (value : Z) (m : t) : t :=
  {| _startedAt := _startedAt m;
     _counts := _counts m;
     _timers := _timers m;
     _gauges := Dict.set name value (_gauges m);
     _histograms := _histograms m |}.

Record TimerStats := {
  count : nat;
  min : JS.Num;
  max : JS.Num;
  avg : Z;
  p95 : JS.Num;
  p99 : JS.Num
}.

(** The accumulation loop over the samples: sum, minimum, maximum. *)
Definition accumulate (samples : list Z) : Z * JS.Num * JS.Num :=
  fold_left
    (fun '(sum, min, max) x =>
       ((sum + x)%Z,
        if JS.num_lt (JS.Fin x) min then JS.Fin x else min,
        if JS.num_lt max (JS.Fin x) then JS.Fin x else max))
    samples (0%Z, JS.Infinity, JS.NegInfinity).

(** [Math.round(sum / n)] for an integer [sum] and [n > 0]: the nearest
    integer, a tie going up. *)
Definition round_div (sum : Z) (n : nat) : Z :=
  ((2 * sum + Z.of_nat n) / (2 * Z.of_nat n))%Z.

(** [samples.slice().sort(function(a, b) { return a - b; })]. *)
Definition sort_ascending (samples : list Z) : list Z := merge_sort Z.le samples.

(** [Math.floor(n * 0.95)] and [Math.floor(n * 0.99)]: for every array
    length the double product rounds to the same floor as the exact
    fraction. *)
Definition floor_095 (n : nat) : nat := (n * 95) / 100.
Definition floor_099 (n : nat) : nat := (n * 99) / 100.

Definition statsOf (samples : list Z) : TimerStats :=
  let '(sum, min, max) := accumulate samples in
  let sorted := sort_ascending samples in
  {| count := length samples;
     min := min;
     max := max;
     avg := round_div sum (length samples);
     p95 := JS.or_elem (sorted !! floor_095 (length sorted)) max;
     p99 := JS.or_elem (sorted !! floor_099 (length sorted)) max |}.

(** [getTimerStats] answers [null] when the read of the samples is falsy
    or has a [length] of 0, which an inherited method without parameters
    has as well; any other inherited member has no [slice], and the call
    throws. *)
Definition getTimerStats (name : string) (m : t) : res (option TimerStats) :=
  match Dict.get name (_histograms m) with
  | Dict.Undefined => Ok None
  | Dict.Own samples =>
      if (length samples =? 0)%nat then Ok None else Ok (Some (statsOf samples))
  | Dict.Inherited (Dict.Method 0) => Ok None
  | Dict.Inherited _ => Throw "TypeError"
  end.

End MetricsCollector.

(** ** Rotating file writer *)

Module RotatingFileWriter.

(** The part of the file system a writer touches: the files by path, and
    the [fs.appendFile] operations that were issued and have not
    completed yet (the call is asynchronous). *)
Record Disk := {
  files : gmap string string;
  in_flight : list (string * string)
}.

Definition existsSync (p : string) (d : Disk) : bool :=
  match files d !! p with
  | Some _ => true
  | None => false
  end.

(** [fs.renameSync] replaces the destination; it throws when the source
    does not exist ([None]). *)
Definition renameSync (from to : string) (d : Disk) : option Disk :=
  match files d !! from with
  | Some c => Some {| files := <[to := c]> (delete from (files d));
                      in_flight := in_flight d |}
  | None => None
  end.

(** [fs.statSync(p).size], in bytes. *)
Definition statSync_size (p : string) (d : Disk) : option nat :=
  String.length <$> files d !! p.

(** [fs.appendFile(p, chunk, callback)]: the operation is queued. *)
Definition appendFile (p chunk : string) (d : Disk) : Disk :=
  {| files := files d; in_flight := in_flight d ++ [(p, chunk)] |}.

(** Completion of the k-th queued append: the chunk is added at the end
    of the file, which is created when it does not exist. *)
Definition complete (k : nat) (d : Disk) : Disk :=
  match in_flight d !! k with
  | Some (p, chunk) =>
      {| files := <[p := default "" (files d !! p) +:+ chunk]> (files d);
         in_flight := delete k (in_flight d) |}
  | None => d
  end.

Record t := mk {
  filePath : string;
  maxMB : Z;
  maxBackups : nat;
  _buffer : list string;
  _writing : bool
}.

Definition new (filePath : string) (maxMB : Z) (maxBackups : nat) : t :=
  {| filePath := filePath;
     maxMB := maxMB;
     maxBackups := maxBackups;
     _buffer := [];
     _writing := false |}.

(** [this.filePath + "." + i]. *)
Definition backup (w : t) (i : nat) : string :=
  filePath w +:+ "." +:+ pretty i.

(** The loop of [rotate], from index [i] down to 1. *)
Fixpoint shift (w : t) (i : nat) (d : Disk) : option Disk :=
  match i with
  | O => Some d
  | S i' =>
      d ← (if existsSync (backup w i) d
           then renameSync (backup w i) (backup w (i + 1)) d
           else Some d);
      shift w i' d
  end.

Definition rotate (w : t) (d : Disk) : option Disk :=
  if negb (existsSync (filePath w) d) then Some d
  else
    d ← shift w (maxBackups w - 1) d;
    renameSync (filePath w) (backup w 1) d.

Definition write (line : string) (w : t) : t :=
  {| filePath := filePath w;
     maxMB := maxMB w;
     maxBackups := maxBackups w;
     _buffer := _buffer w ++ [line];
     _writing := _writing w |}.

(** [getFileSizeMB(filePath)]: the size in bytes over 2^20, and 0 when
    the file cannot be read. *)
Definition getFileSizeMB (filePath : string) (d : Disk) : QArith_base.Q :=
  match statSync_size filePath d with
  | Some size => QArith_base.Qmake (Z.of_nat size) (1024 * 1024)
  | None => QArith_base.inject_Z 0
  end.

(** [getFileSizeMB(p) >= maxMB]. *)
Definition size_reaches (p : string) (maxMB : Z) (d : Disk) : bool :=
  QArith_base.Qle_bool (QArith_base.inject_Z maxMB) (getFileSizeMB p d).

(** The synchronous part of [flush]; the append it issues completes
    later ([complete]). [None] stands for an exception of [rotate]. *)
Definition flush (w : t) (d : Disk) : option (t * Disk) :=
  if (length (_buffer w) =? 0)%nat then Some (w, d)
  else
    let chunk := JS.join LF (_buffer w) +:+ LF in
    let w := {| filePath := filePath w;
                maxMB := maxMB w;
                maxBackups := maxBackups w;
                _buffer := [];
                _writing := _writing w |} in
    d ← (if size_reaches (filePath w) (maxMB w) d then rotate w d else Some d);
    Some (w, appendFile (filePath w) chunk d).

End RotatingFileWriter.

(** ** User callbacks *)

(** A logging call made by a callback: [target.<level>(message, meta)]. *)
Inductive Call := CallWrite (target : nat) (levelName message : string) (meta : option Meta).

(** A callback that receives an entry, as the calls it makes. *)
Definition Script := Entry.t -> list Call.

(** ** Alert manager *)

Module AlertManager.

Record Rule := {
  name : string;
  level : string;
  messagePattern : option string;
  cooldownMs : Z;
  handler : option Script
}.

Record RuleOpts := {
  opt_name : option string;
  opt_level : option string;
  opt_messagePattern : option string;
  opt_cooldownMs : option Z;
  opt_handler : option Script
}.

Record t := mk {
  _rules : list Rule;
  _cooldowns : gmap string Z
}.

Definition new : t := {| _rules := []; _cooldowns := ∅ |}.

Definition addRule (opts : RuleOpts) (am : t) : t :=
  {| _rules := _rules am ++
       [{| name := JS.or_str (opt_name opts) ("rule_" +:+ pretty (length (_rules am)));
           level := JS.or_str (opt_level opts) "ERROR";
           messagePattern :=
             if JS.truthy_str (opt_messagePattern opts)
             then opt_messagePattern opts else None;
           cooldownMs := JS.or_num (opt_cooldownMs opts) 60000;
           handler := opt_handler opts |}];
     _cooldowns := _cooldowns am |}.

(** [this._cooldowns[rule] = now]. *)
Definition set_cooldown (rule : string) (now : Z) (am : t) : t :=
  {| _rules := _rules am; _cooldowns := Dict.set rule now (_cooldowns am) |}.

(** The three conditions under which the loop of [evaluate] moves on to
    the next rule ([continue]). *)
Definition below_level (entry : Entry.t) (rule : Rule) : bool :=
  JS.lt (LOG_LEVELS !! Entry.level entry) (LOG_LEVELS !! level rule).

Definition pattern_misses (entry : Entry.t) (rule : Rule) : bool :=
  match messagePattern rule with
  | Some p => JS.truthy_str (Some p) && JS.indexOf_misses (Entry.message entry) p
  | None => false
  end.

(** [now - (this._cooldowns[rule.name] || 0) < rule.cooldownMs].  An
    inherited member is a truthy object: the difference is then not a
    number and the comparison is false. *)
Definition cooling_down (now : Z) (am : t) (rule : Rule) : bool :=
  match Dict.get (name rule) (_cooldowns am) with
  | Dict.Own lastAt => (now - JS.or_num (Some lastAt) 0 <? cooldownMs rule)%Z
  | Dict.Undefined => (now - 0 <? cooldownMs rule)%Z
  | Dict.Inherited _ => false
  end.

(** [evaluate] runs inside a host state [S] that holds the manager; the
    emitter given to the constructor and the clock are the host's. *)
Section Evaluate.
Context {S : Type}.
Variable self : S -> res t.
Variable update : (t -> t) -> S -> res S.
Variable Date_now : S -> Z * S.
(** [this._emitter.emit("alert", { rule: rule.name, entry: entry })] *)
Variable emit_alert : string -> Entry.t -> S -> res S.
(** [rule.handler(entry)] *)
Variable invoke : Rule -> Script -> Entry.t -> S -> res S.

(** One round of the loop, for [rule]. *)
Definition evaluate_rule (entry : Entry.t) (rule : Rule) (s : S) : res S :=
  if below_level entry rule then Ok s
  else if pattern_misses entry rule then Ok s
  else
    let '(now, s) := Date_now s in
    am ← self s;
    if cooling_down now am rule then Ok s
    else
      s ← update (set_cooldown (name rule) now) s;
      s ← emit_alert (name rule) entry s;
      match handler rule with
      | Some h => invoke rule h entry s
      | None => Ok s
      end.

(** The callbacks modelled here do not add rules, so the rule list read
    at each round of the source's loop is the one read at its start. *)
Definition evaluate (entry : Entry.t) (s : S) : res S :=
  am ← self s;
  forEach (evaluate_rule entry) (_rules am) s.

End Evaluate.

End AlertManager.

(** ** Core logger *)

Module Logger.

Inductive Event :=
| LogEv (entry : Entry.t)
| AlertEv (rule : string) (entry : Entry.t).

(** Listeners of the ["log"] event: the forwarder a child installs
    towards its parent, or a user callback. *)
Inductive LogListener :=
| Forward (parent : nat)
| OnLog (callback : Script).

(** A listener of the ["alert"] event receives the rule name and the entry. *)
Definition AlertListener := string -> Script.

Record Opts := {
  opt_context : option string;
  opt_level : option Z;
  opt_color : option bool;
  opt_console : option bool;
  opt_file : option bool;
  opt_jsonFile : option bool;
  opt_ringSize : option nat;
  opt_metricsInterval : option Z
}.

Record t := mk {
  _context : string;
  _level : Z;
  _useColor : bool;
  _logToConsole : bool;
  _logToFile : bool;
  _jsonFile : bool;
  _ringSize : nat;
  _metricsInterval : Z;
  metrics : MetricsCollector.t;
  alerts : AlertManager.t;
  _ring : RingBuffer.t Entry.t;
  _children : list nat;
  _textWriter : option RotatingFileWriter.t;
  _jsonWriter : option RotatingFileWriter.t;
  _errorWriter : option RotatingFileWriter.t;
  on_log : list LogListener;
  on_alert : list AlertListener
}.

(** What leaves the pipeline, in order: notifications, handler calls and
    console output. *)
Inductive Effect :=
| Emitted (id : nat) (ev : Event)
| Handled (id : nat) (rule : string) (entry : Entry.t)
| Stdout (text : string)
| Stderr (text : string).

Record World := {
  heap : list t;
  ticks : nat;
  trace : list Effect
}.

Definition set_ring (f : RingBuffer.t Entry.t -> RingBuffer.t Entry.t) (l : t) : t :=
  mk (_context l) (_level l) (_useColor l) (_logToConsole l) (_logToFile l)
     (_jsonFile l) (_ringSize l) (_metricsInterval l) (metrics l) (alerts l)
     (f (_ring l)) (_children l) (_textWriter l) (_jsonWriter l) (_errorWriter l)
     (on_log l) (on_alert l).

Definition set_metrics (f : MetricsCollector.t -> MetricsCollector.t) (l : t) : t :=
  mk (_context l) (_level l) (_useColor l) (_logToConsole l) (_logToFile l)
     (_jsonFile l) (_ringSize l) (_metricsInterval l) (f (metrics l)) (alerts l)
     (_ring l) (_children l) (_textWriter l) (_jsonWriter l) (_errorWriter l)
     (on_log l) (on_alert l).

Definition set_alerts (f : AlertManager.t -> AlertManager.t) (l : t) : t :=
  mk (_context l) (_level l) (_useColor l) (_logToConsole l) (_logToFile l)
     (_jsonFile l) (_ringSize l) (_metricsInterval l) (metrics l) (f (alerts l))
     (_ring l) (_children l) (_textWriter l) (_jsonWriter l) (_errorWriter l)
     (on_log l) (on_alert l).

Definition set_children (f : list nat -> list nat) (l : t) : t :=
  mk (_context l) (_level l) (_useColor l) (_logToConsole l) (_logToFile l)
     (_jsonFile l) (_ringSize l) (_metricsInterval l) (metrics l) (alerts l)
     (_ring l) (f (_children l)) (_textWriter l) (_jsonWriter l) (_errorWriter l)
     (on_log l) (on_alert l).

Definition set_writers (text json error : option RotatingFileWriter.t) (l : t) : t :=
  mk (_context l) (_level l) (_useColor l) (_logToConsole l) (_logToFile l)
     (_jsonFile l) (_ringSize l) (_metricsInterval l) (metrics l) (alerts l)
     (_ring l) (_children l) text json error
     (on_log l) (on_alert l).

Definition set_on_log (f : list LogListener -> list LogListener) (l : t) : t :=
  mk (_context l) (_level l) (_useColor l) (_logToConsole l) (_logToFile l)
     (_jsonFile l) (_ringSize l) (_metricsInterval l) (metrics l) (alerts l)
     (_ring l) (_children l) (_textWriter l) (_jsonWriter l) (_errorWriter l)
     (f (on_log l)) (on_alert l).

Definition set_on_alert (f : list AlertListener -> list AlertListener) (l : t) : t :=
  mk (_context l) (_level l) (_useColor l) (_logToConsole l) (_logToFile l)
     (_jsonFile l) (_ringSize l) (_metricsInterval l) (metrics l) (alerts l)
     (_ring l) (_children l) (_textWriter l) (_jsonWriter l) (_errorWriter l)
     (on_log l) (f (on_alert l)).

(** Reading and updating an object of the heap; a reference that names
    no object cannot be built by the constructors below. *)
Definition deref (id : nat) (w : World) : res t :=
  match heap w !! id with
  | Some l => Ok l
  | None => Throw "TypeError"
  end.

(** The world with logger [id] replaced, with one more clock reading
    consumed, and with one more effect recorded. *)
Definition put (id : nat) (l : t) (w : World) : World :=
  {| heap := <[id := l]> (heap w); ticks := ticks w; trace := trace w |}.

Definition tick (w : World) : World :=
  {| heap := heap w; ticks := S (ticks w); trace := trace w |}.

Definition record (e : Effect) (w : World) : World :=
  {| heap := heap w; ticks := ticks w; trace := trace w ++ [e] |}.

(** A new object at the end of the heap; its identity is the length of
    the heap before. *)
Definition alloc (l : t) (w : World) : World :=
  {| heap := heap w ++ [l]; ticks := ticks w; trace := trace w |}.

Definition modify (id : nat) (f : t -> t) (w : World) : res World :=
  l ← deref id w;
  Ok (put id (f l) w).

#[global] Arguments put : simpl never.
#[global] Arguments tick : simpl never.
#[global] Arguments record : simpl never.
#[global] Arguments alloc : simpl never.

Section Pipeline.
Context `{rt : Runtime}.

(** [Date.now()] and [new Date()]: the next reading of the clock. *)
Definition Date_now (w : World) : Z * World := (clock (ticks w), tick w).

Definition LOG_DIR : string := process_cwd +:+ "/logs".

(** The object [new Logger(opts)] builds; [now] is the clock reading
    taken by its metrics collector. *)
Definition construct (opts : Opts) (now : Z) : t :=
  let logToFile := JS.defined_or (opt_file opts) true in
  let ringSize := JS.or_nat (opt_ringSize opts) 2000 in
  let writer := fun file =>
    if logToFile
    then Some (RotatingFileWriter.new (LOG_DIR +:+ "/" +:+ file) MAX_FILE_MB MAX_BACKUPS)
    else None in
  {| _context := JS.or_str (opt_context opts) "app";
     _level := JS.defined_or (opt_level opts) 10%Z;
     _useColor := JS.defined_or (opt_color opts) true;
     _logToConsole := JS.defined_or (opt_console opts) true;
     _logToFile := logToFile;
     _jsonFile := JS.defined_or (opt_jsonFile opts) true;
     _ringSize := ringSize;
     _metricsInterval := JS.or_num (opt_metricsInterval opts) 30000;
     metrics := MetricsCollector.new now;
     alerts := AlertManager.new;
     _ring := RingBuffer.new ringSize;
     _children := [];
     _textWriter := writer "app.log";
     _jsonWriter := writer "app.json.log";
     _errorWriter := writer "error.log";
     on_log := [];
     on_alert := [] |}.

(** [new Logger(opts)]: the new object and its identity.  The timers and
    the process hooks the constructor registers only call the operations
    below at later instants, and are left to the caller. *)
Definition new (opts : Opts) (w : World) : nat * World :=
  let '(now, w) := Date_now w in
  (length (heap w), alloc (construct opts now) w).

(** Calls made on the pipeline: they may nest through callbacks. *)
Inductive Task :=
| Write (id : nat) (levelName message : string) (meta : option Meta)
| Emit (id : nat) (ev : Event).

(** [writer.write(line)] on a writer of the logger. *)
Definition to_writer (line : string) (o : option RotatingFileWriter.t)
    : res (option RotatingFileWriter.t) :=
  match o with
  | Some wr => Ok (Some (RotatingFileWriter.write line wr))
  | None => Throw "TypeError"
  end.

(** The three appends of the file output: text, structured, and errors
    only when [toError]. *)
Definition write_files (textLine jsonLine : string) (toError : bool) (l : t) : res t :=
  tw ← to_writer textLine (_textWriter l);
  jw ← to_writer jsonLine (_jsonWriter l);
  ew ← (if toError then to_writer jsonLine (_errorWriter l) else Ok (_errorWriter l));
  Ok (set_writers tw jw ew l).

Definition file_output (id : nat) (textLine jsonLine : string) (toError : bool)
    (w : World) : res World :=
  l ← deref id w;
  l' ← write_files textLine jsonLine toError l;
  Ok (put id l' w).

Section Step.
(** The calls that go through a callback or a notification. *)
Variable rec : Task -> World -> res World.

Definition run_script (calls : list Call) (w : World) : res World :=
  forEach (fun c w =>
             match c with
             | CallWrite target levelName message meta =>
                 rec (Write target levelName message meta) w
             end) calls w.

(** The alert manager of logger [id] inside the world: its emitter is
    the logger itself. *)
Definition alerts_self (id : nat) (w : World) : res AlertManager.t :=
  l ← deref id w; Ok (alerts l).

Definition alerts_update (id : nat) (f : AlertManager.t -> AlertManager.t)
    (w : World) : res World :=
  modify id (set_alerts f) w.

Definition emit_alert (id : nat) (rule : string) (entry : Entry.t) (w : World)
    : res World :=
  rec (Emit id (AlertEv rule entry)) w.

Definition invoke_handler (id : nat) (rule : AlertManager.Rule) (h : Script)
    (entry : Entry.t) (w : World) : res World :=
  run_script (h entry) (record (Handled id (AlertManager.name rule) entry) w).

Definition alerts_evaluate_rule (id : nat) (entry : Entry.t)
    (rule : AlertManager.Rule) (w : World) : res World :=
  AlertManager.evaluate_rule (alerts_self id) (alerts_update id) Date_now
    (emit_alert id) (invoke_handler id) entry rule w.

(** [logger.alerts.evaluate(entry)]. *)
Definition alerts_evaluate (id : nat) (entry : Entry.t) (w : World) : res World :=
  AlertManager.evaluate (alerts_self id) (alerts_update id) Date_now
    (emit_alert id) (invoke_handler id) entry w.

(** The listener [child] installs on the child's ["log"] event. *)
Definition forward (parent : nat) (entry : Entry.t) (w : World) : res World :=
  w ← modify parent (set_ring (RingBuffer.push entry)) w;
  w ← modify parent (set_metrics (MetricsCollector.incrementLevel (Entry.level entry))) w;
  w ← alerts_evaluate parent entry w;
  w ← rec (Emit parent (LogEv entry)) w;
  p ← deref parent w;
  if _logToFile p then
    file_output parent (entryToText entry false) (entryToJson entry)
      (JS.ge (LOG_LEVELS !! Entry.level entry) (LOG_LEVELS !! "ERROR")) w
  else Ok w.

(** [logger.emit(name, payload)]: the listeners registered for the event
    run in registration order. *)
Definition emit (id : nat) (ev : Event) (w : World) : res World :=
  l ← deref id w;
  let w := record (Emitted id ev) w in
  match ev with
  | LogEv entry =>
      forEach (fun listener w =>
                 match listener with
                 | Forward parent => forward parent entry w
                 | OnLog callback => run_script (callback entry) w
                 end) (on_log l) w
  | AlertEv rule entry =>
      forEach (fun listener w => run_script (listener rule entry) w) (on_alert l) w
  end.

(** [logger._write(levelName, message, meta)], as the level methods
    [trace], [debug], [info], [success], [warn], [error] and [fatal]
    call it, each with its own level name.  A name without a level code
    is dropped ([level === undefined]); the names that plain objects
    inherit, for which [LOG_LEVELS[levelName]] is a function or an
    object rather than undefined, are not among the names the level
    methods pass. *)
Definition _write (id : nat) (levelName message : string) (meta : option Meta)
    (w : World) : res World :=
  self ← deref id w;
  match LOG_LEVELS !! levelName with
  | None => Ok w
  | Some level =>
      if (level <? _level self)%Z then Ok w
      else
        let '(now, w) := Date_now w in
        let entry := buildEntry now level levelName message meta (Some (_context self)) in
        w ← modify id (set_ring (RingBuffer.push entry)) w;
        w ← modify id (set_metrics (MetricsCollector.incrementLevel levelName)) w;
        w ← alerts_evaluate id entry w;
        w ← rec (Emit id (LogEv entry)) w;
        let w :=
          if _logToConsole self then
            let line := entryToText entry (_useColor self) in
            if (40 <=? level)%Z then record (Stderr (line +:+ LF)) w
            else record (Stdout (line +:+ LF)) w
          else w in
        if _logToFile self then
          file_output id (entryToText entry false) (entryToJson entry)
            (40 <=? level)%Z w
        else Ok w
  end.

Definition step (task : Task) (w : World) : res World :=
  match task with
  | Write id levelName message meta => _write id levelName message meta w
  | Emit id ev => emit id ev w
  end.

End Step.

(** Nested calls are bounded by [fuel]; [OutOfFuel] stands for a chain of
    callbacks deeper than that. *)
Fixpoint exec (fuel : nat) (task : Task) (w : World) : res World :=
  match fuel with
  | O => OutOfFuel
  | S fuel' => step (exec fuel') task w
  end.

(** The public log-level methods. *)
Definition trace_ fuel id msg meta := exec fuel (Write id "TRACE" msg meta).
Definition debug fuel id msg meta := exec fuel (Write id "DEBUG" msg meta).
Definition info fuel id msg meta := exec fuel (Write id "INFO" msg meta).
Definition success fuel id msg meta := exec fuel (Write id "SUCCESS" msg meta).
Definition warn fuel id msg meta := exec fuel (Write id "WARN" msg meta).
Definition error fuel id msg meta := exec fuel (Write id "ERROR" msg meta).
Definition fatal fuel id msg meta := exec fuel (Write id "FATAL" msg meta).

(** The timer helpers [logger.startTimer(name)] and
    [logger.endTimer(name)].  The collector reads the clock when it
    records the start, and at the end only when a start is recorded. *)
Definition startTimer (fuel id : nat) (name : string) (w : World) : res World :=
  let '(now, w) := Date_now w in
  w ← modify id (set_metrics (MetricsCollector.startTimer now name)) w;
  debug fuel id ("Timer started: " +:+ name) None w.

Definition endTimer (fuel id : nat) (name : string) (w : World) : res (option Z * World) :=
  self ← deref id w;
  ended ← MetricsCollector.endTimer (clock (ticks w)) name (metrics self);
  match ended with
  | (None, _) => Ok (None, w)
  | (Some elapsed, m) =>
      w ← modify id (set_metrics (fun _ => m)) (tick w);
      w ← debug fuel id ("Timer ended: " +:+ name) (Some (meta_ms elapsed)) w;
      Ok (Some elapsed, w)
  end.

(** [writer.flush()] on a writer of the logger, over the file system
    [d]; an exception of [rotate] propagates. *)
Definition flush_writer (o : option RotatingFileWriter.t) (d : RotatingFileWriter.Disk)
    : res (option RotatingFileWriter.t * RotatingFileWriter.Disk) :=
  match o with
  | Some wr =>
      match RotatingFileWriter.flush wr d with
      | Some (wr', d') => Ok (Some wr', d')
      | None => Throw "Error"
      end
  | None => Throw "TypeError"
  end.

(** The three flushes that the flush timer of the constructor and the
    exit hook perform: text, structured, errors. *)
Definition flush_files (id : nat) (w : World) (d : RotatingFileWriter.Disk)
    : res (World * RotatingFileWriter.Disk) :=
  self ← deref id w;
  '(tw, d) ← flush_writer (_textWriter self) d;
  '(jw, d) ← flush_writer (_jsonWriter self) d;
  '(ew, d) ← flush_writer (_errorWriter self) d;
  Ok (put id (set_writers tw jw ew self) w, d).

(** [logger._onExit(code)], the listener of the process's ["exit"] event. *)
Definition _onExit (fuel id : nat) (code : Z) (w : World) (d : RotatingFileWriter.Disk)
    : res (World * RotatingFileWriter.Disk) :=
  w ← info fuel id "Process exiting" (Some (meta_code code)) w;
  self ← deref id w;
  if _logToFile self then flush_files id w d else Ok (w, d).

(** [logger.child(childContext, extraOpts)]. *)
Definition child (id : nat) (childContext : option string) (extraOpts : Opts)
    (w : World) : res (nat * World) :=
  self ← deref id w;
  let '(c, w) :=
    new {| opt_context := childContext;
           opt_level := Some (JS.or_num (opt_level extraOpts) (_level self));
           opt_color := Some (JS.defined_or (opt_color extraOpts) (_useColor self));
           opt_console := Some (JS.defined_or (opt_console extraOpts) (_logToConsole self));
           opt_file := Some false;
           opt_jsonFile := None;
           opt_ringSize := Some (JS.or_nat (opt_ringSize extraOpts) 500);
           opt_metricsInterval := None |} w in
  w ← modify c (set_on_log (fun ls => ls ++ [Forward id])) w;
  w ← modify id (set_children (fun cs => cs ++ [c])) w;
  Ok (c, w).

Definition query (id : nat) (opts : RingBuffer.QueryOpts) (w : World)
    : res (list Entry.t) :=
  l ← deref id w;
  Ok (RingBuffer.query opts (_ring l)).

(** [logger.alerts.addRule(opts)]. *)
Definition addRule (id : nat) (opts : AlertManager.RuleOpts) (w : World) : res World :=
  modify id (set_alerts (AlertManager.addRule opts)) w.

(** [logger.alerts.evaluate(entry)] called from outside the pipeline. *)
Definition evaluate (fuel : nat) (id : nat) (entry : Entry.t) (w : World) : res World :=
  alerts_evaluate (exec fuel) id entry w.

Definition evaluate_rule (fuel : nat) (id : nat) (entry : Entry.t)
    (rule : AlertManager.Rule) (w : World) : res World :=
  alerts_evaluate_rule (exec fuel) id entry rule w.

End Pipeline.

End Logger.

(** * Vocabulary of the properties *)

Section RingBufferVocabulary.
Context {A : Type}.
Import RingBuffer.

(** The buffer [rb] of capacity [N] represents the sequence [l]. *)
Definition ring_inv (N : nat) (rb : t A) (l : list A) : Prop :=
  _capacity rb = N ∧
  ((length (_data rb) < N ∧ _head rb = 0 ∧ _data rb = l) ∨
   (length (_data rb) = N ∧ _head rb < N ∧
    drop (_head rb) (_data rb) ++ take (_head rb) (_data rb) = l)).

(** The last [n] elements of a list. *)
Definition lastN (n : nat) (l : list A) : list A := drop (length l - n) l.

End RingBufferVocabulary.

(** Lexicographic order on strings by character code. *)
Inductive lex_lt : string -> string -> Prop :=
| lex_lt_empty c t : lex_lt EmptyString (String c t)
| lex_lt_head c d s t : (N_of_ascii c < N_of_ascii d)%N -> lex_lt (String c s) (String d t)
| lex_lt_tail c s t : lex_lt s t -> lex_lt (String c s) (String c t).


(** [selects P l r]: [r] holds exactly the elements of [l] that satisfy
    [P], in the order of [l]. *)
Inductive selects {A : Type} (P : A -> Prop) : list A -> list A -> Prop :=
| selects_nil : selects P [] []
| selects_keep x l r : P x -> selects P l r -> selects P (x :: l) (x :: r)
| selects_skip x l r : ~ P x -> selects P l r -> selects P (x :: l) r.

Section QueryVocabulary.
Import RingBuffer.





End QueryVocabulary.

Section TimerVocabulary.
Import MetricsCollector.

Definition Zsum (l : list Z) : Z := foldr Z.add 0%Z l.

(** The samples 1, 2, ..., 100. *)
Definition one_to_hundred : list Z := Z.of_nat <$> seq 1 100.

(** Twenty samples of 0 ms and one of 7 ms, recorded under ["t"]. *)
Definition zero_heavy_samples : list Z := replicate 20 0%Z ++ [7%Z].

Definition zero_heavy_metrics : t :=
  {| _startedAt := 0;
     _counts := ∅;
     _timers := ∅;
     _gauges := ∅;
     _histograms := {[ "t" := zero_heavy_samples ]} |}.

End TimerVocabulary.

Section WriterVocabulary.
Import RotatingFileWriter.

(** The writer after its buffer was taken ([splice(0, length)]). *)
Definition drained (w : t) : t :=
  {| filePath := filePath w;
     maxMB := maxMB w;
     maxBackups := maxBackups w;
     _buffer := [];
     _writing := _writing w |}.

(** The files a writer keeps, read off a history of contents, latest
    first: the active file holds the latest, backup [k] the one written
    [k] rotations before, up to [maxBackups]. *)
Definition retained (w : t) (hist : list string) (d : Disk) : Prop :=
  files d !! filePath w = hist !! 0 ∧
  ∀ k, 1 ≤ k →
    files d !! backup w k = if decide (k ≤ maxBackups w) then hist !! k else None.

(** A rotation followed by the completion of the append that starts the
    new active file, once per content. *)
Fixpoint rotations (w : t) (contents : list string) (d : Disk) : option Disk :=
  match contents with
  | [] => Some d
  | c :: rest =>
      d' ← rotate w d;
      rotations w rest (complete (length (in_flight d')) (appendFile (filePath w) c d'))
  end.

Definition empty_disk : Disk := {| files := ∅; in_flight := [] |}.

End WriterVocabulary.

Section RuleVocabulary.
Import AlertManager.

(** The rule an [addRule] call stores. *)
Definition stored (opts : RuleOpts) (am : t) : option Rule :=
  last (_rules (addRule opts am)).

End RuleVocabulary.

Section PipelineVocabulary.
Context `{rt : Runtime}.
Import Logger.

(** The effect of the console branch of [_write]. *)
Definition console (l : Logger.t) (level : Z) (entry : Entry.t) (w : World) : World :=
  if _logToConsole l then
    if (40 <=? level)%Z
    then record (Stderr (entryToText entry (_useColor l) +:+ LF)) w
    else record (Stdout (entryToText entry (_useColor l) +:+ LF)) w
  else w.

(** What the console branch adds to the trace. *)
Definition console_effects (l : Logger.t) (level : Z) (entry : Entry.t) : list Effect :=
  if _logToConsole l then
    if (40 <=? level)%Z
    then [Stderr (entryToText entry (_useColor l) +:+ LF)]
    else [Stdout (entryToText entry (_useColor l) +:+ LF)]
  else [].

Definition writers_present (l : Logger.t) : Prop :=
  _logToFile l = true →
  is_Some (_textWriter l) ∧ is_Some (_jsonWriter l) ∧ is_Some (_errorWriter l).

(** The file output of an entry on the logger's own writers. *)
Definition with_files (toError : bool) (entry : Entry.t) (l : Logger.t) : Logger.t :=
  if _logToFile l then
    set_writers
      (RotatingFileWriter.write (entryToText entry false) <$> _textWriter l)
      (RotatingFileWriter.write (entryToJson entry) <$> _jsonWriter l)
      (if toError
       then RotatingFileWriter.write (entryToJson entry) <$> _errorWriter l
       else _errorWriter l) l
  else l.

(** The logger after an entry went through the steps of [_write] that
    touch the logger itself: ring buffer, counter, and file output. *)
Definition logged (levelName : string) (toError : bool) (entry : Entry.t)
    (l : Logger.t) : Logger.t :=
  with_files toError entry
    (set_metrics (MetricsCollector.incrementLevel levelName)
       (set_ring (RingBuffer.push entry) l)).


(** The options [child] passes to the constructor. *)
Definition child_opts (childContext : option string) (extraOpts : Opts) (parent : Logger.t)
    : Opts :=
  {| opt_context := childContext;
     opt_level := Some (JS.or_num (opt_level extraOpts) (_level parent));
     opt_color := Some (JS.defined_or (opt_color extraOpts) (_useColor parent));
     opt_console := Some (JS.defined_or (opt_console extraOpts) (_logToConsole parent));
     opt_file := Some false;
     opt_jsonFile := None;
     opt_ringSize := Some (JS.or_nat (opt_ringSize extraOpts) 500);
     opt_metricsInterval := None |}.

End PipelineVocabulary.

Section ForwardingVocabulary.
Context `{rt : Runtime}.
Import Logger.

(** A callback that makes no logging call. *)
Definition silent (s : Script) : Prop := ∀ e, s e = [].

(** A logger whose callbacks do not log: the handlers of its rules, the
    listeners of its alerts and the listeners of ["log"] that its user
    registered. *)
Record quiet (l : Logger.t) : Prop := {
  quiet_handlers :
    Forall (fun r => ∀ h, AlertManager.handler r = Some h → silent h)
      (AlertManager._rules (alerts l));
  quiet_on_alert : Forall (fun a : AlertListener => ∀ rule, silent (a rule)) (on_alert l);
  quiet_on_log :
    Forall (fun ls => match ls with OnLog cb => silent cb | Forward _ => True end) (on_log l)
}.

(** The loggers to which a logger forwards its entries. *)
Definition forwards (l : Logger.t) : list nat :=
  omap (fun ls => match ls with Forward p => Some p | OnLog _ => None end) (on_log l).

(** The effects of an evaluation of the rules of logger [id]: its alerts
    and the calls of its handlers. *)
Definition alert_effect (id : nat) (eff : Effect) : Prop :=
  match eff with
  | Emitted i (AlertEv _ _) => i = id
  | Handled i _ _ => i = id
  | _ => False
  end.

(** What was printed on the console, in order. *)
Definition printed (tr : list Effect) : list string :=
  omap (fun eff => match eff with
                   | Stdout text => Some text
                   | Stderr text => Some text
                   | _ => None
                   end) tr.

(** The ["log"] notifications of a trace, in order: logger and entry. *)
Definition notified (tr : list Effect) : list (nat * Entry.t) :=
  omap (fun eff => match eff with
                   | Emitted i (LogEv e) => Some (i, e)
                   | _ => None
                   end) tr.

(** What an entry leaves in a logger that receives it: ring buffer,
    counter and file output, and the manager after the evaluation of
    the rules. *)
Definition received (am' : AlertManager.t) (entry : Entry.t) (l : Logger.t) : Logger.t :=
  with_files (JS.ge (LOG_LEVELS !! Entry.level entry) (LOG_LEVELS !! "ERROR")) entry
    (set_alerts (fun _ => am')
       (set_metrics (MetricsCollector.incrementLevel (Entry.level entry))
          (set_ring (RingBuffer.push entry) l))).

End ForwardingVocabulary.

(** ** Vocabulary of the further properties *)

(** [s] repeated [k] times. *)
Fixpoint repeat_str (s : string) (k : nat) : string :=
  match k with
  | O => ""
  | S k' => s +:+ repeat_str s k'
  end.

(** Whether a string is ASCII text. *)
Fixpoint is_ascii (s : string) : bool :=
  match s with
  | EmptyString => true
  | String c rest => (nat_of_ascii c <? 128)%nat && is_ascii rest
  end.

(** Whether a string holds the escape character, which starts every ANSI
    colour sequence. *)
Fixpoint has_escape (s : string) : bool :=
  match s with
  | EmptyString => false
  | String c rest => (nat_of_ascii c =? 27)%nat || has_escape rest
  end.

Section TimestampVocabulary.

(** The calendar fields of a date, most significant first. *)
Definition calendar_fields (d : DateFields) : list Z :=
  [getFullYear d; getMonth d; getDate d; getHours d; getMinutes d; getSeconds d;
   getMilliseconds d].

(** Lexicographic order on lists of numbers of the same length. *)
Fixpoint fields_lt (l k : list Z) : Prop :=
  match l, k with
  | x :: l', y :: k' => (x < y)%Z ∨ (x = y ∧ fields_lt l' k')
  | _, _ => False
  end.

(** The ranges of the fields of a date with a four-digit year. *)
Record in_calendar (d : DateFields) : Prop := {
  year_range : (1000 ≤ getFullYear d ≤ 9999)%Z;
  month_range : (0 ≤ getMonth d ≤ 11)%Z;
  date_range : (1 ≤ getDate d ≤ 31)%Z;
  hours_range : (0 ≤ getHours d ≤ 23)%Z;
  minutes_range : (0 ≤ getMinutes d ≤ 59)%Z;
  seconds_range : (0 ≤ getSeconds d ≤ 59)%Z;
  milliseconds_range : (0 ≤ getMilliseconds d ≤ 999)%Z
}.

(** The numbers 0, ..., n - 1. *)
Definition below (n : Z) : list Z := Z.of_nat <$> seq 0 (Z.to_nat n).

(** A two-digit field of [formatTimestamp] and [uptime]. *)
Definition pad2 (n : Z) : string := padStart (JS.String_of n) 2 None.

End TimestampVocabulary.

Section LimitVocabulary.
Import RingBuffer.

(** The filter [f] with its limit removed. *)
Definition without_limit (f : QueryOpts) : QueryOpts :=
  {| opt_level := opt_level f;
     opt_context := opt_context f;
     opt_search := opt_search f;
     opt_since := opt_since f;
     opt_until := opt_until f;
     opt_limit := None |}.

End LimitVocabulary.

(** The filter object [{}]. *)
Definition no_filter : RingBuffer.QueryOpts :=
  {| RingBuffer.opt_level := None;
     RingBuffer.opt_context := None;
     RingBuffer.opt_search := None;
     RingBuffer.opt_since := None;
     RingBuffer.opt_until := None;
     RingBuffer.opt_limit := None |}.

Section CollectorVocabulary.
Import MetricsCollector.

(** Successive [incrementLevel] calls, first name first. *)
Definition incrementAll (names : list string) (m : t) : t :=
  fold_left (fun m name => incrementLevel name m) names m.

(** How many times [L] occurs in [names]. *)
Definition occurrences (L : string) (names : list string) : nat :=
  length (filter (fun name => name = L) names).

End CollectorVocabulary.

Section LinesVocabulary.
Import RotatingFileWriter.

(** Successive [write] calls, first line first. *)
Definition writeAll (lines : list string) (w : t) : t :=
  fold_left (fun w line => write line w) lines w.

(** The lines, each one ended by a newline. *)
Fixpoint unlines (lines : list string) : string :=
  match lines with
  | [] => ""
  | l :: rest => l +:+ LF +:+ unlines rest
  end.

(** The paths a writer may touch: its active file and its backups. *)
Definition owns (w : t) (p : string) : Prop :=
  p = filePath w ∨ ∃ k, p = backup w k.

(** The append a flush of [w] queues: none when its buffer is empty. *)
Definition queued (w : t) : list (string * string) :=
  if decide (_buffer w = []) then [] else [(filePath w, unlines (_buffer w))].

End LinesVocabulary.

Section LoggerFilesVocabulary.
Import Logger.
(** The writers a logger owns. *)
Definition logger_writers (l : Logger.t) : list RotatingFileWriter.t :=
  omap id [_textWriter l; _jsonWriter l; _errorWriter l].
End LoggerFilesVocabulary.

Section RuleSequenceVocabulary.
Import AlertManager.

(** Successive [addRule] calls, first options first. *)
Definition addRules (optss : list RuleOpts) (am : t) : t :=
  fold_left (fun am opts => addRule opts am) optss am.

End RuleSequenceVocabulary.

Section RoundTripVocabulary.
Context `{rt : Runtime}.
Import Logger.

(** A sequence of logging calls on one logger: level name, message and
    meta of each call. *)
Definition logAll (fuel id : nat) (calls : list (string * string * option Meta))
    (w : World) : res World :=
  forEach (fun '(levelName, msg, meta) w => exec fuel (Write id levelName msg meta) w)
    calls w.

End RoundTripVocabulary.


(** ** Inputs of the concrete runs *)

(** A runtime for concrete runs: the clock advances 40 s per reading. *)
#[local] Instance sample_runtime : Runtime :=
  {| clock := fun k => (1700000000000 + 40000 * Z.of_nat k)%Z;
     localFields := fun _ =>
       {| getFullYear := 2026; getMonth := 1; getDate := 12; getHours := 5;
          getMinutes := 29; getSeconds := 10; getMilliseconds := 390 |};
     process_pid := 12345;
     os_hostname := "prod-server-01";
     process_cwd := "/srv/app";
     JSON_stringify := fun e => "{" +:+ Entry.message e +:+ "}" |}.

Definition start_world : Logger.World :=
  {| Logger.heap := []; Logger.ticks := 0; Logger.trace := [] |}.

(** A logger that logs everything, without console or file output. *)
Definition quiet_opts : Logger.Opts :=
  {| Logger.opt_context := None;
     Logger.opt_level := Some 0%Z;
     Logger.opt_color := None;
     Logger.opt_console := Some false;
     Logger.opt_file := Some false;
     Logger.opt_jsonFile := None;
     Logger.opt_ringSize := None;
     Logger.opt_metricsInterval := None |}.

Definition warn_opts : Logger.Opts :=
  {| Logger.opt_context := None;
     Logger.opt_level := Some 30%Z;
     Logger.opt_color := None;
     Logger.opt_console := None;
     Logger.opt_file := None;
     Logger.opt_jsonFile := None;
     Logger.opt_ringSize := None;
     Logger.opt_metricsInterval := None |}.

Definition default_opts : Logger.Opts :=
  {| Logger.opt_context := None;
     Logger.opt_level := None;
     Logger.opt_color := None;
     Logger.opt_console := None;
     Logger.opt_file := None;
     Logger.opt_jsonFile := None;
     Logger.opt_ringSize := None;
     Logger.opt_metricsInterval := None |}.





Definition sample_entry (ts lvl ctx msg : string) : Entry.t :=
  {| Entry.timestamp := ts;
     Entry.level := lvl;
     Entry.levelCode := default 0%Z (LOG_LEVELS !! lvl);
     Entry.pid := 12345;
     Entry.hostname := "prod-server-01";
     Entry.context := ctx;
     Entry.message := msg;
     Entry.meta := None |}.

Definition sample_ring : RingBuffer.t Entry.t :=
  RingBuffer.pushAll
    [sample_entry "2026-02-12T05:29:10.390Z" "ERROR" "api" "first";
     sample_entry "2026-02-12T05:29:11.000Z" "INFO" "api" "second";
     sample_entry "2026-02-12T05:29:12.000Z" "WARN" "database" "slow query";
     sample_entry "2026-02-12T05:29:13.000Z" "FATAL" "api" "out of memory"]
    (RingBuffer.new 3).

Definition sample_filter : RingBuffer.QueryOpts :=
  {| RingBuffer.opt_level := Some "WARN";
     RingBuffer.opt_context := None;
     RingBuffer.opt_search := None;
     RingBuffer.opt_since := None;
     RingBuffer.opt_until := None;
     RingBuffer.opt_limit := Some 1%Z |}.

Definition sample_writer : RotatingFileWriter.t :=
  RotatingFileWriter.write "line two"
    (RotatingFileWriter.write "line one" (RotatingFileWriter.new "logs/app.log" 0 2)).

Definition sample_disk : RotatingFileWriter.Disk :=
  {| RotatingFileWriter.files := {[ "logs/app.log" := "older lines" ]};
     RotatingFileWriter.in_flight := [] |}.




Definition boom : Entry.t :=
  sample_entry "2026-02-12T05:29:10.390Z" "ERROR" "app" "boom".

(** A collector with one completed timing of 150 ms under ["db"]. *)
Definition two_timings : MetricsCollector.t :=
  match MetricsCollector.endTimer 1700000000250 "db"
          (MetricsCollector.startTimer 1700000000100 "db"
             (MetricsCollector.new 1700000000000)) with
  | Ok (_, m) => m
  | _ => MetricsCollector.new 1700000000000
  end.

(** Two instants of the same day. *)
Definition morning : DateFields :=
  {| getFullYear := 2026; getMonth := 1; getDate := 12; getHours := 5;
     getMinutes := 29; getSeconds := 10; getMilliseconds := 390 |}.

Definition evening : DateFields :=
  {| getFullYear := 2026; getMonth := 1; getDate := 12; getHours := 18;
     getMinutes := 3; getSeconds := 0; getMilliseconds := 7 |}.

(** The text writer of a logger and a disk that holds a text file and
    an errors file. *)
Definition text_writer : RotatingFileWriter.t :=
  RotatingFileWriter.new "/srv/app/logs/app.log" 5 5.

Definition error_writer : RotatingFileWriter.t :=
  RotatingFileWriter.new "/srv/app/logs/error.log" 5 5.

Definition two_file_disk : RotatingFileWriter.Disk :=
  {| RotatingFileWriter.files :=
       {[ "/srv/app/logs/app.log" := "text"; "/srv/app/logs/error.log" := "errors" ]};
     RotatingFileWriter.in_flight := [] |}.

(** Two rules under one name, at the default cooldown of 60 s. *)
Definition named_rule (name : string) : AlertManager.RuleOpts :=
  {| AlertManager.opt_name := Some name;
     AlertManager.opt_level := None;
     AlertManager.opt_messagePattern := None;
     AlertManager.opt_cooldownMs := None;
     AlertManager.opt_handler := None |}.

Definition twin_rules_logger : Logger.t :=
  Logger.set_alerts (addRules [named_rule "disk"; named_rule "disk"])
    (Logger.construct quiet_opts (clock 0)).

Definition twin_rules_world : Logger.World :=
  {| Logger.heap := [twin_rules_logger]; Logger.ticks := 1; Logger.trace := [] |}.

(** Options that ask for the level TRACE. *)
Definition trace_opts : Logger.Opts :=
  {| Logger.opt_context := None;
     Logger.opt_level := Some 0%Z;
     Logger.opt_color := None;
     Logger.opt_console := None;
     Logger.opt_file := None;
     Logger.opt_jsonFile := None;
     Logger.opt_ringSize := None;
     Logger.opt_metricsInterval := None |}.

(** A ["log"] listener that logs what it hears on the same logger. *)
Definition echo : Script :=
  fun e => [CallWrite 0 "INFO" ("heard: " +:+ Entry.message e) None].

Definition echo_logger : Logger.t :=
  Logger.set_on_log (fun ls => ls ++ [Logger.OnLog echo])
    (Logger.construct quiet_opts (clock 0)).

Definition echo_world : Logger.World :=
  {| Logger.heap := [echo_logger]; Logger.ticks := 1; Logger.trace := [] |}.

(** A logger that keeps two entries. *)
Definition small_ring_opts : Logger.Opts :=
  {| Logger.opt_context := Some "api";
     Logger.opt_level := None;
     Logger.opt_color := None;
     Logger.opt_console := Some false;
     Logger.opt_file := Some false;
     Logger.opt_jsonFile := None;
     Logger.opt_ringSize := Some 2;
     Logger.opt_metricsInterval := None |}.










(** A logger at the defaults, a child of it under ["api"], and a child
    of that child under ["api.users"]. *)
Definition lineage_world : Logger.World :=
  match Logger.child 0 (Some "api") default_opts (Logger.new default_opts start_world).2 with
  | Ok (p, w1) =>
      match Logger.child p (Some "api.users") default_opts w1 with
      | Ok (_, w2) => w2
      | _ => start_world
      end
  | _ => start_world
  end.

(** * Properties *)

(** ** Ring buffer: the last N items, in push order *)

Section RingBufferFacts.
Context {A : Type}.
Import RingBuffer.

Lemma ring_inv_new N : 1 ≤ N → ring_inv N (new N) ([] : list A).
Proof. intros HN. split; [done|]. left. simpl. by repeat split. Qed.

Lemma ring_inv_toArray N (rb : t A) (l : list A) : ring_inv N rb l → toArray rb = l.
Proof.
  intros [Hc [(Hlt & _ & Hd) | (Hlen & _ & Hd)]]; unfold toArray; rewrite Hc.
  - destruct (Nat.ltb_spec (length (_data rb)) N); [done | lia].
  - destruct (Nat.ltb_spec (length (_data rb)) N); [lia | done].
Qed.

Lemma ring_inv_length N (rb : t A) (l : list A) :
  ring_inv N rb l → length l = length (_data rb).
Proof.
  intros [Hc [(Hlt & _ & Hd) | (Hlen & Hh & Hd)]]; subst l; [done|].
  rewrite length_app, length_drop, length_take. lia.
Qed.

(** When the array is full the write index is inside it. *)
Lemma ring_head_in_range N (rb : t A) (l : list A) :
  ring_inv N rb l → length (_data rb) = N → _head rb < length (_data rb).
Proof. intros [Hc [(Hlt & _) | (Hlen & Hh & _)]] HN; lia. Qed.

Lemma ring_inv_push N (rb : t A) (l : list A) (x : A) :
  1 ≤ N → ring_inv N rb l →
  ring_inv N (push x rb) (if length l <? N then l ++ [x] else drop 1 (l ++ [x])).
Proof.
  intros HN Hinv. pose proof (ring_inv_length _ _ _ Hinv) as Hl.
  destruct Hinv as [Hc [(Hlt & Hh & Hd) | (Hlen & Hh & Hd)]].
  - unfold push. rewrite Hc, Hl.
    destruct (Nat.ltb_spec (length (_data rb)) N) as [_|?]; [|lia].
    split; [done|]. simpl. rewrite length_app. simpl.
    destruct (decide (length (_data rb) + 1 = N)) as [Hfull|Hnf].
    + right. rewrite Hh. repeat split; [done | lia |].
      rewrite drop_0, take_0, app_nil_r. by subst l.
    + left. repeat split; [lia | done | by subst l].
  - unfold push. rewrite Hc, Hl.
    destruct (Nat.ltb_spec (length (_data rb)) N) as [?|_]; [lia|].
    split; [done|]. right. simpl. rewrite length_insert.
    split; [done|]. split; [apply Nat.mod_upper_bound; lia|].
    assert (Hsplit : _data rb = take (_head rb) (_data rb) ++ drop (_head rb) (_data rb))
      by (by rewrite take_drop).
    destruct (drop (_head rb) (_data rb)) as [|y tl] eqn:Hdrop.
    { apply (f_equal length) in Hdrop. rewrite length_drop in Hdrop. simpl in Hdrop. lia. }
    assert (Hlt : length (take (_head rb) (_data rb)) = _head rb)
      by (rewrite length_take; lia).
    assert (Hins : <[_head rb := x]> (_data rb) = take (_head rb) (_data rb) ++ x :: tl).
    { rewrite Hsplit at 1. rewrite insert_app_r_alt by lia.
      rewrite Hlt, Nat.sub_diag. done. }
    rewrite Hins. subst l. simpl. rewrite drop_0.
    assert (Htl : length tl = N - _head rb - 1).
    { apply (f_equal length) in Hsplit. rewrite length_app, Hlt in Hsplit.
      simpl in Hsplit. lia. }
    destruct (decide (_head rb + 1 = N)) as [Hwrap|Hnw].
    + rewrite Hwrap, Nat.Div0.mod_same. rewrite drop_0, take_0, app_nil_r.
      destruct tl; [|simpl in Htl; lia]. done.
    + rewrite Nat.mod_small by lia.
      rewrite drop_app_ge by lia. rewrite Hlt.
      replace (_head rb + 1 - _head rb) with 1 by lia. simpl. rewrite drop_0.
      rewrite take_app_ge by lia. rewrite Hlt.
      replace (_head rb + 1 - _head rb) with 1 by lia. simpl. rewrite take_0.
      by rewrite <- app_assoc.
Qed.

Lemma lastN_snoc n (l : list A) (x : A) :
  lastN n (l ++ [x]) =
  if length (lastN n l) <? n then lastN n l ++ [x] else drop 1 (lastN n l ++ [x]).
Proof.
  unfold lastN. rewrite length_drop, length_app. simpl.
  destruct (Nat.ltb_spec (length l - (length l - n)) n) as [Hlt|Hge].
  - assert (length l < n) by lia.
    replace (length l - n) with 0 by lia.
    replace (length l + 1 - n) with 0 by lia. by rewrite !drop_0.
  - assert (n ≤ length l) by lia.
    rewrite <- drop_app_le by lia. rewrite drop_drop. f_equal. lia.
Qed.

Lemma pushAll_snoc (items : list A) (x : A) (rb : t A) :
  pushAll (items ++ [x]) rb = push x (pushAll items rb).
Proof. unfold pushAll. by rewrite fold_left_app. Qed.

Lemma ring_inv_pushAll N (items : list A) :
  1 ≤ N → ring_inv N (pushAll items (new N)) (lastN N items).
Proof.
  intros HN. induction items as [|x items IH] using rev_ind.
  - by apply ring_inv_new.
  - rewrite pushAll_snoc, lastN_snoc. by apply ring_inv_push.
Qed.

(** C1. For a capacity N of at least 1 and M pushes: when M >= N the
    ordered sequence has length N and is the last N pushed items in push
    order; when M < N it is all M pushed items in push order. *)
Theorem ring_buffer_keeps_last_N (N : nat) (items : list A) :
  1 ≤ N →
  (N ≤ length items →
     length (toArray (pushAll items (new N))) = N ∧
     toArray (pushAll items (new N)) = drop (length items - N) items) ∧
  (length items < N → toArray (pushAll items (new N)) = items).
Proof.
  intros HN.
  rewrite (ring_inv_toArray N _ _ (ring_inv_pushAll N items HN)).
  unfold lastN. split.
  - intros HM. split; [|done]. rewrite length_drop. lia.
  - intros HM. replace (length items - N) with 0 by lia. apply drop_0.
Qed.

End RingBufferFacts.

Lemma ring_buffer_keeps_last_N_witness :
  1 ≤ 3 ∧
  RingBuffer.toArray (RingBuffer.pushAll [10; 20; 30; 40; 50] (RingBuffer.new 3))
  = [30; 40; 50].
Proof.
  split; [lia|].
  apply (ring_buffer_keeps_last_N 3 [10; 20; 30; 40; 50]); simpl; lia.
Defined.

(** ** Query: the matching entries, most recent first under a limit *)



Lemma string_compare_lt s t : String.compare s t = Lt ↔ lex_lt s t.
Proof.
  revert t. induction s as [|c s IH]; intros [|d t]; simpl.
  - split; [discriminate | inversion 1].
  - split; [constructor | done].
  - split; [discriminate | inversion 1].
  - destruct (Ascii.compare c d) eqn:Hcd.
    + apply Ascii.compare_eq_iff in Hcd. subst d. rewrite IH. split.
      * by constructor.
      * inversion 1; subst; [lia | done].
    + unfold Ascii.compare in Hcd. apply N.compare_lt_iff in Hcd.
      split; [intros _; by constructor | done].
    + unfold Ascii.compare in Hcd. apply N.compare_gt_iff in Hcd.
      split; [discriminate|]. inversion 1; subst; lia.
Qed.

Lemma string_ltb_lex s t : String.ltb s t = true ↔ lex_lt s t.
Proof.
  rewrite <- string_compare_lt. unfold String.ltb.
  destruct (String.compare s t); split; congruence.
Qed.


(** Substrings: [indexOf] finds [sub] exactly when the string splits around it. *)
Lemma string_app_cons c s t : String c s +:+ t = String c (s +:+ t).
Proof. reflexivity. Qed.

Lemma string_app_empty t : "" +:+ t = t.
Proof. reflexivity. Qed.






Lemma selects_elem_of {A : Type} (P : A -> Prop) l r x :
  selects P l r → (x ∈ r ↔ x ∈ l ∧ P x).
Proof.
  induction 1 as [|y l r HP _ IH|y l r HP _ IH].
  - split; [inversion 1 | intros [H _]; inversion H].
  - rewrite !elem_of_cons, IH. split.
    + intros [-> | [? ?]]; auto.
    + intros [[-> | ?] ?]; auto.
  - rewrite elem_of_cons, IH. split.
    + intros [? ?]; auto.
    + intros [[-> | ?] ?]; [done | auto].
Qed.

Lemma selects_sublist {A : Type} (P : A -> Prop) (l r : list A) :
  selects P l r → sublist r l.
Proof. induction 1; by constructor. Qed.

Section QueryFacts.
Import RingBuffer.









(** A limit of 0 is falsy and does not limit. *)
Lemma query_limit_zero (f : QueryOpts) (rb : t Entry.t) :
  opt_limit f = Some 0%Z → query f rb = scan f (toArray rb).
Proof. intros H. unfold query. by rewrite H. Qed.

End QueryFacts.

(** ** Timer statistics *)

Section TimerStatsFacts.
Import MetricsCollector.

Lemma Zsum_snoc l x : Zsum (l ++ [x]) = (Zsum l + x)%Z.
Proof. induction l as [|y l IH]; simpl; lia. Qed.

Lemma accumulate_snoc l x :
  accumulate (l ++ [x]) =
  let '(sum, min, max) := accumulate l in
  ((sum + x)%Z,
   if JS.num_lt (JS.Fin x) min then JS.Fin x else min,
   if JS.num_lt max (JS.Fin x) then JS.Fin x else max).
Proof.
  unfold accumulate. rewrite fold_left_app. simpl.
  by destruct (fold_left _ l _) as [[sum lo] hi].
Qed.

(** On a non-empty list the loop leaves the sum, the least and the
    greatest sample. *)
Lemma accumulate_spec samples :
  samples ≠ [] →
  ∃ lo hi, accumulate samples = (Zsum samples, JS.Fin lo, JS.Fin hi) ∧
           lo ∈ samples ∧ hi ∈ samples ∧
           Forall (fun x => (lo ≤ x ≤ hi)%Z) samples.
Proof.
  induction samples as [|x l IH] using rev_ind; [done|]. intros _.
  rewrite accumulate_snoc, Zsum_snoc.
  destruct (decide (l = [])) as [->|Hne].
  - exists x, x. simpl. repeat split; [by left..|]. constructor; [lia|constructor].
  - destruct (IH Hne) as (lo & hi & -> & Hlo & Hhi & Hall). simpl.
    assert (Hlohi : (lo ≤ hi)%Z).
    { rewrite Forall_forall in Hall. specialize (Hall lo Hlo). lia. }
    assert (Hwiden : ∀ a b, (a ≤ lo)%Z → (hi ≤ b)%Z → (a ≤ x ≤ b)%Z →
              Forall (fun y => (a ≤ y ≤ b)%Z) (l ++ [x])).
    { intros a b Ha Hb Hx. apply Forall_app. split; [|constructor; [lia|constructor]].
      eapply Forall_impl; [exact Hall|]. simpl. lia. }
    assert (Hnew : x ∈ l ++ [x]) by (apply elem_of_app; right; by left).
    assert (Hold : ∀ y, y ∈ l → y ∈ l ++ [x]) by (intros y Hy; apply elem_of_app; by left).
    destruct (Z.ltb_spec x lo), (Z.ltb_spec hi x); [lia|..].
    + exists x, hi. repeat split; [done | by apply Hold |]. apply Hwiden; lia.
    + exists lo, x. repeat split; [by apply Hold | done |]. apply Hwiden; lia.
    + exists lo, hi. repeat split; [by apply Hold..|]. apply Hwiden; lia.
Qed.

(** [round_div] is a nearest integer of the quotient. *)
Lemma round_div_nearest sum n :
  0 < n →
  (2 * sum - Z.of_nat n < 2 * Z.of_nat n * round_div sum n ≤ 2 * sum + Z.of_nat n)%Z.
Proof.
  intros Hn. unfold round_div.
  pose proof (Z.div_mod (2 * sum + Z.of_nat n) (2 * Z.of_nat n)) as Hdm.
  pose proof (Z.mod_pos_bound (2 * sum + Z.of_nat n) (2 * Z.of_nat n)) as Hb.
  lia.
Qed.

Lemma sort_ascending_sorted samples : Sorted Z.le (sort_ascending samples).
Proof. apply Sorted_merge_sort. intros x y. lia. Qed.

Lemma sort_ascending_perm samples : sort_ascending samples ≡ₚ samples.
Proof. apply merge_sort_Permutation. Qed.

Lemma floor_095_in_range n : 0 < n → floor_095 n < n.
Proof. intros Hn. unfold floor_095. apply Nat.Div0.div_lt_upper_bound. lia. Qed.

Lemma floor_099_in_range n : 0 < n → floor_099 n < n.
Proof. intros Hn. unfold floor_099. apply Nat.Div0.div_lt_upper_bound. lia. Qed.

(** What [getTimerStats] answers: nothing without samples; otherwise the
    count, least, greatest, rounded mean, and for each percentile the
    element of the ascending sort at the floor index, which always exists,
    unless that element is 0, in which case the greatest sample. *)
Lemma getTimerStats_spec name m :
  match getTimerStats name m with
  | Ok None => _histograms m !! name = None ∨ _histograms m !! name = Some []
  | Ok (Some st) =>
      ∃ samples lo hi v95 v99,
        _histograms m !! name = Some samples ∧ samples ≠ [] ∧
        count st = length samples ∧
        min st = JS.Fin lo ∧ max st = JS.Fin hi ∧
        lo ∈ samples ∧ hi ∈ samples ∧ Forall (fun x => (lo ≤ x ≤ hi)%Z) samples ∧
        (2 * Zsum samples - Z.of_nat (length samples)
           < 2 * Z.of_nat (length samples) * avg st
           ≤ 2 * Zsum samples + Z.of_nat (length samples))%Z ∧
        sort_ascending samples !! floor_095 (length samples) = Some v95 ∧
        sort_ascending samples !! floor_099 (length samples) = Some v99 ∧
        p95 st = (if (v95 =? 0)%Z then JS.Fin hi else JS.Fin v95) ∧
        p99 st = (if (v99 =? 0)%Z then JS.Fin hi else JS.Fin v99)
  | _ => _histograms m !! name = None ∧ is_Some (Dict.Object_prototype !! name)
  end.
Proof.
  unfold getTimerStats, Dict.get. destruct (_histograms m !! name) as [samples|].
  2:{ destruct (Dict.Object_prototype !! name) as [[[|k]|]|]; eauto. }
  destruct samples as [|x l]; [by right|]. simpl Nat.eqb. cbv iota.
  set (samples := x :: l).
  assert (Hne : samples ≠ []) by done.
  assert (Hlen : 0 < length samples) by (simpl; lia).
  destruct (accumulate_spec samples Hne) as (lo & hi & Hacc & Hlo & Hhi & Hall).
  assert (Hsl : length (sort_ascending samples) = length samples)
    by (by rewrite sort_ascending_perm).
  destruct (lookup_lt_is_Some_2 (sort_ascending samples) (floor_095 (length samples)))
    as [v95 H95]; [rewrite Hsl; by apply floor_095_in_range|].
  destruct (lookup_lt_is_Some_2 (sort_ascending samples) (floor_099 (length samples)))
    as [v99 H99]; [rewrite Hsl; by apply floor_099_in_range|].
  exists samples, lo, hi, v95, v99.
  unfold statsOf. rewrite Hacc, Hsl, H95, H99. simpl.
  repeat split; try done. 
  - by apply round_div_nearest.
  - by apply round_div_nearest.
Qed.

Lemma percentiles_one_to_hundred :
  sort_ascending one_to_hundred !! 95 = Some 96%Z ∧
  sort_ascending one_to_hundred !! 99 = Some 100%Z ∧
  p95 (statsOf one_to_hundred) = JS.Fin 96 ∧
  p99 (statsOf one_to_hundred) = JS.Fin 100.
Proof. by vm_compute. Qed.

(** C5. On twenty samples of 0 and one of 7 the element of the ascending
    sort at index floor(0.95 * 21) = 19 is 0 and the index is within the
    array, yet [getTimerStats] reports 7, the maximum, as p95. *)
Theorem p95_zero_sample_reported_as_max :
  floor_095 (length zero_heavy_samples) = 19 ∧
  sort_ascending zero_heavy_samples !! 19 = Some 0%Z ∧
  (fun st : option TimerStats => p95 <$> st) <$> getTimerStats "t" zero_heavy_metrics
    = Ok (Some (JS.Fin 7)).
Proof. by vm_compute. Qed.

End TimerStatsFacts.

(** ** Rotating file writer: drain, rotation, retention *)

Section WriterFacts.
Import RotatingFileWriter.

Lemma string_length_app s t : String.length (s +:+ t) = String.length s + String.length t.
Proof.
  induction s as [|c s IH]; [done|].
  rewrite string_app_cons. simpl. by rewrite IH.
Qed.

Lemma backup_inj w j k : backup w j = backup w k → j = k.
Proof.
  unfold backup. intros H.
  apply String.app_inj in H. apply String.app_inj in H.
  by apply pretty_nat_inj in H.
Qed.

Lemma backup_not_active w k : backup w k ≠ filePath w.
Proof.
  unfold backup. intros H. apply (f_equal String.length) in H.
  rewrite !string_length_app in H. simpl in H. lia.
Qed.

Lemma renameSync_lookup from to d d' p :
  renameSync from to d = Some d' →
  files d' !! p =
    if decide (p = to) then files d !! from
    else if decide (p = from) then None
    else files d !! p.
Proof.
  unfold renameSync. destruct (files d !! from) as [c|] eqn:Hfrom; [|done].
  intros [= <-]. simpl. destruct (decide (p = to)) as [->|Hto].
  - by rewrite lookup_insert_eq.
  - rewrite lookup_insert_ne by done. destruct (decide (p = from)) as [->|Hfr].
    + by rewrite lookup_delete_eq.
    + by rewrite lookup_delete_ne.
Qed.

Lemma renameSync_in_flight from to d d' :
  renameSync from to d = Some d' → in_flight d' = in_flight d.
Proof.
  unfold renameSync. destruct (files d !! from); [|done]. by intros [= <-].
Qed.

Lemma renameSync_exists from to d :
  existsSync from d = true → is_Some (renameSync from to d).
Proof.
  unfold existsSync, renameSync. destruct (files d !! from); [eauto | done].
Qed.

Lemma shift_S w i d :
  shift w (S i) d =
  (if existsSync (backup w (S i)) d
   then renameSync (backup w (S i)) (backup w (S i + 1)) d else Some d)
  ≫= shift w i.
Proof. reflexivity. Qed.

(** The loop from [i] down to 1 moves every backup one slot up: slot
    [k <= i] receives what slot [k - 1] held, slot 1 is left empty, slot
    [i + 1] keeps its file only when slot [i] had none, and no other
    path is touched. *)
Lemma shift_spec w i d :
  ∃ d', shift w i d = Some d' ∧ in_flight d' = in_flight d ∧
    (∀ k, 2 ≤ k ≤ i → files d' !! backup w k = files d !! backup w (k - 1)) ∧
    (1 ≤ i → files d' !! backup w 1 = None) ∧
    (1 ≤ i → files d' !! backup w (i + 1) =
       match files d !! backup w i with
       | Some c => Some c
       | None => files d !! backup w (i + 1)
       end) ∧
    (∀ p, (∀ k, 1 ≤ k ≤ i + 1 → p ≠ backup w k) → files d' !! p = files d !! p) ∧
    (i = 0 → d' = d).
Proof.
  revert d. induction i as [|i IH]; intros d.
  - exists d. simpl. repeat split; try done; lia.
  - rewrite shift_S.
    assert (Hstep : ∃ d1,
      (if existsSync (backup w (S i)) d
       then renameSync (backup w (S i)) (backup w (S i + 1)) d else Some d) = Some d1 ∧
      in_flight d1 = in_flight d ∧
      files d1 !! backup w (S i) = None ∧
      files d1 !! backup w (S i + 1) =
        match files d !! backup w (S i) with
        | Some c => Some c
        | None => files d !! backup w (S i + 1)
        end ∧
      (∀ p, p ≠ backup w (S i) → p ≠ backup w (S i + 1) → files d1 !! p = files d !! p)).
    { destruct (existsSync (backup w (S i)) d) eqn:Hex.
      - destruct (renameSync_exists _ (backup w (S i + 1)) _ Hex) as [d1 Hd1].
        exists d1. split; [done|]. split; [by eapply renameSync_in_flight|].
        unfold existsSync in Hex.
        destruct (files d !! backup w (S i)) as [c|] eqn:Hc; [|done].
        repeat split.
        + rewrite (renameSync_lookup _ _ _ _ _ Hd1).
          destruct (decide (backup w (S i) = backup w (S i + 1))) as [E|_];
            [apply backup_inj in E; lia|].
          by rewrite decide_True.
        + rewrite (renameSync_lookup _ _ _ _ _ Hd1). by rewrite decide_True.
        + intros p Hp1 Hp2. rewrite (renameSync_lookup _ _ _ _ _ Hd1).
          by rewrite !decide_False.
      - exists d. unfold existsSync in Hex.
        destruct (files d !! backup w (S i)) as [c|] eqn:Hc; [done|].
        by repeat split. }
    destruct Hstep as (d1 & -> & Hfl1 & Hsi & Hsi1 & Hframe1). simpl.
    destruct (IH d1) as (d' & Hd' & Hfl & Hmid & Hone & Htop & Hframe & Hzero).
    exists d'. split; [done|]. split; [congruence|].
    assert (Hne : ∀ j k, j ≠ k → backup w j ≠ backup w k)
      by (intros j k Hjk E; by apply backup_inj in E).
    repeat split.
    + intros k Hk. destruct (decide (k = S i)) as [->|Hki].
      * replace (S i - 1) with i by lia.
        destruct (decide (i = 0)) as [->|Hi0]; [lia|].
        replace (S i) with (i + 1) by lia.
        rewrite Htop by lia. rewrite (Hframe1 (backup w i)) by (apply Hne; lia).
        replace (i + 1) with (S i) by lia. rewrite Hsi.
        by destruct (files d !! backup w i).
      * rewrite Hmid by lia. apply Hframe1; apply Hne; lia.
    + intros _. destruct (decide (i = 0)) as [->|Hi0].
      * rewrite (Hzero eq_refl). exact Hsi.
      * apply Hone. lia.
    + intros _. rewrite Hframe.
      * exact Hsi1.
      * intros k Hk. apply Hne. lia.
    + intros p Hp. rewrite Hframe.
      * apply Hframe1; apply Hp; lia.
      * intros k Hk. apply Hp. lia.
    + done.
Qed.

(** One rotation of an existing active file. *)
Lemma rotate_spec w d content :
  files d !! filePath w = Some content →
  ∃ d', rotate w d = Some d' ∧ in_flight d' = in_flight d ∧
    files d' !! filePath w = None ∧
    files d' !! backup w 1 = Some content ∧
    (∀ k, 2 ≤ k ≤ maxBackups w - 1 →
       files d' !! backup w k = files d !! backup w (k - 1)) ∧
    (2 ≤ maxBackups w →
       files d' !! backup w (maxBackups w) =
         match files d !! backup w (maxBackups w - 1) with
         | Some c => Some c
         | None => files d !! backup w (maxBackups w)
         end) ∧
    (∀ p, p ≠ filePath w → (∀ k, 1 ≤ k ≤ Nat.max 1 (maxBackups w) → p ≠ backup w k) →
       files d' !! p = files d !! p).
Proof.
  intros Hactive. unfold rotate, existsSync. rewrite Hactive. simpl.
  destruct (shift_spec w (maxBackups w - 1) d)
    as (ds & -> & Hfl & Hmid & Hone & Htop & Hframe & Hzero). simpl.
  assert (Hact : files ds !! filePath w = Some content).
  { rewrite Hframe; [done|]. intros k _ E. symmetry in E. by apply backup_not_active in E. }
  destruct (renameSync (filePath w) (backup w 1) ds) as [d'|] eqn:Hren;
    [|unfold renameSync in Hren; by rewrite Hact in Hren].
  exists d'. split; [done|].
  split; [by rewrite (renameSync_in_flight _ _ _ _ Hren)|].
  assert (Hlook := fun p => renameSync_lookup _ _ _ _ p Hren).
  assert (Hne : ∀ j k, j ≠ k → backup w j ≠ backup w k)
    by (intros j k Hjk E; by apply backup_inj in E).
  repeat split.
  - rewrite Hlook. rewrite decide_False by (intros E; symmetry in E; by apply backup_not_active in E).
    by rewrite decide_True.
  - rewrite Hlook. by rewrite decide_True.
  - intros k Hk. rewrite Hlook.
    rewrite decide_False by (apply Hne; lia).
    rewrite decide_False by apply backup_not_active.
    apply Hmid. lia.
  - intros Hmb. rewrite Hlook.
    rewrite decide_False by (apply Hne; lia).
    rewrite decide_False by apply backup_not_active.
    replace (maxBackups w) with (maxBackups w - 1 + 1) at 1 by lia.
    rewrite Htop by lia.
    by replace (maxBackups w - 1 + 1) with (maxBackups w) by lia.
  - intros p Hp Hpk. rewrite Hlook.
    rewrite decide_False by (apply Hpk; lia).
    rewrite decide_False by done.
    apply Hframe. intros k Hk. apply Hpk. lia.
Qed.

Lemma complete_appended p c d :
  complete (length (in_flight d)) (appendFile p c d) =
  {| files := <[p := default "" (files d !! p) +:+ c]> (files d);
     in_flight := in_flight d |}.
Proof.
  unfold complete, appendFile. simpl.
  rewrite lookup_app_r by lia. rewrite Nat.sub_diag. simpl. f_equal.
  rewrite delete_middle. by rewrite app_nil_r.
Qed.

Lemma retained_rotate w hist d c :
  1 ≤ maxBackups w → hist ≠ [] → retained w hist d →
  ∃ d', rotate w d = Some d' ∧
    retained w (c :: hist)
      (complete (length (in_flight d')) (appendFile (filePath w) c d')).
Proof.
  intros Hmb Hne [Hact Hback].
  destruct hist as [|content hist']; [done|]. simpl in Hact.
  destruct (rotate_spec w d content Hact)
    as (d' & Hrot & Hfl & Hnone & Hone & Hmid & Htop & Hframe).
  exists d'. split; [done|]. rewrite complete_appended. split; simpl.
  - rewrite lookup_insert_eq, Hnone. simpl. by rewrite string_app_empty.
  - intros k Hk. rewrite lookup_insert_ne by (intros E; symmetry in E; by apply backup_not_active in E).
    destruct (decide (k ≤ maxBackups w)) as [Hle|Hgt].
    + destruct (decide (k = 1)) as [->|Hk1]; [done|].
      destruct k as [|k]; [lia|]. simpl.
      destruct (decide (S k = maxBackups w)) as [Htopk|Hlow].
      * rewrite Htopk. rewrite Htop by lia.
        rewrite !Hback by lia. rewrite !decide_True by lia.
        rewrite <- Htopk. replace (S k - 1) with k by lia.
        destruct k as [|k]; [lia|]. simpl.
        destruct (hist' !! k) eqn:Hk'; [done|].
        apply lookup_ge_None in Hk'. apply lookup_ge_None. lia.
      * rewrite Hmid by lia. rewrite Hback by lia.
        rewrite decide_True by lia. by replace (S k - 1) with k by lia.
    + rewrite Hframe.
      * rewrite Hback by lia. by rewrite decide_False.
      * apply backup_not_active.
      * intros j Hj E. apply backup_inj in E. lia.
Qed.

Lemma retained_rotations w contents hist d :
  1 ≤ maxBackups w → hist ≠ [] → retained w hist d →
  ∃ d', rotations w contents d = Some d' ∧ retained w (rev contents ++ hist) d'.
Proof.
  intros Hmb. revert hist d. induction contents as [|c rest IH]; intros hist d Hne Hret.
  - exists d. by split.
  - destruct (retained_rotate w hist d c Hmb Hne Hret) as (d1 & Hrot & Hret1).
    simpl. rewrite Hrot. simpl.
    destruct (IH (c :: hist) _ ltac:(done) Hret1) as (d' & Hd' & Hret').
    exists d'. split; [done|]. by rewrite <- app_assoc.
Qed.

Lemma size_reaches_content w d content :
  files d !! filePath w = Some content →
  (maxMB w * (1024 * 1024) ≤ Z.of_nat (String.length content))%Z →
  size_reaches (filePath w) (maxMB w) d = true.
Proof.
  intros Hc Hsize. unfold size_reaches, getFileSizeMB, statSync_size. rewrite Hc. simpl.
  apply QArith_base.Qle_bool_iff. unfold QArith_base.Qle. simpl. lia.
Qed.

Lemma shift_drained w i d : shift (drained w) i d = shift w i d.
Proof.
  revert d. induction i as [|i IH]; intros d; [done|].
  rewrite !shift_S.
  change (backup (drained w)) with (backup w).
  destruct (if existsSync (backup w (S i)) d then _ else _); simpl; [apply IH | done].
Qed.

Lemma rotate_drained w d : rotate (drained w) d = rotate w d.
Proof.
  unfold rotate. change (filePath (drained w)) with (filePath w).
  change (maxBackups (drained w)) with (maxBackups w).
  change (backup (drained w)) with (backup w).
  by rewrite shift_drained.
Qed.

Lemma flush_nonempty w d :
  _buffer w ≠ [] →
  flush w d =
  (if size_reaches (filePath w) (maxMB w) d then rotate w d else Some d) ≫= fun d' =>
  Some (drained w, appendFile (filePath w) (JS.join LF (_buffer w) +:+ LF) d').
Proof.
  intros Hne. unfold flush.
  destruct (Nat.eqb_spec (length (_buffer w)) 0) as [Hz|_].
  { by apply length_zero_iff_nil in Hz. }
  fold (drained w). rewrite rotate_drained. done.
Qed.

(** C7. A flush of a non-empty buffer takes the whole buffer as one
    chunk, the lines joined by newlines and ended by one; when the
    active file is at or above the threshold before the append, exactly
    one rotation runs first: backups move one slot up from the highest
    down, the previous occupant of the highest slot being replaced, and
    the active file becomes backup 1, so the chunk starts a new active
    file.  With [maxBackups] at least 1, after [maxBackups + 1] rotations
    from a file without backups exactly [maxBackups] backups exist and
    the first content is gone. *)
Theorem flush_drains_rotates_and_retains (w : t) (d : Disk) :
  _buffer w ≠ [] →
  (∃ d_mid,
     flush w d =
       Some (drained w, appendFile (filePath w) (JS.join LF (_buffer w) +:+ LF) d_mid) ∧
     (size_reaches (filePath w) (maxMB w) d = false → d_mid = d) ∧
     (∀ content,
        files d !! filePath w = Some content →
        (maxMB w * (1024 * 1024) ≤ Z.of_nat (String.length content))%Z →
        rotate w d = Some d_mid ∧
        files d_mid !! filePath w = None ∧
        files d_mid !! backup w 1 = Some content ∧
        (∀ k, 2 ≤ k ≤ maxBackups w - 1 →
           files d_mid !! backup w k = files d !! backup w (k - 1)) ∧
        (2 ≤ maxBackups w →
           files d_mid !! backup w (maxBackups w) =
             match files d !! backup w (maxBackups w - 1) with
             | Some c => Some c
             | None => files d !! backup w (maxBackups w)
             end) ∧
        files (complete (length (in_flight d_mid))
                 (appendFile (filePath w) (JS.join LF (_buffer w) +:+ LF) d_mid))
          !! filePath w = Some (JS.join LF (_buffer w) +:+ LF))) ∧
  (∀ c0 contents,
     1 ≤ maxBackups w →
     files d !! filePath w = Some c0 →
     (∀ k, 1 ≤ k → files d !! backup w k = None) →
     length contents = maxBackups w + 1 →
     ∃ d', rotations w contents d = Some d' ∧
       files d' !! filePath w = rev contents !! 0 ∧
       (∀ k, 1 ≤ k →
          files d' !! backup w k =
            if decide (k ≤ maxBackups w) then rev contents !! k else None) ∧
       (∀ k, 1 ≤ k → (is_Some (files d' !! backup w k) ↔ k ≤ maxBackups w))).
Proof.
  intros Hbuf. split.
  - rewrite flush_nonempty by done.
    destruct (size_reaches (filePath w) (maxMB w) d) eqn:Hsize.
    + unfold size_reaches, statSync_size in Hsize.
      destruct (files d !! filePath w) as [content|] eqn:Hc.
      * destruct (rotate_spec w d content Hc)
          as (dm & Hrot & Hfl & Hnone & Hone & Hmid & Htop & Hframe).
        exists dm. rewrite Hrot. split; [done|]. split; [done|].
        intros content' [= <-] _. repeat split; try done.
        rewrite complete_appended. simpl. rewrite lookup_insert_eq, Hnone. simpl.
        by rewrite string_app_empty.
      * exists d. unfold rotate, existsSync. rewrite Hc. simpl.
        split; [done|]. split; [done|]. intros content' [=].
    + exists d. split; [done|]. split; [done|].
      intros content Hc Hsz. by rewrite (size_reaches_content w d content Hc Hsz) in Hsize.
  - intros c0 contents Hmb Hact Hnob Hlen.
    assert (Hret : retained w [c0] d).
    { split; [done|]. intros k Hk. rewrite Hnob by done.
      destruct k as [|k]; [lia|]. by destruct (decide _). }
    destruct (retained_rotations w contents [c0] d Hmb ltac:(done) Hret)
      as (d' & Hd' & [Hact' Hback']).
    assert (Hrl : length (rev contents) = maxBackups w + 1) by (by rewrite length_rev).
    exists d'. split; [done|]. split; [|split].
    + rewrite Hact'. apply lookup_app_l. lia.
    + intros k Hk. rewrite Hback' by done.
      destruct (decide (k ≤ maxBackups w)); [|done]. apply lookup_app_l. lia.
    + intros k Hk. rewrite Hback' by done.
      destruct (decide (k ≤ maxBackups w)) as [Hle|Hgt].
      * split; [done|]. intros _. rewrite lookup_app_l by lia.
        apply lookup_lt_is_Some. lia.
      * split; [intros [? ?]; done | lia].
Qed.

(** ** Overlapping flushes *)

Lemma flush_keeps_writing w d w' d' :
  flush w d = Some (w', d') → _writing w' = _writing w.
Proof.
  unfold flush. destruct (length (_buffer w) =? 0).
  - by intros [= <- <-].
  - destruct (if size_reaches _ _ d then _ else _); [|done]. simpl. by intros [= <- <-].
Qed.

(** C9. A writer is flushed, takes one more line and is flushed again
    before the first append completes: both appends to the same file
    are then in flight together, and the busy flag was false at every
    step. *)
Theorem second_flush_overlaps_first :
  ∃ w1 d1 w2 d2,
    flush (write "a" (new "logs/app.log" 5 5)) empty_disk = Some (w1, d1) ∧
    _writing w1 = false ∧
    in_flight d1 = [("logs/app.log", "a" +:+ LF)] ∧
    flush (write "b" w1) d1 = Some (w2, d2) ∧
    _writing w2 = false ∧
    in_flight d2 = [("logs/app.log", "a" +:+ LF); ("logs/app.log", "b" +:+ LF)].
Proof. repeat eexists. Qed.

End WriterFacts.

(** ** Alert rules: defaults of [addRule] *)

Section AddRuleFacts.
Import AlertManager.

Lemma addRule_appends opts am :
  ∃ r, _rules (addRule opts am) = _rules am ++ [r] ∧ stored opts am = Some r ∧
       level r = JS.or_str (opt_level opts) "ERROR" ∧
       cooldownMs r = JS.or_num (opt_cooldownMs opts) 60000 ∧
       handler r = opt_handler opts.
Proof.
  eexists. split; [reflexivity|]. split; [|done].
  unfold stored. simpl. by rewrite last_snoc.
Qed.

Lemma addRule_cooldown_never_zero opts am r :
  stored opts am = Some r → cooldownMs r ≠ 0%Z.
Proof.
  destruct (addRule_appends opts am) as (r' & _ & -> & _ & Hcd & _).
  intros [= <-]. rewrite Hcd. unfold JS.or_num.
  destruct (opt_cooldownMs opts) as [n|]; [|done].
  by destruct (Z.eqb_spec n 0).
Qed.

(** C10. An [addRule] call that gives [cooldownMs = 0] stores the default
    of 60000 ms; no call of [addRule] stores a cooldown of 0. *)
Theorem addRule_zero_cooldown_defaults (opts : RuleOpts) (am : t) :
  opt_cooldownMs opts = Some 0%Z →
  (∃ r, _rules (addRule opts am) = _rules am ++ [r] ∧ cooldownMs r = 60000%Z) ∧
  (∀ opts' r', stored opts' am = Some r' → cooldownMs r' ≠ 0%Z).
Proof.
  intros Hzero. split.
  - destruct (addRule_appends opts am) as (r & Hr & _ & _ & Hcd & _).
    exists r. split; [done|]. by rewrite Hcd, Hzero.
  - intros opts' r'. apply addRule_cooldown_never_zero.
Qed.

End AddRuleFacts.

Lemma addRule_zero_cooldown_defaults_witness :
  ∃ r, AlertManager._rules
         (AlertManager.addRule
            {| AlertManager.opt_name := Some "always";
               AlertManager.opt_level := Some "WARN";
               AlertManager.opt_messagePattern := None;
               AlertManager.opt_cooldownMs := Some 0%Z;
               AlertManager.opt_handler := None |} AlertManager.new)
       = [r] ∧ AlertManager.cooldownMs r = 60000%Z.
Proof.
  apply (addRule_zero_cooldown_defaults
           {| AlertManager.opt_name := Some "always";
              AlertManager.opt_level := Some "WARN";
              AlertManager.opt_messagePattern := None;
              AlertManager.opt_cooldownMs := Some 0%Z;
              AlertManager.opt_handler := None |} AlertManager.new).
  reflexivity.
Defined.

(** ** The pipeline: level filter, alert cooldown, child forwarding *)

Section LoggerFacts.
Context `{rt : Runtime}.
Import Logger.

Lemma deref_lookup id w l : heap w !! id = Some l → deref id w = Ok l.
Proof. intros H. unfold deref. by rewrite H. Qed.

Lemma modify_lookup id f w l :
  heap w !! id = Some l → modify id f w = Ok (put id (f l) w).
Proof. intros H. unfold modify. by rewrite (deref_lookup _ _ _ H). Qed.

Lemma lookup_put id l w : id < length (heap w) → heap (put id l w) !! id = Some l.
Proof. intros H. simpl. by apply list_lookup_insert_eq. Qed.

Lemma lookup_put_ne id j l w : id ≠ j → heap (put id l w) !! j = heap w !! j.
Proof. intros H. simpl. by apply list_lookup_insert_ne. Qed.

Lemma put_put id l l' w : put id l' (put id l w) = put id l' w.
Proof. unfold put. simpl. by rewrite list_insert_insert_eq. Qed.

Lemma put_same id l w : heap w !! id = Some l → put id l w = w.
Proof. intros H. unfold put. rewrite list_insert_id by done. by destruct w. Qed.

Lemma lookup_lt id w l : heap w !! id = Some l → id < length (heap w).
Proof. apply lookup_lt_Some. Qed.

Lemma emit_log_no_listeners rec id l e w :
  heap w !! id = Some l → on_log l = [] →
  emit rec id (LogEv e) w = Ok (record (Emitted id (LogEv e)) w).
Proof. intros H Hl. unfold emit. rewrite (deref_lookup _ _ _ H). simpl. by rewrite Hl. Qed.

Lemma emit_alert_no_listeners rec id l rule e w :
  heap w !! id = Some l → on_alert l = [] →
  emit rec id (AlertEv rule e) w = Ok (record (Emitted id (AlertEv rule e)) w).
Proof. intros H Hl. unfold emit. rewrite (deref_lookup _ _ _ H). simpl. by rewrite Hl. Qed.



Lemma evaluate_rule_below rec id e r w :
  AlertManager.below_level e r = true → alerts_evaluate_rule rec id e r w = Ok w.
Proof. intros H. unfold alerts_evaluate_rule, AlertManager.evaluate_rule. by rewrite H. Qed.

Lemma evaluate_rule_pattern rec id e r w :
  AlertManager.pattern_misses e r = true → alerts_evaluate_rule rec id e r w = Ok w.
Proof.
  intros H. unfold alerts_evaluate_rule, AlertManager.evaluate_rule. rewrite H.
  by destruct (AlertManager.below_level e r).
Qed.

Lemma evaluate_rule_cooling rec id e r w lg :
  heap w !! id = Some lg →
  AlertManager.below_level e r = false → AlertManager.pattern_misses e r = false →
  AlertManager.cooling_down (clock (ticks w)) (alerts lg) r = true →
  alerts_evaluate_rule rec id e r w = Ok (tick w).
Proof.
  intros Hlg Hb Hp Hc. unfold alerts_evaluate_rule, AlertManager.evaluate_rule.
  rewrite Hb, Hp. simpl. unfold alerts_self.
  rewrite (deref_lookup id (tick w) lg) by done. simpl. by rewrite Hc.
Qed.

Lemma evaluate_rule_due rec id e r w lg :
  heap w !! id = Some lg →
  AlertManager.below_level e r = false → AlertManager.pattern_misses e r = false →
  AlertManager.cooling_down (clock (ticks w)) (alerts lg) r = false →
  alerts_evaluate_rule rec id e r w =
  rec (Emit id (AlertEv (AlertManager.name r) e))
      (put id (set_alerts (AlertManager.set_cooldown (AlertManager.name r) (clock (ticks w))) lg) (tick w))
  ≫= fun w1 =>
  match AlertManager.handler r with
  | Some h => invoke_handler rec id r h e w1
  | None => Ok w1
  end.
Proof.
  intros Hlg Hb Hp Hc. unfold alerts_evaluate_rule, AlertManager.evaluate_rule.
  rewrite Hb, Hp. simpl. unfold alerts_self.
  rewrite (deref_lookup id (tick w) lg) by done. simpl. rewrite Hc.
  unfold alerts_update. rewrite (modify_lookup id _ (tick w) lg) by done. simpl.
  done.
Qed.



Lemma alerts_self_lookup id w lg :
  heap w !! id = Some lg → alerts_self id w = Ok (alerts lg).
Proof. intros H. unfold alerts_self. by rewrite (deref_lookup _ _ _ H). Qed.

Lemma evaluate_no_rules rec id e w lg :
  heap w !! id = Some lg → AlertManager._rules (alerts lg) = [] → alerts_evaluate rec id e w = Ok w.
Proof.
  intros H Hr. unfold alerts_evaluate, AlertManager.evaluate.
  rewrite (alerts_self_lookup _ _ _ H). simpl. by rewrite Hr.
Qed.


Lemma write_dropped rec id levelName msg meta w lg :
  heap w !! id = Some lg →
  (∀ code, LOG_LEVELS !! levelName = Some code → (code < _level lg)%Z) →
  _write rec id levelName msg meta w = Ok w.
Proof.
  intros H Hlow. unfold _write. rewrite (deref_lookup _ _ _ H). simpl.
  destruct (LOG_LEVELS !! levelName) as [code|]; [|done].
  specialize (Hlow code eq_refl). by destruct (Z.ltb_spec code (_level lg)); [|lia].
Qed.

Lemma write_passes rec id levelName msg meta w lg code :
  heap w !! id = Some lg →
  LOG_LEVELS !! levelName = Some code → (_level lg ≤ code)%Z →
  _write rec id levelName msg meta w =
  alerts_evaluate rec id
    (buildEntry (clock (ticks w)) code levelName msg meta (Some (_context lg)))
    (put id (set_metrics (MetricsCollector.incrementLevel levelName)
               (set_ring (RingBuffer.push
                  (buildEntry (clock (ticks w)) code levelName msg meta (Some (_context lg))))
                  lg)) (tick w))
  ≫= fun w1 =>
  rec (Emit id (LogEv (buildEntry (clock (ticks w)) code levelName msg meta
                         (Some (_context lg))))) w1
  ≫= fun w2 =>
  if _logToFile lg then
    file_output id
      (entryToText (buildEntry (clock (ticks w)) code levelName msg meta
                      (Some (_context lg))) false)
      (entryToJson (buildEntry (clock (ticks w)) code levelName msg meta
                      (Some (_context lg))))
      (40 <=? code)%Z
      (console lg code (buildEntry (clock (ticks w)) code levelName msg meta
                          (Some (_context lg))) w2)
  else Ok (console lg code (buildEntry (clock (ticks w)) code levelName msg meta
                              (Some (_context lg))) w2).
Proof.
  intros H Hc Hle. unfold _write. rewrite (deref_lookup _ _ _ H). simpl.
  rewrite Hc. destruct (Z.ltb_spec code (_level lg)); [lia|]. simpl.
  rewrite (modify_lookup id _ (tick w) lg) by done. simpl.
  rewrite (modify_lookup id _ _ _ (lookup_put id _ (tick w) (lookup_lt _ _ _ H))).
  simpl. rewrite put_put.
  destruct (alerts_evaluate _ _ _ _) as [w1| |]; simpl; [|done..].
  destruct (rec _ w1) as [w2| |]; simpl; [|done..].
  unfold console. by destruct (_logToConsole lg), (40 <=? code)%Z.
Qed.


Lemma heap_tick w : heap (tick w) = heap w.
Proof. reflexivity. Qed.
Lemma heap_record e w : heap (record e w) = heap w.
Proof. reflexivity. Qed.
Lemma heap_console l level entry w : heap (console l level entry w) = heap w.
Proof. unfold console. by destruct (_logToConsole l), (40 <=? level)%Z. Qed.
Lemma heap_alloc l w : heap (alloc l w) = heap w ++ [l].
Proof. reflexivity. Qed.
Lemma heap_put id l w : heap (put id l w) = <[id := l]> (heap w).
Proof. reflexivity. Qed.
Lemma lookup_alloc l w : heap (alloc l w) !! length (heap w) = Some l.
Proof. rewrite heap_alloc. by rewrite lookup_app_r, Nat.sub_diag. Qed.
Lemma lookup_alloc_old l w id : id < length (heap w) → heap (alloc l w) !! id = heap w !! id.
Proof. intros H. rewrite heap_alloc. by rewrite lookup_app_l. Qed.

Lemma new_eq opts w :
  new opts w = (length (heap w), alloc (construct opts (clock (ticks w))) (tick w)).
Proof. reflexivity. Qed.

Lemma file_output_lookup id textLine jsonLine toError w l tw jw ew :
  heap w !! id = Some l →
  _textWriter l = Some tw → _jsonWriter l = Some jw → _errorWriter l = Some ew →
  file_output id textLine jsonLine toError w =
  Ok (put id (set_writers (Some (RotatingFileWriter.write textLine tw))
                (Some (RotatingFileWriter.write jsonLine jw))
                (Some (if toError then RotatingFileWriter.write jsonLine ew else ew)) l) w).
Proof.
  intros H Ht Hj He. unfold file_output, write_files.
  rewrite (deref_lookup _ _ _ H). simpl. rewrite Ht, Hj, He. simpl.
  by destruct toError.
Qed.

Lemma or_nat_positive o d : 1 ≤ d → 1 ≤ JS.or_nat o d.
Proof.
  intros Hd. unfold JS.or_nat. destruct o as [n|]; [|done].
  destruct (Nat.eqb_spec n 0); lia.
Qed.

Lemma ring_first_push (N : nat) (e : Entry.t) :
  1 ≤ N → RingBuffer.toArray (RingBuffer.push e (RingBuffer.new N)) = [e].
Proof.
  intros HN. apply (ring_inv_toArray N).
  pose proof (ring_inv_push N _ [] e HN (ring_inv_new N HN)) as H.
  simpl in H. by destruct N; [lia|].
Qed.

Lemma LOG_LEVELS_DEBUG : LOG_LEVELS !! "DEBUG" = Some 10%Z.
Proof. reflexivity. Qed.
Lemma LOG_LEVELS_WARN : LOG_LEVELS !! "WARN" = Some 30%Z.
Proof. reflexivity. Qed.


(** A write that passes the level gate on a logger without rules and
    without listeners. *)
Lemma write_plain fuel id levelName msg meta w lg code :
  heap w !! id = Some lg →
  LOG_LEVELS !! levelName = Some code → (_level lg ≤ code)%Z →
  AlertManager._rules (alerts lg) = [] → on_log lg = [] →
  writers_present lg →
  exec (S (S fuel)) (Write id levelName msg meta) w =
  Ok (put id
        (logged levelName (40 <=? code)%Z
           (buildEntry (clock (ticks w)) code levelName msg meta (Some (_context lg))) lg)
        (console lg code
           (buildEntry (clock (ticks w)) code levelName msg meta (Some (_context lg)))
           (record (Emitted id (LogEv
              (buildEntry (clock (ticks w)) code levelName msg meta (Some (_context lg)))))
              (tick w)))).
Proof.
  intros Hlg Hcode Hle Hrules Hlisten Hwr.
  change (exec (S (S fuel)) (Write id levelName msg meta) w)
    with (_write (exec (S fuel)) id levelName msg meta w).
  rewrite (write_passes _ _ _ _ _ _ lg code Hlg Hcode Hle).
  set (entry := buildEntry (clock (ticks w)) code levelName msg meta (Some (_context lg))).
  set (lgA := set_metrics (MetricsCollector.incrementLevel levelName)
                (set_ring (RingBuffer.push entry) lg)).
  assert (Hlt : id < length (heap w)) by (by eapply lookup_lt).
  assert (HA : heap (put id lgA (tick w)) !! id = Some lgA) by (by apply lookup_put).
  rewrite (evaluate_no_rules _ _ _ _ lgA HA Hrules).
  cbn [mbind res_bind].
  change (exec (S fuel) (Emit id (LogEv entry)) (put id lgA (tick w)))
    with (emit (exec fuel) id (LogEv entry) (put id lgA (tick w))).
  rewrite (emit_log_no_listeners _ _ lgA _ _ HA Hlisten).
  cbn [mbind res_bind].
  assert (Hcomm : console lg code entry (record (Emitted id (LogEv entry)) (put id lgA (tick w)))
                  = put id lgA (console lg code entry (record (Emitted id (LogEv entry)) (tick w)))).
  { unfold console. by destruct (_logToConsole lg), (40 <=? code)%Z. }
  rewrite Hcomm. unfold logged, with_files. fold entry. fold lgA.
  change (_logToFile lgA) with (_logToFile lg).
  destruct (_logToFile lg) eqn:Hfile; [|done].
  destruct (Hwr Hfile) as ([tw Htw] & [jw Hjw] & [ew Hew]).
  rewrite (file_output_lookup id _ _ _ _ lgA tw jw ew); try done.
  - rewrite put_put. f_equal. f_equal.
    change (_textWriter lgA) with (_textWriter lg).
    change (_jsonWriter lgA) with (_jsonWriter lg).
    change (_errorWriter lgA) with (_errorWriter lg).
    rewrite Htw, Hjw, Hew. simpl. by destruct (40 <=? code)%Z.
  - apply lookup_put. by rewrite heap_console, heap_record.
Qed.

Lemma construct_writers_present opts now : writers_present (construct opts now).
Proof. intros H. simpl in *. rewrite H. repeat split; eauto. Qed.

(** C2. A write whose level is below the logger's minimum level leaves
    the whole world as it was: ring buffer, counters, cooldowns, writer
    buffers, clock and trace.  On a new logger with minimum level WARN
    and file output, [debug("a")] then [warn("b")] leave exactly one
    entry, the WARN one, in the ring buffer, in the counters and in the
    text and structured writers, and none in the errors-only writer. *)
Theorem write_below_level_is_dropped (fuel id : nat) (levelName msg : string)
    (meta : option Meta) (w : World) (lg : Logger.t) (code : Z) :
  heap w !! id = Some lg →
  LOG_LEVELS !! levelName = Some code →
  (code < _level lg)%Z →
  exec (S fuel) (Write id levelName msg meta) w = Ok w ∧
  (∀ opts w0,
     opt_level opts = Some 30%Z → opt_file opts ≠ Some false →
     ∃ entry w3 lg3,
       debug (S (S fuel)) (new opts w0).1 "a" None (new opts w0).2 = Ok (new opts w0).2 ∧
       warn (S (S fuel)) (new opts w0).1 "b" None (new opts w0).2 = Ok w3 ∧
       heap w3 !! (new opts w0).1 = Some lg3 ∧
       RingBuffer.toArray (_ring lg3) = [entry] ∧
       Entry.level entry = "WARN" ∧ Entry.message entry = "b" ∧
       MetricsCollector._counts (metrics lg3)
         = <["WARN" := 1%Z]> ((fun _ => 0%Z) <$> LOG_LEVELS) ∧
       RotatingFileWriter._buffer <$> _textWriter lg3 = Some [entryToText entry false] ∧
       RotatingFileWriter._buffer <$> _jsonWriter lg3 = Some [entryToJson entry] ∧
       RotatingFileWriter._buffer <$> _errorWriter lg3 = Some []).
Proof.
  intros Hlg Hcode Hlow. split.
  - simpl. apply (write_dropped _ _ _ _ _ _ lg); [done|].
    intros c Hc. congruence.
  - clear. intros opts w0 Hlevel Hfile. rewrite new_eq. simpl fst. simpl snd.
    set (id := length (heap w0)).
    remember (construct opts (clock (ticks w0))) as lg0 eqn:Hlg0.
    set (w1 := alloc lg0 (tick w0)).
    assert (H1 : heap w1 !! id = Some lg0) by apply (lookup_alloc lg0 (tick w0)).
    assert (Hl0 : _level lg0 = 30%Z) by (subst lg0; simpl; by rewrite Hlevel).
    assert (Hf0 : _logToFile lg0 = true).
    { subst lg0. simpl. by destruct (opt_file opts) as [[|]|]. }
    assert (Hwr : writers_present lg0) by (subst lg0; apply construct_writers_present).
    assert (Hplain := write_plain fuel id "WARN" "b" None w1 lg0 30%Z H1 LOG_LEVELS_WARN
                        ltac:(lia) ltac:(by subst lg0) ltac:(by subst lg0) Hwr).
    set (entry := buildEntry (clock (ticks w1)) 30 "WARN" "b" None (Some (_context lg0))) in *.
    exists entry. eexists. eexists. split; [|split; [exact Hplain|split]].
    + unfold debug. apply (write_dropped _ _ _ _ _ _ lg0); [done|].
      intros c. rewrite LOG_LEVELS_DEBUG. intros [= <-]. lia.
    + apply lookup_put. rewrite heap_console, heap_record. by eapply lookup_lt.
    + unfold logged, with_files.
      change (_logToFile (set_metrics _ (set_ring _ lg0))) with (_logToFile lg0).
      rewrite Hf0.
      cbn [_ring set_writers set_metrics set_ring metrics _textWriter _jsonWriter _errorWriter].
      assert (Hfile' : JS.defined_or (opt_file opts) true = true)
        by (by destruct (opt_file opts) as [[|]|]).
      repeat split.
      * subst lg0. apply ring_first_push, or_nat_positive. lia.
      * subst lg0. unfold MetricsCollector.incrementLevel. simpl.
        rewrite lookup_fmap, LOG_LEVELS_WARN. done.
      * subst lg0. simpl. by rewrite Hfile'.
      * subst lg0. simpl. by rewrite Hfile'.
      * subst lg0. simpl. by rewrite Hfile'.
Qed.


(** *** Alert cooldown *)



Lemma trace_tick w : trace (tick w) = trace w.
Proof. reflexivity. Qed.
Lemma trace_put id l w : trace (put id l w) = trace w.
Proof. reflexivity. Qed.
Lemma trace_record e w : trace (record e w) = trace w ++ [e].
Proof. reflexivity. Qed.
Lemma ticks_tick w : ticks (tick w) = S (ticks w).
Proof. reflexivity. Qed.
Lemma ticks_put id l w : ticks (put id l w) = ticks w.
Proof. reflexivity. Qed.

Lemma trace_console l level entry w :
  trace (console l level entry w) = trace w ++ console_effects l level entry.
Proof.
  unfold console, console_effects.
  destruct (_logToConsole l), (40 <=? level)%Z; simpl; by rewrite ?app_nil_r.
Qed.


Lemma or_num_zero x : JS.or_num (Some x) 0 = x.
Proof. unfold JS.or_num. by destruct (Z.eqb_spec x 0). Qed.

Lemma evaluate_rule_fires fuel id e r w lg :
  heap w !! id = Some lg → on_alert lg = [] → AlertManager.handler r = None →
  AlertManager.below_level e r = false → AlertManager.pattern_misses e r = false →
  AlertManager.cooling_down (clock (ticks w)) (alerts lg) r = false →
  evaluate_rule (S fuel) id e r w =
  Ok (record (Emitted id (AlertEv (AlertManager.name r) e))
        (put id (set_alerts (AlertManager.set_cooldown (AlertManager.name r)
                               (clock (ticks w))) lg) (tick w))).
Proof.
  intros Hlg Hl Hh Hb Hp Hc. unfold evaluate_rule.
  rewrite (evaluate_rule_due _ _ _ _ _ lg Hlg Hb Hp Hc). rewrite Hh.
  change (exec (S fuel) (Emit id (AlertEv (AlertManager.name r) e)) ?w')
    with (emit (exec fuel) id (AlertEv (AlertManager.name r) e) w').
  rewrite (emit_alert_no_listeners _ _
             (set_alerts (AlertManager.set_cooldown (AlertManager.name r)
                            (clock (ticks w))) lg)); [done | | exact Hl].
  apply lookup_put. by eapply lookup_lt.
Qed.


Lemma cooling_after_firing now last am r :
  AlertManager._cooldowns am !! AlertManager.name r = Some last →
  AlertManager.cooling_down now am r = (now - last <? AlertManager.cooldownMs r)%Z.
Proof.
  intros H. unfold AlertManager.cooling_down, Dict.get. by rewrite H, or_num_zero.
Qed.


Lemma cooling_inherited now am r member :
  AlertManager._cooldowns am !! AlertManager.name r = None →
  Dict.Object_prototype !! AlertManager.name r = Some member →
  AlertManager.cooling_down now am r = false.
Proof. intros H Hp. unfold AlertManager.cooling_down, Dict.get. by rewrite H, Hp. Qed.

Lemma dict_set_lookup {V : Type} k (v : V) o :
  k ≠ "__proto__" ∨ is_Some (o !! k) → Dict.set k v o !! k = Some v.
Proof.
  intros Hk. unfold Dict.set. destruct (o !! k) eqn:Ho.
  - by rewrite lookup_insert_eq.
  - destruct Hk as [Hk|[? ?]]; [|done].
    destruct (String.eqb_spec k "__proto__"); [done|]. by rewrite lookup_insert_eq.
Qed.

Lemma dict_set_lookup_ne {V : Type} k j (v : V) o : k ≠ j → Dict.set k v o !! j = o !! j.
Proof.
  intros Hne. unfold Dict.set.
  destruct (o !! k); [by rewrite lookup_insert_ne|].
  destruct (String.eqb k "__proto__"); [done|]. by rewrite lookup_insert_ne.
Qed.

Lemma dict_set_proto {V : Type} (v : V) o :
  o !! "__proto__" = None → Dict.set "__proto__" v o = o.
Proof. intros H. unfold Dict.set. by rewrite H. Qed.



Lemma logged_fields levelName toError entry lg :
  _level (logged levelName toError entry lg) = _level lg ∧
  _context (logged levelName toError entry lg) = _context lg ∧
  alerts (logged levelName toError entry lg) = alerts lg ∧
  on_log (logged levelName toError entry lg) = on_log lg ∧
  _ring (logged levelName toError entry lg) = RingBuffer.push entry (_ring lg) ∧
  metrics (logged levelName toError entry lg)
    = MetricsCollector.incrementLevel levelName (metrics lg).
Proof. unfold logged, with_files. by destruct (_logToFile _). Qed.

Lemma writers_present_logged levelName toError entry lg :
  writers_present lg → writers_present (logged levelName toError entry lg).
Proof.
  intros Hwr. unfold logged, with_files, writers_present.
  change (_logToFile (set_metrics _ (set_ring _ lg))) with (_logToFile lg).
  destruct (_logToFile lg) eqn:Hf; [|done]. intros _.
  destruct (Hwr Hf) as ([tw Htw] & [jw Hjw] & [ew Hew]). simpl.
  rewrite Htw, Hjw, Hew. destruct toError; repeat split; eexists; reflexivity.
Qed.







(** *** Rules with an unrecognised level *)



(** *** Child loggers *)

Lemma set_alerts_same (l : Logger.t) : set_alerts (fun _ => alerts l) l = l.
Proof. by destruct l. Qed.

(** Rules without handlers on a logger without ["alert"] listeners:
    evaluation only touches the manager of that logger, the clock and
    the trace. *)
Lemma or_str_or_str o d : d ≠ "" → JS.or_str (Some (JS.or_str o d)) d = JS.or_str o d.
Proof.
  intros Hd. unfold JS.or_str. destruct o as [s|].
  - destruct (String.eqb_spec s ""); [by destruct (String.eqb_spec d "")|].
    by destruct (String.eqb_spec s "").
  - by destruct (String.eqb_spec d "").
Qed.

Lemma child_eq p ctx extra w0 lp :
  heap w0 !! p = Some lp →
  child p ctx extra w0 =
  Ok (length (heap w0),
      put p (set_children (fun cs => cs ++ [length (heap w0)]) lp)
        (put (length (heap w0))
           (set_on_log (fun ls => ls ++ [Forward p])
              (construct (child_opts ctx extra lp) (clock (ticks w0))))
           (alloc (construct (child_opts ctx extra lp) (clock (ticks w0))) (tick w0)))).
Proof.
  intros Hlp. unfold child. rewrite (deref_lookup _ _ _ Hlp). cbn [mbind res_bind].
  fold (child_opts ctx extra lp). rewrite new_eq.
  assert (Hlt : p < length (heap w0)) by (by eapply lookup_lt).
  cbv beta iota.
  rewrite (modify_lookup _ _ _ _ (lookup_alloc _ (tick w0))). cbn [mbind res_bind].
  erewrite modify_lookup; [done|].
  rewrite lookup_put_ne; [by rewrite lookup_alloc_old |].
  change (length (heap w0) ≠ p). lia.
Qed.


Lemma world_eq (w : World) : w = {| heap := heap w; ticks := ticks w; trace := trace w |}.
Proof. by destruct w. Qed.

Lemma emit_alert_quiet rec id l rule e w :
  heap w !! id = Some l →
  Forall (fun a : AlertListener => ∀ rule, silent (a rule)) (on_alert l) →
  emit rec id (AlertEv rule e) w = Ok (record (Emitted id (AlertEv rule e)) w).
Proof.
  intros H Hq. unfold emit. rewrite (deref_lookup _ _ _ H). cbn [mbind res_bind].
  generalize (record (Emitted id (AlertEv rule e)) w).
  induction Hq as [|a ls Ha _ IH]; intros w'; [done|].
  cbn [forEach]. rewrite (Ha rule e). cbn [run_script forEach mbind res_bind]. apply IH.
Qed.

(** One rule on a logger whose alert callbacks do not log. *)
Lemma evaluate_rule_quiet fuel id e r w lg :
  heap w !! id = Some lg →
  Forall (fun a : AlertListener => ∀ rule, silent (a rule)) (on_alert lg) →
  (∀ h, AlertManager.handler r = Some h → silent h) →
  ∃ am' tr k,
    alerts_evaluate_rule (exec (S fuel)) id e r w =
      Ok {| heap := <[id := set_alerts (fun _ => am') lg]> (heap w);
            ticks := k + ticks w;
            trace := trace w ++ tr |} ∧
    AlertManager._rules am' = AlertManager._rules (alerts lg) ∧
    Forall (alert_effect id) tr ∧
    (AlertManager.below_level e r = false → AlertManager.pattern_misses e r = false →
     AlertManager.cooling_down (clock (ticks w)) (alerts lg) r = false →
     ∃ tr', tr = Emitted id (AlertEv (AlertManager.name r) e) :: tr').
Proof.
  intros Hlg Hla Hh.
  assert (Hsame : ∀ k, Ok {| heap := heap w; ticks := k; trace := trace w |} =
            Ok {| heap := <[id := set_alerts (fun _ => alerts lg) lg]> (heap w);
                  ticks := k; trace := trace w ++ [] |} :> res World).
  { intros k. by rewrite set_alerts_same, list_insert_id, app_nil_r. }
  destruct (AlertManager.below_level e r) eqn:Hb.
  { exists (alerts lg), [], 0. rewrite evaluate_rule_below by done.
    rewrite (world_eq w) at 1. rewrite Hsame. by repeat split. }
  destruct (AlertManager.pattern_misses e r) eqn:Hp.
  { exists (alerts lg), [], 0. rewrite evaluate_rule_pattern by done.
    rewrite (world_eq w) at 1. rewrite Hsame. by repeat split. }
  destruct (AlertManager.cooling_down (clock (ticks w)) (alerts lg) r) eqn:Hc.
  { exists (alerts lg), [], 1. rewrite (evaluate_rule_cooling _ _ _ _ _ lg) by done.
    rewrite (world_eq (tick w)). rewrite heap_tick, trace_tick, ticks_tick, Hsame.
    by repeat split. }
  set (am' := AlertManager.set_cooldown (AlertManager.name r) (clock (ticks w)) (alerts lg)).
  assert (Hlt : id < length (heap w)) by (by eapply lookup_lt).
  rewrite (evaluate_rule_due _ _ _ _ _ lg Hlg Hb Hp Hc).
  change (exec (S fuel) (Emit id (AlertEv (AlertManager.name r) e)) ?w')
    with (emit (exec fuel) id (AlertEv (AlertManager.name r) e) w').
  rewrite (emit_alert_quiet _ _ (set_alerts (AlertManager.set_cooldown (AlertManager.name r)
                                               (clock (ticks w))) lg));
    [|by apply lookup_put|done].
  cbn [mbind res_bind].
  destruct (AlertManager.handler r) as [h|] eqn:Hhr.
  - exists am', [Emitted id (AlertEv (AlertManager.name r) e);
                 Handled id (AlertManager.name r) e], 1.
    unfold invoke_handler. rewrite (Hh h eq_refl e). cbn [run_script forEach].
    split; [|split; [done|split]].
    + f_equal. unfold record, put, tick. simpl. f_equal. by rewrite <- app_assoc.
    + repeat constructor.
    + intros _ _ _. by eexists.
  - exists am', [Emitted id (AlertEv (AlertManager.name r) e)], 1.
    split; [|split; [done|split]].
    + done.
    + repeat constructor.
    + intros _ _ _. by eexists.
Qed.

(** The rules [rs] on a logger whose alert callbacks do not log: only
    the manager of that logger, the clock and the trace change. *)
Lemma forEach_quiet fuel id e rs :
  ∀ w lg,
    heap w !! id = Some lg →
    Forall (fun a : AlertListener => ∀ rule, silent (a rule)) (on_alert lg) →
    Forall (fun r => ∀ h, AlertManager.handler r = Some h → silent h) rs →
    ∃ am' tr k,
      forEach (alerts_evaluate_rule (exec (S fuel)) id e) rs w =
        Ok {| heap := <[id := set_alerts (fun _ => am') lg]> (heap w);
              ticks := k + ticks w;
              trace := trace w ++ tr |} ∧
      AlertManager._rules am' = AlertManager._rules (alerts lg) ∧
      Forall (alert_effect id) tr ∧
      (rs = [] → tr = [] ∧ k = 0 ∧ am' = alerts lg) ∧
      (∀ r rest, rs = r :: rest →
         AlertManager.below_level e r = false → AlertManager.pattern_misses e r = false →
         AlertManager.cooling_down (clock (ticks w)) (alerts lg) r = false →
         ∃ tr', tr = Emitted id (AlertEv (AlertManager.name r) e) :: tr').
Proof.
  induction rs as [|r rs IH]; intros w lg Hlg Hla Hall.
  - exists (alerts lg), [], 0. cbn [forEach].
    rewrite set_alerts_same, list_insert_id, app_nil_r by done.
    split; [by rewrite (world_eq w) at 1|]. by repeat split.
  - apply Forall_cons in Hall as [Hh Hall]. cbn [forEach].
    destruct (evaluate_rule_quiet fuel id e r w lg Hlg Hla Hh)
      as (am1 & tr1 & k1 & -> & Hr1 & Htr1 & Hfirst).
    cbn [mbind res_bind].
    assert (Hlt : id < length (heap w)) by (by eapply lookup_lt).
    destruct (IH {| heap := <[id := set_alerts (fun _ => am1) lg]> (heap w);
                    ticks := k1 + ticks w; trace := trace w ++ tr1 |}
                (set_alerts (fun _ => am1) lg)) as (am' & tr & k & -> & Hr' & Htr & _);
      [by apply list_lookup_insert_eq | done | done |].
    exists am', (tr1 ++ tr), (k + k1). simpl. split; [|split; [|split; [|split]]].
    + f_equal. f_equal; [by rewrite list_insert_insert_eq | lia | by rewrite app_assoc].
    + by rewrite Hr'.
    + by apply Forall_app.
    + done.
    + intros r' rest [= <- <-] Hb Hp Hc.
      destruct (Hfirst Hb Hp Hc) as [tr' ->]. by eexists.
Qed.

Lemma evaluate_quiet fuel id e w lg :
  heap w !! id = Some lg → quiet lg →
  ∃ am' tr k,
    evaluate (S fuel) id e w =
      Ok {| heap := <[id := set_alerts (fun _ => am') lg]> (heap w);
            ticks := k + ticks w;
            trace := trace w ++ tr |} ∧
    AlertManager._rules am' = AlertManager._rules (alerts lg) ∧
    Forall (alert_effect id) tr ∧
    (AlertManager._rules (alerts lg) = [] → tr = [] ∧ k = 0 ∧ am' = alerts lg) ∧
    (∀ r rest, AlertManager._rules (alerts lg) = r :: rest →
       AlertManager.below_level e r = false → AlertManager.pattern_misses e r = false →
       AlertManager.cooling_down (clock (ticks w)) (alerts lg) r = false →
       ∃ tr', tr = Emitted id (AlertEv (AlertManager.name r) e) :: tr').
Proof.
  intros Hlg [Hh Hla _]. unfold evaluate, alerts_evaluate, AlertManager.evaluate.
  rewrite (alerts_self_lookup _ _ _ Hlg). cbn [mbind res_bind].
  by apply forEach_quiet.
Qed.

(** A notification of ["log"] on a logger whose own listeners do not
    log: it is recorded, and passed to each parent in turn. *)
Lemma emit_log_forwards rec id l entry w :
  heap w !! id = Some l →
  Forall (fun ls => match ls with OnLog cb => silent cb | Forward _ => True end) (on_log l) →
  emit rec id (LogEv entry) w =
  forEach (fun p w => forward rec p entry w) (forwards l)
    (record (Emitted id (LogEv entry)) w).
Proof.
  intros H Hq. unfold emit, forwards. rewrite (deref_lookup _ _ _ H). cbn [mbind res_bind].
  generalize (record (Emitted id (LogEv entry)) w).
  induction Hq as [|[p|cb] ls Hcb _ IH]; intros w'; [done| |].
  - cbn [forEach omap]. simpl. destruct (forward rec p entry w'); [apply IH | done..].
  - cbn [forEach]. simpl. rewrite (Hcb entry). cbn [run_script forEach mbind res_bind].
    apply IH.
Qed.

Lemma received_fields am' entry l :
  _ring (received am' entry l) = RingBuffer.push entry (_ring l) ∧
  metrics (received am' entry l)
    = MetricsCollector.incrementLevel (Entry.level entry) (metrics l) ∧
  alerts (received am' entry l) = am' ∧
  on_log (received am' entry l) = on_log l ∧
  on_alert (received am' entry l) = on_alert l ∧
  _logToFile (received am' entry l) = _logToFile l ∧
  _context (received am' entry l) = _context l ∧
  _level (received am' entry l) = _level l ∧
  _logToConsole (received am' entry l) = _logToConsole l ∧
  _useColor (received am' entry l) = _useColor l.
Proof.
  unfold received, with_files.
  change (_logToFile (set_alerts _ (set_metrics _ (set_ring _ l)))) with (_logToFile l).
  by destruct (_logToFile l) eqn:Hf.
Qed.

Lemma received_buffers am' entry l :
  writers_present l →
  writers_present (received am' entry l) ∧
  RotatingFileWriter._buffer <$> _textWriter (received am' entry l) =
    (fun b => if _logToFile l then b ++ [entryToText entry false] else b)
      <$> (RotatingFileWriter._buffer <$> _textWriter l) ∧
  RotatingFileWriter._buffer <$> _jsonWriter (received am' entry l) =
    (fun b => if _logToFile l then b ++ [entryToJson entry] else b)
      <$> (RotatingFileWriter._buffer <$> _jsonWriter l) ∧
  RotatingFileWriter._buffer <$> _errorWriter (received am' entry l) =
    (fun b => if _logToFile l &&
                 JS.ge (LOG_LEVELS !! Entry.level entry) (LOG_LEVELS !! "ERROR")
              then b ++ [entryToJson entry] else b)
      <$> (RotatingFileWriter._buffer <$> _errorWriter l).
Proof.
  intros Hwr. unfold received, with_files, writers_present.
  change (_logToFile (set_alerts _ (set_metrics _ (set_ring _ l)))) with (_logToFile l).
  destruct (_logToFile l) eqn:Hf.
  - destruct (Hwr Hf) as ([tw Htw] & [jw Hjw] & [ew Hew]). simpl.
    rewrite Htw, Hjw, Hew. simpl.
    destruct (JS.ge _ _); simpl; repeat split; try done; eexists; reflexivity.
  - simpl. rewrite Hf. split; [done|].
    by destruct (_textWriter l), (_jsonWriter l), (_errorWriter l).
Qed.

Lemma quiet_same l l' :
  AlertManager._rules (alerts l') = AlertManager._rules (alerts l) →
  on_alert l' = on_alert l → on_log l' = on_log l → quiet l → quiet l'.
Proof. intros Hr Ha Hl [H1 H2 H3]. split; by rewrite ?Hr, ?Ha, ?Hl. Qed.

(** The forwarding listener on a logger whose callbacks do not log, up
    to what the loggers it forwards to do in their turn. *)
Lemma forward_quiet f p entry w lp :
  heap w !! p = Some lp → quiet lp → writers_present lp →
  ∃ am' tr k,
    AlertManager._rules am' = AlertManager._rules (alerts lp) ∧
    Forall (alert_effect p) tr ∧
    (AlertManager._rules (alerts lp) = [] → tr = [] ∧ k = 0) ∧
    (∀ r rest, AlertManager._rules (alerts lp) = r :: rest →
       AlertManager.below_level entry r = false →
       AlertManager.pattern_misses entry r = false →
       AlertManager.cooling_down (clock (ticks w)) (alerts lp) r = false →
       ∃ tr', tr = Emitted p (AlertEv (AlertManager.name r) entry) :: tr') ∧
    evaluate (S f) p entry
      (put p (set_metrics (MetricsCollector.incrementLevel (Entry.level entry))
                (set_ring (RingBuffer.push entry) lp)) w) =
      Ok {| heap := <[p := set_alerts (fun _ => am')
                            (set_metrics (MetricsCollector.incrementLevel (Entry.level entry))
                               (set_ring (RingBuffer.push entry) lp))]> (heap w);
            ticks := k + ticks w;
            trace := trace w ++ tr |} ∧
    ∀ w2,
      forEach (fun q w => forward (exec f) q entry w) (forwards lp)
        {| heap := <[p := set_alerts (fun _ => am')
                             (set_metrics (MetricsCollector.incrementLevel (Entry.level entry))
                                (set_ring (RingBuffer.push entry) lp))]> (heap w);
           ticks := k + ticks w;
           trace := trace w ++ tr ++ [Emitted p (LogEv entry)] |} = Ok w2 →
      heap w2 !! p = Some (set_alerts (fun _ => am')
                             (set_metrics (MetricsCollector.incrementLevel (Entry.level entry))
                                (set_ring (RingBuffer.push entry) lp))) →
      forward (exec (S f)) p entry w = Ok (put p (received am' entry lp) w2).
Proof.
  intros Hlp Hq Hwr.
  set (lpM := set_metrics (MetricsCollector.incrementLevel (Entry.level entry))
                (set_ring (RingBuffer.push entry) lp)).
  assert (Hlt : p < length (heap w)) by (by eapply lookup_lt).
  assert (HM : heap (put p lpM w) !! p = Some lpM) by (by apply lookup_put).
  assert (HqM : quiet lpM) by (by apply (quiet_same lp)).
  destruct (evaluate_quiet f p entry (put p lpM w) lpM HM HqM)
    as (am' & tr & k & Heval & Hrules & Htr & Hnone & Hfirst).
  exists am', tr, k. split; [done|]. split; [done|]. split.
  { intros Hr. destruct (Hnone Hr) as (? & ? & _). done. }
  split.
  { intros r rest Hr. apply (Hfirst r rest Hr). }
  split.
  { fold lpM. rewrite Heval. unfold put. simpl. by rewrite list_insert_insert_eq. }
  intros w2 Hparents H2.
  unfold forward.
  rewrite (modify_lookup _ _ _ _ Hlp). cbn [mbind res_bind].
  rewrite (modify_lookup _ _ _ _ (lookup_put p _ w Hlt)). cbn [mbind res_bind].
  rewrite put_put. fold lpM.
  change (alerts_evaluate (exec (S f)) p entry (put p lpM w))
    with (evaluate (S f) p entry (put p lpM w)).
  rewrite Heval. cbn [mbind res_bind].
  set (lpE := set_alerts (fun _ => am') lpM) in *.
  set (wE := {| heap := <[p := lpE]> (heap (put p lpM w));
                ticks := k + ticks (put p lpM w);
                trace := trace (put p lpM w) ++ tr |}).
  assert (HE : heap wE !! p = Some lpE).
  { unfold wE. simpl. apply list_lookup_insert_eq. by rewrite length_insert. }
  change (exec (S f) (Emit p (LogEv entry)) wE)
    with (emit (exec f) p (LogEv entry) wE).
  rewrite (emit_log_forwards _ _ lpE _ _ HE) by (by destruct Hq).
  change (forwards lpE) with (forwards lp).
  assert (Hrec : record (Emitted p (LogEv entry)) wE =
                 {| heap := <[p := lpE]> (heap w); ticks := k + ticks w;
                    trace := trace w ++ tr ++ [Emitted p (LogEv entry)] |}).
  { unfold record, wE, put. simpl. by rewrite list_insert_insert_eq, <- app_assoc. }
  rewrite Hrec, Hparents. cbn [mbind res_bind].
  rewrite (deref_lookup p w2 lpE H2). cbn [mbind res_bind].
  unfold received. fold lpM lpE. unfold with_files.
  change (_logToFile lpE) with (_logToFile lp).
  destruct (_logToFile lp) eqn:Hfile.
  - destruct (Hwr Hfile) as ([tw Htw] & [jw Hjw] & [ew Hew]).
    rewrite (file_output_lookup p _ _ _ _ lpE tw jw ew); try done.
    change (_textWriter lpE) with (_textWriter lp).
    change (_jsonWriter lpE) with (_jsonWriter lp).
    change (_errorWriter lpE) with (_errorWriter lp).
    rewrite Htw, Hjw, Hew. simpl. by destruct (JS.ge _ _).
  - by rewrite put_same.
Qed.

(** The forwarding listener on a logger that forwards to no one. *)
Lemma forward_root f p entry w lp :
  heap w !! p = Some lp → quiet lp → forwards lp = [] → writers_present lp →
  ∃ am' tr k,
    forward (exec (S f)) p entry w =
      Ok {| heap := <[p := received am' entry lp]> (heap w);
            ticks := k + ticks w;
            trace := trace w ++ tr ++ [Emitted p (LogEv entry)] |} ∧
    AlertManager._rules am' = AlertManager._rules (alerts lp) ∧
    Forall (alert_effect p) tr ∧
    (AlertManager._rules (alerts lp) = [] → tr = [] ∧ k = 0) ∧
    (∀ r rest, AlertManager._rules (alerts lp) = r :: rest →
       AlertManager.below_level entry r = false →
       AlertManager.pattern_misses entry r = false →
       AlertManager.cooling_down (clock (ticks w)) (alerts lp) r = false →
       ∃ tr', tr = Emitted p (AlertEv (AlertManager.name r) entry) :: tr') ∧
    evaluate (S f) p entry
      (put p (set_metrics (MetricsCollector.incrementLevel (Entry.level entry))
                (set_ring (RingBuffer.push entry) lp)) w) =
      Ok {| heap := <[p := set_alerts (fun _ => am')
                            (set_metrics (MetricsCollector.incrementLevel (Entry.level entry))
                               (set_ring (RingBuffer.push entry) lp))]> (heap w);
            ticks := k + ticks w;
            trace := trace w ++ tr |}.
Proof.
  intros Hlp Hq Hfw Hwr.
  assert (Hlt : p < length (heap w)) by (by eapply lookup_lt).
  destruct (forward_quiet f p entry w lp Hlp Hq Hwr)
    as (am' & tr & k & Hrules & Htr & Hnone & Hfirst & Heval & Hrun).
  exists am', tr, k. split; [|done].
  rewrite Hfw in Hrun. erewrite Hrun; [|reflexivity|by apply list_lookup_insert_eq].
  f_equal. unfold put. simpl. by rewrite list_insert_insert_eq.
Qed.

(** A write, on a logger without file output whose callbacks do not
    log, up to what the loggers it forwards to do. *)
Lemma write_quiet f c levelName msg meta w lc code :
  heap w !! c = Some lc → quiet lc → _logToFile lc = false →
  LOG_LEVELS !! levelName = Some code → (_level lc ≤ code)%Z →
  ∃ am' tr k,
    AlertManager._rules am' = AlertManager._rules (alerts lc) ∧
    Forall (alert_effect c) tr ∧
    (AlertManager._rules (alerts lc) = [] → tr = [] ∧ k = 0) ∧
    exec (S (S f)) (Write c levelName msg meta) w =
      forEach (fun q wq =>
                 forward (exec f) q
                   (buildEntry (clock (ticks w)) code levelName msg meta (Some (_context lc)))
                   wq)
        (forwards lc)
        {| heap :=
             <[c := set_alerts (fun _ => am')
                      (set_metrics (MetricsCollector.incrementLevel levelName)
                         (set_ring (RingBuffer.push
                            (buildEntry (clock (ticks w)) code levelName msg meta
                               (Some (_context lc)))) lc))]> (heap w);
           ticks := k + S (ticks w);
           trace := trace w ++ tr ++
             [Emitted c (LogEv (buildEntry (clock (ticks w)) code levelName msg meta
                                  (Some (_context lc))))] |}
      ≫= fun w2 =>
      Ok (console lc code
            (buildEntry (clock (ticks w)) code levelName msg meta (Some (_context lc))) w2).
Proof.
  intros Hlc Hq Hfile Hcode Hle.
  set (entry := buildEntry (clock (ticks w)) code levelName msg meta (Some (_context lc))).
  set (lcA := set_metrics (MetricsCollector.incrementLevel levelName)
                (set_ring (RingBuffer.push entry) lc)).
  assert (Hlt : c < length (heap w)) by (by eapply lookup_lt).
  assert (HA : heap (put c lcA (tick w)) !! c = Some lcA)
    by (apply lookup_put; by rewrite heap_tick).
  assert (HqA : quiet lcA) by (by apply (quiet_same lc)).
  destruct (evaluate_quiet f c entry (put c lcA (tick w)) lcA HA HqA)
    as (am' & tr & k & Heval & Hrules & Htr & Hnone & _).
  exists am', tr, k. split; [done|]. split; [done|]. split.
  { intros Hr. destruct (Hnone Hr) as (? & ? & _). done. }
  change (exec (S (S f)) (Write c levelName msg meta) w)
    with (_write (exec (S f)) c levelName msg meta w).
  rewrite (write_passes _ _ _ _ _ _ lc code Hlc Hcode) by done.
  fold entry lcA.
  change (alerts_evaluate (exec (S f)) c entry (put c lcA (tick w)))
    with (evaluate (S f) c entry (put c lcA (tick w))).
  rewrite Heval. cbn [mbind res_bind].
  set (lcE := set_alerts (fun _ => am') lcA).
  set (wE := {| heap := <[c := lcE]> (heap (put c lcA (tick w)));
                ticks := k + ticks (put c lcA (tick w));
                trace := trace (put c lcA (tick w)) ++ tr |}).
  assert (HE : heap wE !! c = Some lcE).
  { unfold wE. simpl. apply list_lookup_insert_eq. by rewrite length_insert. }
  change (exec (S f) (Emit c (LogEv entry)) wE) with (emit (exec f) c (LogEv entry) wE).
  rewrite (emit_log_forwards _ _ lcE _ _ HE) by (by destruct Hq).
  change (forwards lcE) with (forwards lc).
  assert (Hrec : record (Emitted c (LogEv entry)) wE =
                 {| heap := <[c := lcE]> (heap w); ticks := k + S (ticks w);
                    trace := trace w ++ tr ++ [Emitted c (LogEv entry)] |}).
  { unfold record, wE, put, tick. simpl. by rewrite list_insert_insert_eq, <- app_assoc. }
  rewrite Hrec. rewrite Hfile. done.
Qed.

(** What a received entry leaves in the ring buffer and in the counter
    of its level. *)
Lemma received_holds am' entry l N held n :
  1 ≤ N → ring_inv N (_ring l) held →
  MetricsCollector._counts (metrics l) !! Entry.level entry = Some n →
  ring_inv N (_ring (received am' entry l)) (lastN N (held ++ [entry])) ∧
  RingBuffer.toArray (_ring (received am' entry l)) = lastN N (held ++ [entry]) ∧
  MetricsCollector._counts (metrics (received am' entry l)) =
    <[Entry.level entry := (n + 1)%Z]> (MetricsCollector._counts (metrics l)).
Proof.
  intros HN Hinv Hn.
  destruct (received_fields am' entry l) as (Hring & Hmetrics & _).
  assert (Hheld : lastN N held = held).
  { unfold lastN. pose proof (ring_inv_length _ _ _ Hinv) as Hl.
    replace (length held - N) with 0; [done|].
    destruct Hinv as [_ [(? & _) | (? & _)]]; lia. }
  assert (H : ring_inv N (_ring (received am' entry l)) (lastN N (held ++ [entry]))).
  { rewrite Hring, lastN_snoc, Hheld. by apply ring_inv_push. }
  split; [done|]. split; [by apply (ring_inv_toArray N)|].
  rewrite Hmetrics. unfold MetricsCollector.incrementLevel. by rewrite Hn.
Qed.





End LoggerFacts.

(** * Further properties *)

(** ** Helper utilities *)

Lemma string_app_assoc s t u : (s +:+ t) +:+ u = s +:+ (t +:+ u).
Proof.
  induction s as [|c s IH]; [done|].
  rewrite !string_app_cons. by rewrite IH.
Qed.

Lemma string_app_nil_r s : s +:+ "" = s.
Proof. induction s as [|c s IH]; [done|]. rewrite string_app_cons. by rewrite IH. Qed.

Lemma repeat_str_comm s k : repeat_str s k +:+ s = s +:+ repeat_str s k.
Proof.
  induction k as [|k IH]; simpl.
  - by rewrite string_app_empty, string_app_nil_r.
  - by rewrite string_app_assoc, IH.
Qed.

Lemma js_length_app s t : JS.length (s +:+ t) = JS.length s + JS.length t.
Proof.
  induction s as [|c s IH]; [done|].
  rewrite string_app_cons. simpl. rewrite IH. lia.
Qed.

Lemma repeat_str_js_length s k : JS.length (repeat_str s k) = k * JS.length s.
Proof. induction k as [|k IH]; [done|]. simpl. rewrite js_length_app. lia. Qed.

Lemma repeat_str_length s k : String.length (repeat_str s k) = k * String.length s.
Proof. induction k as [|k IH]; [done|]. simpl. rewrite string_length_app. lia. Qed.

(** On ASCII text a code unit is a byte. *)
Lemma ascii_js_length s : is_ascii s = true → JS.length s = String.length s.
Proof.
  induction s as [|c s IH]; [done|]. simpl. intros [Hc Hs]%andb_true_iff.
  rewrite (IH Hs). unfold JS.units. by rewrite Hc.
Qed.

Lemma pretty_N_go_ascii x s : is_ascii s = true → is_ascii (pretty_N_go x s) = true.
Proof.
  revert s. induction (N.lt_wf_0 x) as [x _ IH]; intros s Hs.
  destruct (decide (x = 0%N)) as [->|Hx]; [by rewrite pretty_N_go_0|].
  rewrite pretty_N_go_step by lia. apply IH.
  - apply N.div_lt; lia.
  - simpl. rewrite Hs, andb_true_r. unfold pretty_N_char. by repeat case_match.
Qed.

Lemma String_of_ascii z : is_ascii (JS.String_of z) = true.
Proof.
  assert (HN : ∀ x : N, is_ascii (pretty x) = true).
  { intros x. unfold pretty, pretty_N. case_decide; [done|]. by apply pretty_N_go_ascii. }
  destruct z as [|x|x]; [done | apply (HN (Npos x)) |].
  change (JS.String_of (Z.neg x)) with ("-" +:+ pretty (Npos x)).
  rewrite string_app_cons, string_app_empty. simpl. apply (HN (Npos x)).
Qed.

(** The loop of [padStart]: it stops either because the length is
    reached or, with a pad that holds no code unit, when the rounds are
    used up. *)
Lemma padStart_loop_spec fuel str len p :
  ∃ k, padStart_loop fuel str len p = repeat_str p k +:+ str ∧
       k ≤ fuel ∧
       (k < fuel → len ≤ JS.length str + k * JS.length p) ∧
       (len ≤ JS.length str → k = 0) ∧
       (JS.length str < len → 1 ≤ fuel →
          1 ≤ k ∧ JS.length str + (k - 1) * JS.length p < len).
Proof.
  revert str. induction fuel as [|fuel IH]; intros str.
  - exists 0. simpl. repeat split; lia.
  - simpl. destruct (Nat.ltb_spec (JS.length str) len) as [Hlt|Hge].
    + destruct (IH (p +:+ str)) as (k & Hk & Hfuel & Hstop & Hzero & Hmin).
      rewrite js_length_app in Hstop, Hzero, Hmin.
      exists (S k). split; [|split; [|split; [|split]]].
      * rewrite Hk. simpl.
        by rewrite <- string_app_assoc, repeat_str_comm, string_app_assoc.
      * lia.
      * intros Hk'. simpl. specialize (Hstop ltac:(lia)). lia.
      * lia.
      * intros _ _. split; [lia|]. simpl. rewrite Nat.sub_0_r.
        destruct (Nat.le_gt_cases len (JS.length p + JS.length str)) as [Hle|Hgt].
        -- rewrite (Hzero Hle). lia.
        -- destruct fuel as [|fuel'].
           { assert (k = 0) as -> by lia. lia. }
           destruct (Hmin Hgt ltac:(lia)) as [Hk1 Hlt'].
           replace (k * JS.length p) with (JS.length p + (k - 1) * JS.length p); [lia|].
           destruct k; [lia|]. simpl. rewrite Nat.sub_0_r. lia.
    + exists 0. simpl. repeat split; lia.
Qed.

Lemma padStart_shape (str : string) (len : nat) (char : option string) :
  ∃ k,
    padStart str len char = repeat_str (JS.or_str char "0") k +:+ str ∧
    (1 ≤ JS.length (JS.or_str char "0") →
       len ≤ JS.length str + k * JS.length (JS.or_str char "0")).
Proof.
  unfold padStart.
  destruct (padStart_loop_spec len str len (JS.or_str char "0"))
    as (k & Hk & Hfuel & Hstop & _).
  exists k. split; [done|]. intros Hp.
  destruct (decide (k < len)) as [Hlt|Hge]; [by apply Hstop|].
  assert (k = len) as -> by lia. nia.
Qed.

(** X1. [padStart] never shortens its input: it prepends the pad string the
    fewest times that bring the length to [len] or more, and not at all
    when the input is long enough; with a pad of one code unit the result
    has length exactly [max len (length str)].  Lengths are counted as
    JavaScript does, in UTF-16 code units; that [len] is reached
    supposes that the pad holds at least one of them, as every text
    that is not empty does. *)
Theorem padStart_prepends_fewest_pads (str : string) (len : nat) (char : option string) :
  ∃ k,
    padStart str len char = repeat_str (JS.or_str char "0") k +:+ str ∧
    (len ≤ JS.length str → k = 0) ∧
    (JS.length str < len →
       1 ≤ k ∧
       JS.length str + (k - 1) * JS.length (JS.or_str char "0") < len ∧
       (1 ≤ JS.length (JS.or_str char "0") →
          len ≤ JS.length str + k * JS.length (JS.or_str char "0"))) ∧
    (JS.length (JS.or_str char "0") = 1 →
       JS.length (padStart str len char) = Nat.max len (JS.length str)).
Proof.
  unfold padStart.
  destruct (padStart_loop_spec len str len (JS.or_str char "0"))
    as (k & Hk & Hfuel & Hstop & Hzero & Hmin).
  assert (Hreach : 1 ≤ JS.length (JS.or_str char "0") →
                   len ≤ JS.length str + k * JS.length (JS.or_str char "0")).
  { intros Hp. destruct (decide (k < len)) as [Hlt|Hge]; [by apply Hstop|].
    assert (k = len) as -> by lia. nia. }
  exists k. split; [done|]. split; [done|]. split.
  - intros Hlt. destruct (Hmin Hlt ltac:(lia)). done.
  - intros Hone. rewrite Hk, js_length_app, repeat_str_js_length, Hone.
    destruct (Nat.le_gt_cases len (JS.length str)) as [Hle|Hgt].
    + rewrite (Hzero Hle). lia.
    + destruct (Hmin Hgt ltac:(lia)). specialize (Hreach ltac:(lia)). lia.
Qed.

Section TextFacts.
Context `{rt : Runtime}.

Lemma has_escape_app s t : has_escape (s +:+ t) = has_escape s || has_escape t.
Proof.
  induction s as [|c s IH]; [done|].
  rewrite string_app_cons. simpl. rewrite IH. by rewrite orb_assoc.
Qed.

Lemma has_escape_repeat_space k : has_escape (repeat_str " " k) = false.
Proof. induction k as [|k IH]; [done|]. simpl. exact IH. Qed.

(** X2. The plain form of an entry, which is the one written to the text
    file, carries an escape character only if a field of the entry
    does: the formatter adds no colour sequence of its own to it, while
    the coloured form always starts with one.  For the eight level names
    the level column of both forms is exactly seven characters wide. *)
Theorem plain_text_adds_no_colour_codes (entry : Entry.t) :
  has_escape (entryToText entry false) =
    has_escape (Entry.timestamp entry) || has_escape (Entry.level entry)
    || has_escape (Entry.context entry) || has_escape (Entry.message entry)
    || from_option has_escape false (Entry.meta entry) ∧
  (∃ rest, entryToText entry true = ESC +:+ rest) ∧
  (is_Some (LOG_LEVELS !! Entry.level entry) →
     String.length (padStart (Entry.level entry) 7 (Some " ")) = 7).
Proof.
  split; [|split].
  - unfold entryToText. cbn [negb].
    destruct (padStart_shape (Entry.level entry) 7 (Some " ")) as (k & -> & _).
    change (JS.or_str (Some " ") "0") with " ".
    rewrite !has_escape_app, has_escape_repeat_space.
    destruct (Entry.meta entry) as [m|]; simpl.
    + rewrite string_app_empty. by rewrite !orb_assoc.
    + rewrite !orb_false_r. by rewrite !orb_assoc.
  - unfold entryToText. cbn [negb].
    change (ansi "label") with (ESC +:+ "[90m").
    rewrite (string_app_assoc ESC). by eexists.
  - intros [code Hcode].
    apply elem_of_list_to_map_2 in Hcode.
    repeat (apply elem_of_cons in Hcode as [[= -> _]|Hcode]; [done|]).
    by apply elem_of_nil in Hcode.
Qed.

End TextFacts.

(** ** Timestamps *)

Section TimestampFacts.

Lemma below_In n x : (0 ≤ x < n)%Z → In x (below n).
Proof.
  intros Hx. unfold below. apply in_map_iff. exists (Z.to_nat x).
  split; [lia|]. apply in_seq. lia.
Qed.

Lemma lex_lt_cons c d s t :
  lex_lt (String c s) (String d t) ↔
  (N_of_ascii c < N_of_ascii d)%N ∨ (c = d ∧ lex_lt s t).
Proof.
  split.
  - inversion 1; subst; auto.
  - intros [H|[-> H]]; [by constructor | by constructor].
Qed.

Lemma lex_lt_irrefl s : ¬ lex_lt s s.
Proof.
  induction s as [|c s IH]; [inversion 1|].
  intros H. apply lex_lt_cons in H as [H|[_ H]]; [lia | done].
Qed.

Lemma string_app_inj_length s1 s2 t1 t2 :
  String.length s1 = String.length s2 → s1 +:+ t1 = s2 +:+ t2 → s1 = s2 ∧ t1 = t2.
Proof.
  revert s2. induction s1 as [|c s1 IH]; intros [|d s2] Hlen; try done.
  rewrite !string_app_cons. intros [= -> H]. simpl in Hlen.
  destruct (IH s2) as [-> ->]; [lia | done | done].
Qed.

(** Comparison of strings that start with fields of the same width. *)
Lemma lex_lt_app s1 s2 t1 t2 :
  String.length s1 = String.length s2 →
  lex_lt (s1 +:+ t1) (s2 +:+ t2) ↔ lex_lt s1 s2 ∨ (s1 = s2 ∧ lex_lt t1 t2).
Proof.
  revert s2. induction s1 as [|c s1 IH]; intros [|d s2] Hlen; try done.
  - rewrite !string_app_empty. split; [auto|]. intros [H|[_ H]]; [inversion H | done].
  - rewrite !string_app_cons, !lex_lt_cons. simpl in Hlen.
    rewrite (IH s2) by lia. split.
    + intros [H|[-> [H|[-> H]]]]; auto.
    + intros [[H|[-> H]]|[[= -> ->] H]]; auto.
Qed.

(** Two-digit fields, checked on each of the values 0 to 99. *)
Lemma pad2_facts x y :
  (0 ≤ x ≤ 99)%Z → (0 ≤ y ≤ 99)%Z →
  String.length (pad2 x) = 2 ∧
  (lex_lt (pad2 x) (pad2 y) ↔ (x < y)%Z) ∧
  (pad2 x = pad2 y ↔ x = y).
Proof.
  intros Hx Hy.
  assert (Hall : forallb (fun a =>
            (String.length (pad2 a) =? 2)%nat &&
            forallb (fun b =>
              Bool.eqb (String.ltb (pad2 a) (pad2 b)) (a <? b)%Z &&
              Bool.eqb (String.eqb (pad2 a) (pad2 b)) (a =? b)%Z) (below 100))
            (below 100) = true) by (vm_compute; reflexivity).
  rewrite List.forallb_forall in Hall.
  specialize (Hall x (below_In 100 x ltac:(lia))).
  apply andb_true_iff in Hall as [Hlen Hall].
  rewrite List.forallb_forall in Hall.
  specialize (Hall y (below_In 100 y ltac:(lia))).
  apply andb_true_iff in Hall as [Hlt Heq].
  apply Bool.eqb_prop in Hlt, Heq.
  split; [by apply Nat.eqb_eq|]. split.
  - rewrite <- string_ltb_lex, Hlt. apply Z.ltb_lt.
  - rewrite <- String.eqb_eq, Heq. apply Z.eqb_eq.
Qed.

(** A four-digit year is its two-digit halves. *)
Lemma year_digits y :
  (1000 ≤ y ≤ 9999)%Z → JS.String_of y = pad2 (y / 100) +:+ pad2 (y mod 100).
Proof.
  intros Hy.
  assert (Hall : forallb (fun a =>
            String.eqb (JS.String_of (a + 1000)) (pad2 ((a + 1000) / 100)
                                                  +:+ pad2 ((a + 1000) mod 100)))
            (below 9000) = true) by (vm_compute; reflexivity).
  rewrite List.forallb_forall in Hall.
  specialize (Hall (y - 1000)%Z (below_In 9000 (y - 1000) ltac:(lia))).
  apply String.eqb_eq in Hall. by replace (y - 1000 + 1000)%Z with y in Hall by lia.
Qed.

(** A three-digit field is a digit followed by a two-digit field. *)
Lemma millis_digits m :
  (0 ≤ m ≤ 999)%Z →
  padStart (JS.String_of m) 3 None = JS.String_of (m / 100) +:+ pad2 (m mod 100).
Proof.
  intros Hm.
  assert (Hall : forallb (fun a =>
            String.eqb (padStart (JS.String_of a) 3 None)
                       (JS.String_of (a / 100) +:+ pad2 (a mod 100)))
            (below 1000) = true) by (vm_compute; reflexivity).
  rewrite List.forallb_forall in Hall.
  specialize (Hall m (below_In 1000 m ltac:(lia))).
  by apply String.eqb_eq in Hall.
Qed.

Lemma digit_facts x y :
  (0 ≤ x ≤ 9)%Z → (0 ≤ y ≤ 9)%Z →
  String.length (JS.String_of x) = 1 ∧
  (lex_lt (JS.String_of x) (JS.String_of y) ↔ (x < y)%Z) ∧
  (JS.String_of x = JS.String_of y ↔ x = y).
Proof.
  intros Hx Hy.
  assert (Hall : forallb (fun a =>
            (String.length (JS.String_of a) =? 1)%nat &&
            forallb (fun b =>
              Bool.eqb (String.ltb (JS.String_of a) (JS.String_of b)) (a <? b)%Z &&
              Bool.eqb (String.eqb (JS.String_of a) (JS.String_of b)) (a =? b)%Z)
              (below 10))
            (below 10) = true) by (vm_compute; reflexivity).
  rewrite List.forallb_forall in Hall.
  specialize (Hall x (below_In 10 x ltac:(lia))).
  apply andb_true_iff in Hall as [Hlen Hall].
  rewrite List.forallb_forall in Hall.
  specialize (Hall y (below_In 10 y ltac:(lia))).
  apply andb_true_iff in Hall as [Hlt Heq].
  apply Bool.eqb_prop in Hlt, Heq.
  split; [by apply Nat.eqb_eq|]. split.
  - rewrite <- string_ltb_lex, Hlt. apply Z.ltb_lt.
  - rewrite <- String.eqb_eq, Heq. apply Z.eqb_eq.
Qed.

End TimestampFacts.

Section TimestampOrderFacts.

Local Ltac zdiv := Z.div_mod_to_equations; lia.

Lemma year_facts x y :
  (1000 ≤ x ≤ 9999)%Z → (1000 ≤ y ≤ 9999)%Z →
  String.length (JS.String_of x) = 4 ∧
  (lex_lt (JS.String_of x) (JS.String_of y) ↔ (x < y)%Z) ∧
  (JS.String_of x = JS.String_of y ↔ x = y).
Proof.
  intros Hx Hy. rewrite !year_digits by done.
  destruct (pad2_facts (x / 100) (y / 100)) as (Hl1 & Hlt1 & Heq1); [zdiv..|].
  destruct (pad2_facts (x mod 100) (y mod 100)) as (Hl2 & Hlt2 & Heq2); [zdiv..|].
  destruct (pad2_facts (y / 100) (y / 100)) as (Hl3 & _); [zdiv..|].
  split; [rewrite string_length_app; lia|]. split.
  - rewrite lex_lt_app by lia. rewrite Hlt1, Heq1, Hlt2. zdiv.
  - split.
    + intros H. apply string_app_inj_length in H as [H1 H2]; [|lia].
      apply Heq1 in H1. apply Heq2 in H2. zdiv.
    + by intros ->.
Qed.

Lemma millis_facts x y :
  (0 ≤ x ≤ 999)%Z → (0 ≤ y ≤ 999)%Z →
  String.length (padStart (JS.String_of x) 3 None) = 3 ∧
  (lex_lt (padStart (JS.String_of x) 3 None) (padStart (JS.String_of y) 3 None)
     ↔ (x < y)%Z) ∧
  (padStart (JS.String_of x) 3 None = padStart (JS.String_of y) 3 None ↔ x = y).
Proof.
  intros Hx Hy. rewrite !millis_digits by done.
  destruct (digit_facts (x / 100) (y / 100)) as (Hl1 & Hlt1 & Heq1); [zdiv..|].
  destruct (pad2_facts (x mod 100) (y mod 100)) as (Hl2 & Hlt2 & Heq2); [zdiv..|].
  destruct (digit_facts (y / 100) (y / 100)) as (Hl3 & _); [zdiv..|].
  split; [rewrite string_length_app; lia|]. split.
  - rewrite lex_lt_app by lia. rewrite Hlt1, Heq1, Hlt2. zdiv.
  - split.
    + intros H. apply string_app_inj_length in H as [H1 H2]; [|lia].
      apply Heq1 in H1. apply Heq2 in H2. zdiv.
    + by intros ->.
Qed.

(** One field of fixed width, a separator, and the rest. *)
Lemma field_step (fa fb sep ra rb : string) (x y : Z) :
  String.length fa = String.length fb →
  (lex_lt fa fb ↔ (x < y)%Z) → (fa = fb ↔ x = y) →
  (lex_lt (fa +:+ sep +:+ ra) (fb +:+ sep +:+ rb) ↔ (x < y)%Z ∨ (x = y ∧ lex_lt ra rb)) ∧
  (fa +:+ sep +:+ ra = fb +:+ sep +:+ rb ↔ x = y ∧ ra = rb).
Proof.
  intros Hlen Hlt Heq. split.
  - rewrite lex_lt_app by done. rewrite (lex_lt_app sep sep) by done.
    rewrite Hlt, Heq. pose proof (lex_lt_irrefl sep). tauto.
  - split.
    + intros H. apply string_app_inj_length in H as [H1 H2]; [|done].
      apply String.app_inj in H2. by rewrite <- Heq.
    + intros [Hxy ->]. apply Heq in Hxy. by rewrite Hxy.
Qed.

(** X3. Timestamps sort chronologically: for two dates with a four-digit
    year and fields in their calendar ranges, the formatted timestamp is
    24 characters long, two timestamps are equal exactly when all the
    fields are, and the string order that the [since] and [until]
    filters of [query] use is the order of the fields, year first. *)
Theorem timestamps_sort_chronologically (a b : DateFields) :
  in_calendar a → in_calendar b →
  String.length (formatTimestamp a) = 24 ∧
  (String.ltb (formatTimestamp a) (formatTimestamp b) = true
     ↔ fields_lt (calendar_fields a) (calendar_fields b)) ∧
  (formatTimestamp a = formatTimestamp b ↔ calendar_fields a = calendar_fields b).
Proof.
  intros [Hya Hmoa Hda Hha Hmia Hsa Hmsa] [Hyb Hmob Hdb Hhb Hmib Hsb Hmsb].
  destruct (year_facts _ _ Hya Hyb) as (Ly & Hy_lt & Hy_eq).
  destruct (pad2_facts (getMonth a + 1) (getMonth b + 1)) as (Lmo & Hmo_lt & Hmo_eq); [lia..|].
  destruct (pad2_facts (getDate a) (getDate b)) as (Ld & Hd_lt & Hd_eq); [lia..|].
  destruct (pad2_facts (getHours a) (getHours b)) as (Lh & Hh_lt & Hh_eq); [lia..|].
  destruct (pad2_facts (getMinutes a) (getMinutes b)) as (Lmi & Hmi_lt & Hmi_eq); [lia..|].
  destruct (pad2_facts (getSeconds a) (getSeconds b)) as (Ls & Hs_lt & Hs_eq); [lia..|].
  destruct (millis_facts _ _ Hmsa Hmsb) as (Lms & Hms_lt & Hms_eq).
  destruct (year_facts _ _ Hyb Hyb) as (Ly' & _).
  destruct (pad2_facts (getMonth b + 1) (getMonth b + 1)) as (Lmo' & _); [lia..|].
  destruct (pad2_facts (getDate b) (getDate b)) as (Ld' & _); [lia..|].
  destruct (pad2_facts (getHours b) (getHours b)) as (Lh' & _); [lia..|].
  destruct (pad2_facts (getMinutes b) (getMinutes b)) as (Lmi' & _); [lia..|].
  destruct (pad2_facts (getSeconds b) (getSeconds b)) as (Ls' & _); [lia..|].
  destruct (millis_facts _ _ Hmsb Hmsb) as (Lms' & _).
  unfold pad2 in *.
  split.
  { unfold formatTimestamp. rewrite !string_length_app.
    rewrite Ly, Lmo, Ld, Lh, Lmi, Ls, Lms. reflexivity. }
  rewrite string_ltb_lex. unfold formatTimestamp, calendar_fields.
  set (MSa := padStart (JS.String_of (getMilliseconds a)) 3 None) in *.
  set (MSb := padStart (JS.String_of (getMilliseconds b)) 3 None) in *.
  change (MSa +:+ "Z") with (MSa +:+ "Z" +:+ "").
  change (MSb +:+ "Z") with (MSb +:+ "Z" +:+ "").
  assert (Hnil : lex_lt "" "" ↔ False) by (split; [apply lex_lt_irrefl | done]).
  split.
  - rewrite (proj1 (field_step _ _ _ _ _ _ _ (eq_trans Ly (eq_sym Ly')) Hy_lt Hy_eq)).
    rewrite (proj1 (field_step _ _ _ _ _ _ _ (eq_trans Lmo (eq_sym Lmo')) Hmo_lt Hmo_eq)).
    rewrite (proj1 (field_step _ _ _ _ _ _ _ (eq_trans Ld (eq_sym Ld')) Hd_lt Hd_eq)).
    rewrite (proj1 (field_step _ _ _ _ _ _ _ (eq_trans Lh (eq_sym Lh')) Hh_lt Hh_eq)).
    rewrite (proj1 (field_step _ _ _ _ _ _ _ (eq_trans Lmi (eq_sym Lmi')) Hmi_lt Hmi_eq)).
    rewrite (proj1 (field_step _ _ _ _ _ _ _ (eq_trans Ls (eq_sym Ls')) Hs_lt Hs_eq)).
    rewrite (proj1 (field_step _ _ _ _ _ _ _ (eq_trans Lms (eq_sym Lms')) Hms_lt Hms_eq)).
    rewrite Hnil. simpl. lia.
  - rewrite (proj2 (field_step _ _ _ _ _ _ _ (eq_trans Ly (eq_sym Ly')) Hy_lt Hy_eq)).
    rewrite (proj2 (field_step _ _ _ _ _ _ _ (eq_trans Lmo (eq_sym Lmo')) Hmo_lt Hmo_eq)).
    rewrite (proj2 (field_step _ _ _ _ _ _ _ (eq_trans Ld (eq_sym Ld')) Hd_lt Hd_eq)).
    rewrite (proj2 (field_step _ _ _ _ _ _ _ (eq_trans Lh (eq_sym Lh')) Hh_lt Hh_eq)).
    rewrite (proj2 (field_step _ _ _ _ _ _ _ (eq_trans Lmi (eq_sym Lmi')) Hmi_lt Hmi_eq)).
    rewrite (proj2 (field_step _ _ _ _ _ _ _ (eq_trans Ls (eq_sym Ls')) Hs_lt Hs_eq)).
    rewrite (proj2 (field_step _ _ _ _ _ _ _ (eq_trans Lms (eq_sym Lms')) Hms_lt Hms_eq)).
    split.
    + intros (H1 & H2 & H3 & H4 & H5 & H6 & H7 & _).
      rewrite H1, H3, H4, H5, H6, H7. by replace (getMonth a) with (getMonth b) by lia.
    + intros [= H1 H2 H3 H4 H5 H6 H7]. repeat split; (done || lia).
Qed.

End TimestampOrderFacts.

Section UptimeFacts.

Local Ltac zdiv := Z.div_mod_to_equations; lia.

(** X4. [uptime] splits the whole seconds elapsed since the start into
    hours, minutes and seconds: minutes and seconds are below 60 and
    always printed with two digits, the hours are not wrapped into days
    and take two characters or more; up to 99 hours the text is 11
    characters long. *)
Theorem uptime_splits_the_elapsed_seconds (startedAt now : Z) :
  (startedAt ≤ now)%Z →
  ∃ h m s,
    (0 ≤ h)%Z ∧ (0 ≤ m ≤ 59)%Z ∧ (0 ≤ s ≤ 59)%Z ∧
    ((now - startedAt) / 1000 = h * 3600 + m * 60 + s)%Z ∧
    uptime startedAt now =
      padStart (JS.String_of h) 2 None +:+ "h " +:+ padStart (JS.String_of m) 2 None
      +:+ "m " +:+ padStart (JS.String_of s) 2 None +:+ "s" ∧
    String.length (padStart (JS.String_of m) 2 None) = 2 ∧
    String.length (padStart (JS.String_of s) 2 None) = 2 ∧
    2 ≤ String.length (padStart (JS.String_of h) 2 None) ∧
    ((h ≤ 99)%Z → String.length (uptime startedAt now) = 11).
Proof.
  intros Hle.
  set (secs := ((now - startedAt) / 1000)%Z).
  assert (Hsecs : (0 ≤ secs)%Z) by (unfold secs; zdiv).
  exists (secs / 60 / 60)%Z, ((secs / 60) mod 60)%Z, (secs mod 60)%Z.
  assert (Huptime : uptime startedAt now =
      padStart (JS.String_of (secs / 60 / 60)) 2 None +:+ "h "
      +:+ padStart (JS.String_of ((secs / 60) mod 60)) 2 None
      +:+ "m " +:+ padStart (JS.String_of (secs mod 60)) 2 None +:+ "s").
  { unfold uptime. fold secs. rewrite !Z.rem_mod_nonneg by zdiv. done. }
  destruct (pad2_facts ((secs / 60) mod 60) 0) as (Lm & _); [zdiv | lia |].
  destruct (pad2_facts (secs mod 60) 0) as (Ls & _); [zdiv | lia |].
  unfold pad2 in Lm, Ls.
  split; [zdiv|]. split; [zdiv|]. split; [zdiv|]. split; [zdiv|].
  split; [done|]. split; [done|]. split; [done|]. split.
  - destruct (padStart_shape (JS.String_of (secs / 60 / 60)) 2 None) as (k & -> & Hlen).
    specialize (Hlen ltac:(simpl; lia)).
    rewrite (ascii_js_length _ (String_of_ascii _)) in Hlen.
    rewrite string_length_app, repeat_str_length. simpl in *. lia.
  - intros Hh. rewrite Huptime, !string_length_app, Lm, Ls.
    destruct (pad2_facts (secs / 60 / 60) 0) as (Lh & _); [zdiv | lia |].
    unfold pad2 in Lh. rewrite Lh. reflexivity.
Qed.

End UptimeFacts.

Section MessageFacts.

Lemma substring_prefix_length n s :
  String.length (String.substring 0 n s) = Nat.min n (String.length s).
Proof.
  revert s. induction n as [|n IH]; intros [|c s]; simpl; try done.
  by rewrite IH.
Qed.

Lemma units_bound c : JS.units c ≤ 2.
Proof. unfold JS.units. repeat case_match; lia. Qed.

Lemma slice_to_length n s : JS.length (JS.slice_to n s) = Nat.min n (JS.length s).
Proof.
  revert n. induction s as [|c s IH]; intros n; [simpl; lia|].
  cbn [JS.slice_to JS.length]. pose proof (units_bound c) as Hc.
  destruct (JS.units c) as [|u] eqn:Hu.
  - cbn [JS.length]. rewrite Hu, IH. lia.
  - destruct (Nat.leb_spec (S u) n) as [Hle|Hgt].
    + cbn [JS.length]. rewrite Hu, IH. lia.
    + destruct (Nat.eqb_spec n 0) as [->|Hn]; [done|].
      assert (n = 1) as -> by lia. vm_compute. lia.
Qed.

(** The first code units of a text are a prefix of it, up to a final
    half of a surrogate pair. *)
Lemma slice_to_prefix n s :
  ∃ pre post, s = pre +:+ post ∧
    (JS.slice_to n s = pre ∨
     JS.slice_to n s = pre +:+ JS.REPLACEMENT ∧ JS.length pre + 1 = n ∧
       n < JS.length s).
Proof.
  revert n. induction s as [|c s IH]; intros n.
  - exists "", "". split; [done|]. by left.
  - cbn [JS.slice_to JS.length]. pose proof (units_bound c) as Hc.
    destruct (JS.units c) as [|u] eqn:Hu.
    + destruct (IH n) as (pre & post & -> & [->|(-> & Hn & Hlt)]).
      * exists (String c pre), post. split; [done|]. by left.
      * exists (String c pre), post. split; [done|]. right.
        split; [done|]. cbn [JS.length]. rewrite Hu. lia.
    + destruct (Nat.leb_spec (S u) n) as [Hle|Hgt].
      * destruct (IH (n - S u)) as (pre & post & -> & [->|(-> & Hn & Hlt)]).
        -- exists (String c pre), post. split; [done|]. by left.
        -- exists (String c pre), post. split; [done|]. right.
           split; [done|]. cbn [JS.length]. rewrite Hu. lia.
      * destruct (Nat.eqb_spec n 0) as [->|Hn].
        -- exists "", (String c s). split; [done|]. by left.
        -- exists "", (String c s). split; [done|]. right.
           split; [done|]. cbn [JS.length]. lia.
Qed.

Lemma ascii_slice_to n s : is_ascii s = true → JS.slice_to n s = String.substring 0 n s.
Proof.
  revert n. induction s as [|c s IH]; intros n; [by destruct n|].
  cbn [is_ascii JS.slice_to]. intros [Hc Hs]%andb_true_iff.
  unfold JS.units. rewrite Hc. destruct n as [|n]; [done|].
  cbn. by rewrite Nat.sub_0_r, (IH n Hs).
Qed.

(** X5. Stored messages are bounded, in UTF-16 code units as the code
    counts them: [truncateMessage] never returns more than [maxLen] code
    units plus the twelve of the truncation mark; a message that is cut
    comes back with exactly that length, as the first [maxLen] code units
    of the message followed by the mark, where the kept part is a prefix
    of the message, or such a prefix and U+FFFD when the cut falls inside
    a surrogate pair; on ASCII text the kept part is the first [maxLen]
    bytes.  The message of an entry built by [buildEntry] therefore never
    exceeds 4108 code units. *)
Theorem truncateMessage_bounds_the_message `{rt : Runtime} (msg : string) (maxLen : nat) :
  JS.length (truncateMessage msg maxLen) ≤ maxLen + 12 ∧
  JS.length (truncateMessage msg maxLen) ≤ JS.length msg + 12 ∧
  (maxLen < JS.length msg →
     JS.length (truncateMessage msg maxLen) = maxLen + 12 ∧
     ∃ pre post kept,
       msg = pre +:+ post ∧
       truncateMessage msg maxLen = kept +:+ "…[truncated]" ∧
       JS.length kept = maxLen ∧
       (kept = pre ∨ kept = pre +:+ JS.REPLACEMENT) ∧
       (is_ascii msg = true → kept = pre ∧ String.length kept = maxLen)) ∧
  (∀ now level levelName meta context,
     JS.length (Entry.message (buildEntry now level levelName msg meta context)) ≤ 4108).
Proof.
  assert (Hmark : JS.length "…[truncated]" = 12) by (vm_compute; reflexivity).
  assert (Hlen : ∀ n, n < JS.length msg → JS.length (truncateMessage msg n) = n + 12).
  { intros n Hn. unfold truncateMessage.
    destruct (Nat.ltb_spec n (JS.length msg)); [|lia].
    rewrite js_length_app, slice_to_length, Hmark. lia. }
  assert (Hbound : ∀ n, JS.length (truncateMessage msg n) ≤ n + 12).
  { intros n. destruct (Nat.le_gt_cases (JS.length msg) n) as [Hle|Hgt].
    - unfold truncateMessage. destruct (Nat.ltb_spec n (JS.length msg)); lia.
    - rewrite (Hlen n Hgt). lia. }
  split; [apply Hbound|]. split; [|split].
  - destruct (Nat.le_gt_cases (JS.length msg) maxLen) as [Hle|Hgt].
    + unfold truncateMessage. destruct (Nat.ltb_spec maxLen (JS.length msg)); lia.
    + rewrite (Hlen maxLen Hgt). lia.
  - intros Hlt. split; [by apply Hlen|].
    destruct (slice_to_prefix maxLen msg) as (pre & post & Hmsg & Hkept).
    exists pre, post, (JS.slice_to maxLen msg).
    split; [done|]. split.
    { unfold truncateMessage. by destruct (Nat.ltb_spec maxLen (JS.length msg)); [|lia]. }
    split; [rewrite slice_to_length; lia|]. split.
    { destruct Hkept as [->|[-> _]]; auto. }
    intros Hascii. rewrite (ascii_slice_to _ _ Hascii).
    rewrite (ascii_js_length _ Hascii) in Hlt.
    split.
    + rewrite (ascii_slice_to _ _ Hascii) in Hkept.
      destruct Hkept as [H|(H & Hn & _)]; [done|].
      exfalso. apply (f_equal is_ascii) in H.
      assert (Hsub : ∀ n s, is_ascii s = true → is_ascii (String.substring 0 n s) = true).
      { clear. intros n s. revert n. induction s as [|c s IH]; intros [|n]; simpl; try done.
        intros [Hc Hs]%andb_true_iff. rewrite Hc. simpl. by apply IH. }
      rewrite (Hsub _ _ Hascii) in H.
      assert (Happ : ∀ a b, is_ascii (a +:+ b) = is_ascii a && is_ascii b).
      { clear. intros a b. induction a as [|c a IH]; [done|].
        rewrite string_app_cons. simpl. by rewrite IH, andb_assoc. }
      rewrite Happ in H. symmetry in H. apply andb_true_iff in H as [_ H]. done.
    + rewrite substring_prefix_length. lia.
  - intros now level levelName meta context. apply (Hbound 4096).
Qed.

End MessageFacts.

(** ** Queries *)

Section LimitFacts.
Import RingBuffer.

Lemma scan_loop_filter f all acc :
  fold_left (fun results e => if skipped f e then results else results ++ [e]) all acc
  = acc ++ filter (fun e => skipped f e = false) all.
Proof.
  revert acc. induction all as [|e all IH]; intros acc; simpl.
  - by rewrite app_nil_r.
  - rewrite IH, filter_cons. destruct (skipped f e) eqn:Hs.
    + by rewrite decide_False.
    + rewrite decide_True by done. by rewrite <- app_assoc.
Qed.

Lemma scan_filter f all : scan f all = filter (fun e => skipped f e = false) all.
Proof. unfold scan. by rewrite scan_loop_filter. Qed.

Lemma query_without_limit f rb : query (without_limit f) rb = scan f (toArray rb).
Proof. reflexivity. Qed.

(** X6. The limit of [query] keeps a suffix of the unlimited result: a
    positive limit K its last K entries (all of them when there are at
    most K); a limit of 0 is ignored and everything is returned; a
    negative limit returns nothing. *)
Theorem query_limit_keeps_a_suffix (f : QueryOpts) (rb : t Entry.t) (K : Z) :
  opt_limit f = Some K →
  ((0 < K)%Z →
     query f rb = lastN (Z.to_nat K) (query (without_limit f) rb) ∧
     length (query f rb) = Nat.min (Z.to_nat K) (length (query (without_limit f) rb))) ∧
  (K = 0%Z → query f rb = query (without_limit f) rb) ∧
  ((K < 0)%Z → query f rb = []).
Proof.
  intros HK. rewrite query_without_limit. unfold query. rewrite HK.
  set (results := scan f (toArray rb)). simpl.
  split; [|split].
  - intros Hpos. destruct (Z.eqb_spec K 0) as [?|_]; [lia|]. simpl.
    unfold lastN, slice_from.
    destruct (Z.ltb_spec K (Z.of_nat (length results))) as [Hlt|Hge].
    + replace (Z.to_nat (Z.of_nat (length results) - K))
        with (length results - Z.to_nat K) by lia.
      split; [done|]. rewrite length_drop. lia.
    + replace (length results - Z.to_nat K) with 0 by lia. simpl. split; [done|]. lia.
  - intros ->. done.
  - intros Hneg. destruct (Z.eqb_spec K 0) as [?|_]; [lia|]. simpl.
    destruct (Z.ltb_spec K (Z.of_nat (length results))) as [_|?]; [|lia].
    unfold slice_from. apply drop_ge. lia.
Qed.

(** X7. A query after pushes sees the survivors only: on a buffer of
    capacity N at least 1 that received [items] in order, [query]
    without a limit returns the entries among the last N pushed that
    the scan does not skip, oldest first; an entry pushed earlier is
    never returned, whatever the filter. *)
Theorem query_sees_the_last_N_entries (N : nat) (items : list Entry.t) (f : QueryOpts) :
  1 ≤ N →
  query (without_limit f) (pushAll items (new N))
    = filter (fun e => skipped f e = false) (lastN N items) ∧
  (∀ K, (0 < K)%Z → opt_limit f = Some K →
     query f (pushAll items (new N))
       = lastN (Z.to_nat K) (filter (fun e => skipped f e = false) (lastN N items))).
Proof.
  intros HN.
  assert (Harr : toArray (pushAll items (new N)) = lastN N items).
  { apply (ring_inv_toArray N). by apply ring_inv_pushAll. }
  assert (Hq : query (without_limit f) (pushAll items (new N))
               = filter (fun e => skipped f e = false) (lastN N items)).
  { rewrite query_without_limit, Harr. apply scan_filter. }
  split; [done|]. intros K Hpos HK. rewrite <- Hq.
  unfold query at 1. rewrite HK. fold (query (without_limit f) (pushAll items (new N))).
  rewrite query_without_limit.
  set (results := scan f (toArray (pushAll items (new N)))). simpl.
  destruct (Z.eqb_spec K 0) as [?|_]; [lia|]. simpl.
  unfold lastN, slice_from.
  destruct (Z.ltb_spec K (Z.of_nat (length results))) as [Hlt|Hge].
  - f_equal. lia.
  - replace (length results - Z.to_nat K) with 0 by lia. done.
Qed.

End LimitFacts.

(** ** Counters and timers *)

Section CollectorFacts.
Import MetricsCollector.

Lemma incrementLevel_lookup name m L :
  _counts (incrementLevel name m) !! L =
  (fun v => if decide (name = L) then (v + 1)%Z else v) <$> _counts m !! L.
Proof.
  unfold incrementLevel. destruct (_counts m !! name) as [n|] eqn:Hn; simpl.
  - destruct (decide (name = L)) as [<-|Hne].
    + by rewrite lookup_insert_eq, Hn.
    + rewrite lookup_insert_ne by done. by destruct (_counts m !! L).
  - destruct (decide (name = L)) as [<-|Hne].
    + by rewrite Hn.
    + by destruct (_counts m !! L).
Qed.

Lemma incrementLevel_others name m :
  _startedAt (incrementLevel name m) = _startedAt m ∧
  _timers (incrementLevel name m) = _timers m ∧
  _gauges (incrementLevel name m) = _gauges m ∧
  _histograms (incrementLevel name m) = _histograms m.
Proof. unfold incrementLevel. by destruct (_counts m !! name). Qed.

Lemma incrementAll_lookup names m L :
  _counts (incrementAll names m) !! L =
  (fun v => (v + Z.of_nat (occurrences L names))%Z) <$> _counts m !! L.
Proof.
  revert m. induction names as [|name names IH]; intros m.
  - change (occurrences L []) with 0. simpl.
    destruct (_counts m !! L) as [v|]; simpl; [|done]. by rewrite Z.add_0_r.
  - change (incrementAll (name :: names) m) with (incrementAll names (incrementLevel name m)).
    rewrite IH, incrementLevel_lookup. unfold occurrences. rewrite filter_cons.
    destruct (_counts m !! L) as [v|]; [|done]. simpl.
    destruct (decide (name = L)); simpl; f_equal; lia.
Qed.

Lemma incrementAll_others names m :
  _startedAt (incrementAll names m) = _startedAt m ∧
  _timers (incrementAll names m) = _timers m ∧
  _gauges (incrementAll names m) = _gauges m ∧
  _histograms (incrementAll names m) = _histograms m.
Proof.
  revert m. induction names as [|name names IH]; intros m; [done|].
  change (incrementAll (name :: names) m) with (incrementAll names (incrementLevel name m)).
  destruct (IH (incrementLevel name m)) as (-> & -> & -> & ->).
  apply incrementLevel_others.
Qed.

(** X8. Counters: on a new collector, after any sequence of
    [incrementLevel] calls the counter of each of the eight level names
    is the number of calls made with that name; a call with any other
    name is ignored and creates no counter; timers, gauges and
    histograms are untouched. *)
Theorem counters_count_calls_per_level (now : Z) (names : list string) (L : string) :
  _counts (incrementAll names (new now)) !! L =
    (fun _ => Z.of_nat (occurrences L names)) <$> LOG_LEVELS !! L ∧
  _timers (incrementAll names (new now)) = ∅ ∧
  _gauges (incrementAll names (new now)) = ∅ ∧
  _histograms (incrementAll names (new now)) = ∅.
Proof.
  split.
  - rewrite incrementAll_lookup. simpl. rewrite lookup_fmap.
    destruct (LOG_LEVELS !! L); simpl; [f_equal; lia | done].
  - by destruct (incrementAll_others names (new now)) as (_ & -> & -> & ->).
Qed.

Lemma Zsum_bounds lo hi l :
  Forall (fun x => (lo ≤ x ≤ hi)%Z) l →
  (Z.of_nat (length l) * lo ≤ Zsum l ≤ Z.of_nat (length l) * hi)%Z.
Proof.
  induction 1 as [|x l Hx Hl IH]; simpl; [lia|].
  change (Zsum (x :: l)) with (x + Zsum l)%Z. nia.
Qed.

Lemma Sorted_le_lookup (l : list Z) i j x y :
  Sorted Z.le l → i ≤ j → l !! i = Some x → l !! j = Some y → (x ≤ y)%Z.
Proof.
  intros Hs. apply Sorted_StronglySorted in Hs; [|intros a b c; lia].
  revert i j. induction Hs as [|a l Hs IH Hall]; intros i j Hij Hi Hj; [done|].
  destruct i as [|i], j as [|j]; simpl in *.
  - simplify_eq. lia.
  - simplify_eq. rewrite Forall_forall in Hall.
    apply Hall. by eapply list_elem_of_lookup_2.
  - lia.
  - eapply IH; [|done..]. lia.
Qed.

(** X9. Timer statistics: whenever [getTimerStats] answers, the timer has
    at least one sample; [min] and [max] are samples and bound every
    sample; the rounded mean and both percentiles lie between them, and
    each percentile is itself a sample.  When no sample is 0 the
    percentiles are the elements of the ascending sort at the floor
    indices, and p95 is at most p99. *)
Theorem timer_stats_lie_between_min_and_max (name : string) (m : t) (st : TimerStats) :
  getTimerStats name m = Ok (Some st) →
  ∃ samples lo hi v95 v99,
    _histograms m !! name = Some samples ∧
    count st = length samples ∧ 1 ≤ count st ∧
    min st = JS.Fin lo ∧ max st = JS.Fin hi ∧ lo ∈ samples ∧ hi ∈ samples ∧
    (∀ x, x ∈ samples → (lo ≤ x ≤ hi)%Z) ∧
    (lo ≤ avg st ≤ hi)%Z ∧
    p95 st = JS.Fin v95 ∧ p99 st = JS.Fin v99 ∧
    v95 ∈ samples ∧ v99 ∈ samples ∧
    (0%Z ∉ samples →
       sort_ascending samples !! floor_095 (length samples) = Some v95 ∧
       sort_ascending samples !! floor_099 (length samples) = Some v99 ∧
       (v95 ≤ v99)%Z).
Proof.
  intros Hst. pose proof (getTimerStats_spec name m) as Hspec. rewrite Hst in Hspec.
  destruct Hspec as (samples & lo & hi & s95 & s99 & Hh & Hne & Hcount & Hmin & Hmax
                     & Hlo & Hhi & Hall & Havg & H95 & H99 & Hp95 & Hp99).
  assert (Hlen : 1 ≤ length samples) by (destruct samples; [done | simpl; lia]).
  assert (Hin : ∀ i v, sort_ascending samples !! i = Some v → v ∈ samples).
  { intros i v Hv. rewrite <- (sort_ascending_perm samples). by eapply list_elem_of_lookup_2. }
  pose proof (Zsum_bounds lo hi samples Hall) as Hsum.
  exists samples, lo, hi,
    (if (s95 =? 0)%Z then hi else s95), (if (s99 =? 0)%Z then hi else s99).
  split; [done|]. split; [done|]. split; [lia|]. split; [done|]. split; [done|].
  split; [done|]. split; [done|].
  split; [by apply Forall_forall|]. split; [nia|].
  split; [rewrite Hp95; by destruct (s95 =? 0)%Z|].
  split; [rewrite Hp99; by destruct (s99 =? 0)%Z|].
  split; [destruct (s95 =? 0)%Z; eauto|]. split; [destruct (s99 =? 0)%Z; eauto|].
  intros Hzero.
  destruct (Z.eqb_spec s95 0) as [->|_]; [destruct Hzero; eauto|].
  destruct (Z.eqb_spec s99 0) as [->|_]; [destruct Hzero; eauto|].
  split; [done|]. split; [done|].
  eapply (Sorted_le_lookup (sort_ascending samples)); [apply sort_ascending_sorted| |done..].
  unfold floor_095, floor_099. apply Nat.Div0.div_le_mono. lia.
Qed.

Lemma dict_get_own {V : Type} k (o : gmap string V) v : o !! k = Some v → Dict.get k o = Dict.Own v.
Proof. intros H. unfold Dict.get. by rewrite H. Qed.

Lemma dict_get_undefined {V : Type} k (o : gmap string V) :
  o !! k = None → Dict.Object_prototype !! k = None → Dict.get k o = Dict.Undefined.
Proof. intros H Hp. unfold Dict.get. by rewrite H, Hp. Qed.

Lemma dict_get_inherited {V : Type} k (o : gmap string V) member :
  o !! k = None → Dict.Object_prototype !! k = Some member →
  Dict.get k o = Dict.Inherited member.
Proof. intros H Hp. unfold Dict.get. by rewrite H, Hp. Qed.

Lemma dict_set_stored {V : Type} k (v v' : V) (o : gmap string V) :
  Dict.set k v o !! k = Some v' → v' = v.
Proof.
  unfold Dict.set. destruct (o !! k) eqn:Ho.
  - rewrite lookup_insert_eq. by intros [= ->].
  - destruct (String.eqb k "__proto__"); [congruence|].
    rewrite lookup_insert_eq. by intros [= ->].
Qed.

Lemma proto_is_inherited : Dict.Object_prototype !! "__proto__" = Some Dict.Prototype.
Proof. reflexivity. Qed.

(** A sample is recorded under a name that is the histograms' own or
    that no object inherits. *)
Lemma record_sample_recorded name elapsed m :
  is_Some (_histograms m !! name) ∨ Dict.Object_prototype !! name = None →
  record_sample name elapsed m =
  Ok (Some elapsed,
      {| _startedAt := _startedAt m;
         _counts := _counts m;
         _timers := delete name (_timers m);
         _gauges := _gauges m;
         _histograms :=
           <[name := default [] (_histograms m !! name) ++ [elapsed]]> (_histograms m) |}).
Proof.
  intros Hname. unfold record_sample, Dict.get.
  destruct (_histograms m !! name) as [samples|]; [done|].
  destruct Hname as [[? ?]|Hp]; [done|]. by rewrite Hp.
Qed.

Lemma record_sample_throws name elapsed m member :
  _histograms m !! name = None → Dict.Object_prototype !! name = Some member →
  record_sample name elapsed m = Throw "TypeError".
Proof. intros H Hp. unfold record_sample, Dict.get. by rewrite H, Hp. Qed.

Lemma endTimer_started t1 name m t0 :
  _timers m !! name = Some t0 → t0 ≠ 0%Z →
  is_Some (_histograms m !! name) ∨ Dict.Object_prototype !! name = None →
  endTimer t1 name m =
  Ok (Some (t1 - t0)%Z,
      {| _startedAt := _startedAt m;
         _counts := _counts m;
         _timers := delete name (_timers m);
         _gauges := _gauges m;
         _histograms :=
           <[name := default [] (_histograms m !! name) ++ [(t1 - t0)%Z]]> (_histograms m) |}).
Proof.
  intros Hstart Ht0 Hname. unfold endTimer. rewrite (dict_get_own _ _ _ Hstart).
  destruct (Z.eqb_spec t0 0) as [?|_]; [done|]. by apply record_sample_recorded.
Qed.

Lemma endTimer_inherited t1 name m member :
  Dict.Object_prototype !! name = Some member → _histograms m !! name = None →
  (∀ t0, _timers m !! name = Some t0 → t0 ≠ 0%Z) →
  endTimer t1 name m = Throw "TypeError".
Proof.
  intros Hname Hhist Hstart. unfold endTimer, Dict.get.
  destruct (_timers m !! name) as [t0|]; [|by rewrite Hname].
  destruct (Z.eqb_spec t0 0) as [Hz|_]; [by destruct (Hstart t0 eq_refl)|].
  by eapply record_sample_throws.
Qed.

Lemma endTimer_not_started t name m :
  _timers m !! name = None → Dict.Object_prototype !! name = None →
  endTimer t name m = Ok (None, m).
Proof. intros H Hp. unfold endTimer. by rewrite dict_get_undefined. Qed.

(** X10. A timer measures from its latest start.  For a name that objects
    do not inherit, [startTimer] at a non-zero instant followed by
    [endTimer] returns the difference of the two instants, whatever
    start was recorded before, appends it to the samples of that name
    and forgets the start, so that a second [endTimer] returns null and
    changes nothing; the statistics of the name then count one more
    sample, and other timers and samples, the counters and the gauges
    are untouched.  For a name that objects inherit, such as
    ["constructor"] or ["__proto__"], [endTimer] throws instead, with or
    without a start, and records nothing; no call ever creates a
    histogram under such a name. *)
Theorem timer_measures_from_latest_start (t0 t1 : Z) (name : string) (m : t) :
  t0 ≠ 0%Z →
  (Dict.Object_prototype !! name = None →
   ∃ m',
     endTimer t1 name (startTimer t0 name m) = Ok (Some (t1 - t0)%Z, m') ∧
     _timers m' !! name = None ∧
     _histograms m' !! name = Some (default [] (_histograms m !! name) ++ [(t1 - t0)%Z]) ∧
     (∀ other, other ≠ name →
        _timers m' !! other = _timers m !! other ∧
        _histograms m' !! other = _histograms m !! other) ∧
     _counts m' = _counts m ∧ _gauges m' = _gauges m ∧
     (∀ t2, endTimer t2 name m' = Ok (None, m')) ∧
     (fun st : option TimerStats => count <$> st) <$> getTimerStats name m'
       = Ok (Some (S (length (default [] (_histograms m !! name)))))) ∧
  (∀ member,
     Dict.Object_prototype !! name = Some member → _histograms m !! name = None →
     endTimer t1 name (startTimer t0 name m) = Throw "TypeError" ∧
     (_timers m !! name = None → endTimer t1 name m = Throw "TypeError")) ∧
  (∀ any now result m' inherited,
     endTimer now any m = Ok (result, m') →
     is_Some (Dict.Object_prototype !! inherited) →
     _histograms m !! inherited = None → _histograms m' !! inherited = None).
Proof.
  intros Ht0. split; [|split].
  - intros Hname.
    assert (Hnp : name ≠ "__proto__") by (intros ->; done).
    assert (Hstart : _timers (startTimer t0 name m) !! name = Some t0).
    { simpl. apply dict_set_lookup. by left. }
    eexists. split; [by apply endTimer_started; [| |right]|].
    simpl. split; [by rewrite lookup_delete_eq|].
    split; [by rewrite lookup_insert_eq|]. split.
    { intros other Hne. rewrite lookup_delete_ne, lookup_insert_ne by done.
      by rewrite dict_set_lookup_ne. }
    split; [done|]. split; [done|]. split.
    + intros t2. apply endTimer_not_started; [|done]. simpl. by rewrite lookup_delete_eq.
    + unfold getTimerStats. erewrite dict_get_own by (simpl; apply lookup_insert_eq).
      rewrite length_app. simpl.
      destruct (Nat.eqb_spec (length (default [] (_histograms m !! name)) + 1) 0); [lia|].
      simpl. unfold statsOf.
      destruct (accumulate _) as [[sum lo] hi]. simpl. rewrite length_app. simpl.
      do 2 f_equal. lia.
  - intros member Hname Hhist. split.
    + apply (endTimer_inherited _ _ _ member); [done..|].
      simpl. intros start Hset. by apply dict_set_stored in Hset as ->.
    + intros Htimer. apply (endTimer_inherited _ _ _ member); [done..|].
      intros start. by rewrite Htimer.
  - intros any now result m' inherited Hend [member Hin] Hnone.
    unfold endTimer in Hend.
    destruct (Dict.get any (_timers m)) as [start| |]; [|done|by injection Hend as <- <-].
    destruct (start =? 0)%Z; [by injection Hend as <- <-|].
    unfold record_sample in Hend. unfold Dict.get in Hend.
    destruct (_histograms m !! any) as [samples|] eqn:Hany.
    + injection Hend as <- <-. simpl. rewrite lookup_insert_ne; [done|]. congruence.
    + destruct (Dict.Object_prototype !! any) eqn:Hp; [done|].
      injection Hend as <- <-. simpl. rewrite lookup_insert_ne; [done|]. congruence.
Qed.

End CollectorFacts.

(** ** Lines, flushes and rotations *)

Section LinesFacts.
Import RotatingFileWriter.

Lemma join_unlines lines : lines ≠ [] → JS.join LF lines +:+ LF = unlines lines.
Proof.
  induction lines as [|l rest IH]; [done|]. intros _.
  destruct rest as [|l' rest']; [by simpl; rewrite string_app_nil_r|].
  change (JS.join LF (l :: l' :: rest')) with (l +:+ LF +:+ JS.join LF (l' :: rest')).
  rewrite !string_app_assoc. rewrite IH by done. done.
Qed.

Lemma writeAll_buffer lines w :
  _buffer (writeAll lines w) = _buffer w ++ lines ∧
  filePath (writeAll lines w) = filePath w ∧
  maxMB (writeAll lines w) = maxMB w ∧
  maxBackups (writeAll lines w) = maxBackups w ∧
  _writing (writeAll lines w) = _writing w.
Proof.
  revert w. induction lines as [|l lines IH]; intros w.
  - simpl. by rewrite app_nil_r.
  - change (writeAll (l :: lines) w) with (writeAll lines (write l w)).
    destruct (IH (write l w)) as (-> & -> & -> & -> & ->). simpl.
    by rewrite <- app_assoc.
Qed.

Lemma drained_empty w : _buffer w = [] → drained w = w.
Proof. intros H. unfold drained. rewrite <- H. by destruct w. Qed.

Lemma rotate_total w d :
  ∃ d', rotate w d = Some d' ∧ in_flight d' = in_flight d ∧
    (files d !! filePath w = None → d' = d) ∧
    (∀ p, p ≠ filePath w → (∀ k, 1 ≤ k ≤ Nat.max 1 (maxBackups w) → p ≠ backup w k) →
       files d' !! p = files d !! p).
Proof.
  destruct (files d !! filePath w) as [content|] eqn:Hc.
  - destruct (rotate_spec w d content Hc) as (d' & Hrot & Hfl & _ & _ & _ & _ & Hframe).
    exists d'. repeat split; try done.
  - exists d. unfold rotate, existsSync. rewrite Hc. simpl. by repeat split.
Qed.

(** X11. [rotate] never fails, whatever files exist: a rename is only
    attempted on a file that exists.  It leaves every path other than
    the active file and the backups 1 to [max 1 maxBackups] as it was,
    and the queued appends as well; without an active file it changes
    nothing at all.  With [maxBackups] 0 or 1 the active file still
    becomes backup 1. *)
Theorem rotate_never_fails_and_keeps_other_files (w : t) (d : Disk) :
  ∃ d', rotate w d = Some d' ∧
    in_flight d' = in_flight d ∧
    (files d !! filePath w = None → d' = d) ∧
    (∀ p, p ≠ filePath w → (∀ k, 1 ≤ k ≤ Nat.max 1 (maxBackups w) → p ≠ backup w k) →
       files d' !! p = files d !! p) ∧
    (∀ k, Nat.max 1 (maxBackups w) < k → files d' !! backup w k = files d !! backup w k) ∧
    (∀ content, maxBackups w ≤ 1 → files d !! filePath w = Some content →
       files d' !! backup w 1 = Some content ∧ files d' !! filePath w = None).
Proof.
  destruct (rotate_total w d) as (d' & Hrot & Hfl & Hnone & Hframe).
  exists d'. split; [done|]. split; [done|]. split; [done|]. split; [done|]. split.
  - intros k Hk. apply Hframe; [apply backup_not_active|].
    intros j Hj E. apply backup_inj in E. lia.
  - intros content _ Hc.
    destruct (rotate_spec w d content Hc) as (d2 & Hrot2 & _ & Hact & Hone & _).
    rewrite Hrot in Hrot2. injection Hrot2 as <-. done.
Qed.

Lemma flush_result w d :
  ∃ d', flush w d = Some (drained w, d') ∧
    (_buffer w = [] → d' = d) ∧
    (_buffer w ≠ [] →
       ∃ d_mid,
         (if size_reaches (filePath w) (maxMB w) d then rotate w d else Some d) = Some d_mid ∧
         d' = appendFile (filePath w) (unlines (_buffer w)) d_mid).
Proof.
  destruct (decide (_buffer w = [])) as [He|Hne].
  - exists d. unfold flush. rewrite He. simpl. rewrite <- He at 1.
    rewrite drained_empty by done. rewrite He. by repeat split.
  - rewrite flush_nonempty by done. rewrite join_unlines by done.
    destruct (rotate_total w d) as (dr & Hrot & _).
    destruct (size_reaches (filePath w) (maxMB w) d).
    + rewrite Hrot. simpl. eexists. split; [done|]. split; [done|]. intros _. by eexists.
    + simpl. eexists. split; [done|]. split; [done|]. intros _. by eexists.
Qed.

(** X12. [flush] never fails and always leaves the buffer empty, the other
    fields of the writer unchanged.  With an empty buffer it touches
    neither the files nor the queue of appends, even when the active
    file has reached the size threshold; so a flush that directly
    follows another one does nothing.  With lines in the buffer it
    queues exactly one append, on the writer's own path. *)
Theorem flush_never_fails_and_repeats_as_noop (w : t) (d : Disk) :
  ∃ d', flush w d = Some (drained w, d') ∧
    (_buffer w = [] → d' = d) ∧
    (_buffer w ≠ [] →
       in_flight d' = in_flight d ++ [(filePath w, unlines (_buffer w))]) ∧
    flush (drained w) d' = Some (drained w, d').
Proof.
  destruct (flush_result w d) as (d' & Hflush & Hempty & Hfull).
  exists d'. split; [done|]. split; [done|]. split.
  - intros Hne. destruct (Hfull Hne) as (d_mid & Hmid & ->). simpl. f_equal.
    destruct (size_reaches (filePath w) (maxMB w) d).
    + destruct (rotate_total w d) as (dr & Hrot & Hfl & _). congruence.
    + congruence.
  - reflexivity.
Qed.

(** X13. Lines reach the file in the order written, one per line: after
    any number of [write] calls (at least one line buffered) and a
    [flush] on a file below the size threshold, the flush itself leaves
    the files as they are, and once its append completes the active file
    holds its previous content followed by every buffered line, oldest
    first, each ended by a newline. *)
Theorem written_lines_reach_the_file_in_order (w : t) (d : Disk) (lines : list string) :
  _buffer w ++ lines ≠ [] →
  size_reaches (filePath w) (maxMB w) d = false →
  ∃ d',
    flush (writeAll lines w) d = Some (drained w, d') ∧
    files d' = files d ∧
    in_flight d' = in_flight d ++ [(filePath w, unlines (_buffer w ++ lines))] ∧
    files (complete (length (in_flight d)) d') !! filePath w =
      Some (default "" (files d !! filePath w) +:+ unlines (_buffer w ++ lines)) ∧
    in_flight (complete (length (in_flight d)) d') = in_flight d.
Proof.
  intros Hne Hsize.
  destruct (writeAll_buffer lines w) as (Hbuf & Hpath & HmaxMB & Hmb & Hwr).
  destruct (flush_result (writeAll lines w) d) as (d' & Hflush & _ & Hfull).
  rewrite Hbuf in Hfull. destruct (Hfull Hne) as (d_mid & Hmid & Hd').
  rewrite Hpath, HmaxMB, Hsize in Hmid. injection Hmid as <-.
  rewrite Hpath in Hd'. subst d'.
  assert (Hdr : drained (writeAll lines w) = drained w).
  { unfold drained. by rewrite Hpath, HmaxMB, Hmb, Hwr. }
  rewrite Hdr in Hflush.
  eexists. split; [exact Hflush|]. split; [done|]. split; [done|].
  rewrite complete_appended. simpl. by rewrite lookup_insert_eq.
Qed.

End LinesFacts.

Section LoggerFilesFacts.
Context `{rt : Runtime}.
Import RotatingFileWriter.

Lemma rotate_frame_owned a b d d' :
  rotate a d = Some d' →
  (∀ p, owns b p → ¬ owns a p) →
  ∀ p, owns b p → files d' !! p = files d !! p.
Proof.
  intros Hrot Hdisj p Hp.
  destruct (rotate_total a d) as (d2 & Hrot2 & _ & _ & Hframe).
  rewrite Hrot in Hrot2. injection Hrot2 as <-.
  apply Hframe.
  - intros E. apply (Hdisj p Hp). by left.
  - intros k _ E. apply (Hdisj p Hp). right. by exists k.
Qed.

Lemma logger_paths_disjoint (fa fb : string) p :
  fa ∈ ["app.log"; "app.json.log"; "error.log"] →
  fb ∈ ["app.log"; "app.json.log"; "error.log"] →
  fa ≠ fb →
  owns (new (Logger.LOG_DIR +:+ "/" +:+ fb) MAX_FILE_MB MAX_BACKUPS) p →
  ¬ owns (new (Logger.LOG_DIR +:+ "/" +:+ fa) MAX_FILE_MB MAX_BACKUPS) p.
Proof.
  intros Ha Hb Hne Hp Hq.
  set_unfold in Ha. set_unfold in Hb.
  destruct Ha as [->|[->|[->|[]]]], Hb as [->|[->|[->|[]]]]; try done;
    destruct Hp as [Hp|[k Hp]], Hq as [Hq|[j Hq]]; subst p;
    unfold backup, new, filePath, Logger.LOG_DIR in Hq;
    rewrite ?string_app_assoc in Hq;
    repeat apply String.app_inj in Hq; simpl in Hq; discriminate Hq.
Qed.

(** X14. The three files of a logger rotate independently: the writers
    built by the constructor have pairwise disjoint sets of paths
    (active file and backups of any index), so a rotation of one of
    them leaves the active file and every backup of the other two as
    they were. *)
Theorem logger_files_rotate_independently (opts : Logger.Opts) (now : Z)
    (a b : t) (d d' : Disk) (p : string) :
  a ∈ logger_writers (Logger.construct opts now) →
  b ∈ logger_writers (Logger.construct opts now) →
  a ≠ b →
  rotate a d = Some d' → owns b p →
  ¬ owns a p ∧ files d' !! p = files d !! p.
Proof.
  intros Ha Hb Hne Hrot Hp.
  assert (Hshape : ∀ x, x ∈ logger_writers (Logger.construct opts now) →
            ∃ f, f ∈ ["app.log"; "app.json.log"; "error.log"] ∧
                 x = new (Logger.LOG_DIR +:+ "/" +:+ f) MAX_FILE_MB MAX_BACKUPS).
  { intros x. unfold logger_writers. simpl.
    destruct (JS.defined_or (Logger.opt_file opts) true); simpl; set_unfold;
      [|done].
    intros [->|[->|[->|[]]]]; eexists; (split; [|reflexivity]); set_solver. }
  destruct (Hshape a Ha) as (fa & Hfa & ->). destruct (Hshape b Hb) as (fb & Hfb & ->).
  assert (Hdisj : ∀ q, owns (new (Logger.LOG_DIR +:+ "/" +:+ fb) MAX_FILE_MB MAX_BACKUPS) q →
                       ¬ owns (new (Logger.LOG_DIR +:+ "/" +:+ fa) MAX_FILE_MB MAX_BACKUPS) q).
  { intros q. apply logger_paths_disjoint; [done..|]. intros ->. done. }
  split; [by apply Hdisj|]. by eapply rotate_frame_owned.
Qed.

End LoggerFilesFacts.

(** ** Rule names and cooldowns *)

Section RuleSequenceFacts.
Import AlertManager.

Lemma addRules_snoc optss opts am :
  addRules (optss ++ [opts]) am = addRule opts (addRules optss am).
Proof. unfold addRules. by rewrite fold_left_app. Qed.

Lemma addRules_spec optss :
  length (_rules (addRules optss new)) = length optss ∧
  _cooldowns (addRules optss new) = ∅ ∧
  ∀ i opts, optss !! i = Some opts →
    ∃ r, _rules (addRules optss new) !! i = Some r ∧
         name r = JS.or_str (opt_name opts) ("rule_" +:+ pretty i) ∧
         level r = JS.or_str (opt_level opts) "ERROR" ∧
         cooldownMs r = JS.or_num (opt_cooldownMs opts) 60000 ∧
         handler r = opt_handler opts.
Proof.
  induction optss as [|opts optss IH] using rev_ind; [done|].
  destruct IH as (Hlen & Hcd & Hrules). rewrite addRules_snoc.
  split; [|split].
  - simpl. rewrite !length_app, Hlen. done.
  - done.
  - intros i o Hi. simpl.
    destruct (decide (i < length optss)) as [Hlt|Hge].
    + rewrite lookup_app_l in Hi by done. rewrite lookup_app_l by lia. by apply Hrules.
    + rewrite lookup_app_r in Hi by lia. rewrite lookup_app_r by lia.
      rewrite Hlen. destruct (i - length optss) as [|n] eqn:Hn; [|by destruct n].
      simpl in Hi. injection Hi as <-. simpl. eexists. split; [done|].
      replace i with (length optss) by lia. done.
Qed.

(** X15. Rules are stored in the order added, and a rule added without a
    name (absent or empty) is named ["rule_" + k], k being the number of
    rules added before it, named or not; two rules added without a name
    therefore never share a name. *)
Theorem unnamed_rules_are_numbered_by_position (optss : list RuleOpts) :
  length (_rules (addRules optss new)) = length optss ∧
  (∀ i opts, optss !! i = Some opts →
     ∃ r, _rules (addRules optss new) !! i = Some r ∧
          name r = JS.or_str (opt_name opts) ("rule_" +:+ pretty i)) ∧
  (∀ i j oi oj ri rj,
     optss !! i = Some oi → optss !! j = Some oj →
     JS.truthy_str (opt_name oi) = false → JS.truthy_str (opt_name oj) = false →
     _rules (addRules optss new) !! i = Some ri →
     _rules (addRules optss new) !! j = Some rj →
     i ≠ j → name ri ≠ name rj).
Proof.
  destruct (addRules_spec optss) as (Hlen & _ & Hrules).
  split; [done|]. split.
  - intros i opts Hi. destruct (Hrules i opts Hi) as (r & Hr & Hname & _). eauto.
  - intros i j oi oj ri rj Hi Hj Hti Htj Hri Hrj Hne E.
    destruct (Hrules i oi Hi) as (ri' & Hri' & Hni & _).
    destruct (Hrules j oj Hj) as (rj' & Hrj' & Hnj & _).
    assert (ri' = ri) by congruence. assert (rj' = rj) by congruence. subst ri' rj'.
    assert (Hfalsy : ∀ o d, JS.truthy_str o = false → JS.or_str o d = d).
    { intros [s|] d; simpl; [|done]. by destruct (String.eqb s ""). }
    rewrite Hfalsy in Hni, Hnj by done. rewrite Hni, Hnj in E.
    apply String.app_inj in E. by apply pretty_nat_inj in E.
Qed.

End RuleSequenceFacts.

Section SharedCooldownFacts.
Context `{rt : Runtime}.
Import Logger.

Lemma evaluate_two_rules fuel id e w lg r1 r2 :
  heap w !! id = Some lg → AlertManager._rules (alerts lg) = [r1; r2] →
  evaluate fuel id e w =
  evaluate_rule fuel id e r1 w ≫= evaluate_rule fuel id e r2.
Proof.
  intros Hlg Hr. unfold evaluate, alerts_evaluate, AlertManager.evaluate.
  rewrite (alerts_self_lookup _ _ _ Hlg). cbn [mbind res_bind]. rewrite Hr.
  cbn [forEach]. unfold evaluate_rule, alerts_evaluate_rule.
  destruct (AlertManager.evaluate_rule _ _ _ _ _ e r1 w) as [w1| |]; [|done..].
  cbn [mbind res_bind].
  by destruct (AlertManager.evaluate_rule _ _ _ _ _ e r2 w1).
Qed.

Lemma cooling_set_other now n t am r :
  AlertManager.name r ≠ n →
  AlertManager.cooling_down now (AlertManager.set_cooldown n t am) r
  = AlertManager.cooling_down now am r.
Proof.
  intros Hne. unfold AlertManager.cooling_down, Dict.get. simpl.
  by rewrite dict_set_lookup_ne.
Qed.

Lemma set_cooldown_proto t am :
  AlertManager._cooldowns am !! "__proto__" = None →
  AlertManager.set_cooldown "__proto__" t am = am.
Proof.
  intros H. unfold AlertManager.set_cooldown. rewrite dict_set_proto by done.
  by destruct am.
Qed.

(** X16. The cooldown is kept per rule name, not per rule.  For two rules
    that both match an entry, the first of them being due: when they
    carry the same name, other than ["__proto__"], the firing of the
    first blocks the second in the same evaluation (its clock reading
    falls within its cooldown), so only one alert is notified; when
    their names differ and the second is due as well, both alerts are
    notified, in rule order.  Under the name ["__proto__"] no firing is
    recorded at all: both rules fire, and the manager is left as it
    was. *)
Theorem rules_sharing_a_name_share_the_cooldown (fuel id : nat) (w : World)
    (lg : Logger.t) (r1 r2 : AlertManager.Rule) (e : Entry.t) :
  heap w !! id = Some lg →
  AlertManager._rules (alerts lg) = [r1; r2] → on_alert lg = [] →
  AlertManager.handler r1 = None → AlertManager.handler r2 = None →
  AlertManager.below_level e r1 = false → AlertManager.pattern_misses e r1 = false →
  AlertManager.below_level e r2 = false → AlertManager.pattern_misses e r2 = false →
  AlertManager.cooling_down (clock (ticks w)) (alerts lg) r1 = false →
  (AlertManager.name r2 = AlertManager.name r1 →
   AlertManager.name r1 ≠ "__proto__" →
   (clock (S (ticks w)) - clock (ticks w) < AlertManager.cooldownMs r2)%Z →
   ∃ w', evaluate (S fuel) id e w = Ok w' ∧
         trace w' = trace w ++ [Emitted id (AlertEv (AlertManager.name r1) e)] ∧
         ticks w' = S (S (ticks w))) ∧
  (AlertManager.name r2 ≠ AlertManager.name r1 →
   AlertManager.cooling_down (clock (S (ticks w))) (alerts lg) r2 = false →
   ∃ w', evaluate (S fuel) id e w = Ok w' ∧
         trace w' = trace w ++ [Emitted id (AlertEv (AlertManager.name r1) e);
                                Emitted id (AlertEv (AlertManager.name r2) e)] ∧
         ticks w' = S (S (ticks w))) ∧
  (AlertManager.name r2 = AlertManager.name r1 →
   AlertManager.name r1 = "__proto__" →
   AlertManager._cooldowns (alerts lg) !! "__proto__" = None →
   ∃ w', evaluate (S fuel) id e w = Ok w' ∧
         trace w' = trace w ++ [Emitted id (AlertEv "__proto__" e);
                                Emitted id (AlertEv "__proto__" e)] ∧
         heap w' = heap w ∧ ticks w' = S (S (ticks w))).
Proof.
  intros Hlg Hr Hla Hh1 Hh2 Hb1 Hp1 Hb2 Hp2 Hc1.
  set (lg1 := set_alerts (AlertManager.set_cooldown (AlertManager.name r1)
                            (clock (ticks w))) lg).
  set (w1 := record (Emitted id (AlertEv (AlertManager.name r1) e)) (put id lg1 (tick w))).
  assert (Hlt : id < length (heap w)) by (by eapply lookup_lt).
  assert (H1 : heap w1 !! id = Some lg1) by (by apply lookup_put).
  assert (Hfirst : evaluate_rule (S fuel) id e r1 w = Ok w1)
    by (by apply evaluate_rule_fires).
  split; [|split].
  - intros Hname Hproto Hsoon. exists (tick w1). split; [|split; [|done]].
    + rewrite (evaluate_two_rules _ _ _ _ lg r1 r2 Hlg Hr), Hfirst. cbn [mbind res_bind].
      apply (evaluate_rule_cooling _ _ _ _ _ lg1); try done.
      rewrite (cooling_after_firing _ (clock (ticks w))).
      * by apply Z.ltb_lt.
      * rewrite Hname. simpl. apply dict_set_lookup. by left.
    + done.
  - intros Hname Hdue.
    exists (record (Emitted id (AlertEv (AlertManager.name r2) e))
              (put id (set_alerts (AlertManager.set_cooldown (AlertManager.name r2)
                                     (clock (ticks w1))) lg1) (tick w1))).
    split; [|split; [|done]].
    + rewrite (evaluate_two_rules _ _ _ _ lg r1 r2 Hlg Hr), Hfirst. cbn [mbind res_bind].
      apply evaluate_rule_fires; try done.
      change (alerts lg1) with (AlertManager.set_cooldown (AlertManager.name r1)
                                  (clock (ticks w)) (alerts lg)).
      rewrite cooling_set_other by done. exact Hdue.
    + rewrite trace_record, trace_put, trace_tick. unfold w1.
      rewrite trace_record, trace_put, trace_tick. by rewrite <- app_assoc.
  - intros Hname Hproto Hnone.
    assert (Hlg1 : lg1 = lg).
    { unfold lg1, set_alerts. rewrite Hproto, set_cooldown_proto by done. by destruct lg. }
    assert (Hsecond : evaluate_rule (S fuel) id e r2 w1 =
              Ok (record (Emitted id (AlertEv (AlertManager.name r2) e))
                    (put id (set_alerts (AlertManager.set_cooldown (AlertManager.name r2)
                                           (clock (ticks w1))) lg1) (tick w1)))).
    { apply evaluate_rule_fires; try done.
      rewrite Hlg1. apply (cooling_inherited _ _ _ Dict.Prototype); by rewrite Hname, Hproto. }
    eexists. split; [|split; [|split]].
    + rewrite (evaluate_two_rules _ _ _ _ lg r1 r2 Hlg Hr), Hfirst. cbn [mbind res_bind].
      exact Hsecond.
    + rewrite trace_record, trace_put, trace_tick. unfold w1.
      rewrite trace_record, trace_put, trace_tick. rewrite Hname, Hproto.
      by rewrite <- app_assoc.
    + rewrite heap_record, heap_put, heap_tick. unfold w1.
      rewrite heap_record, heap_put, heap_tick, Hname, Hproto, Hlg1.
      unfold set_alerts. rewrite set_cooldown_proto by done.
      rewrite list_insert_insert_eq. rewrite list_insert_id; [done|]. by destruct lg.
    + done.
Qed.

End SharedCooldownFacts.

(** ** The logger: writes, children, timers *)

Section WriteAndChildFacts.
Context `{rt : Runtime}.
Import Logger.

(** X17. What an accepted write does, on a logger without alert rules and
    without ["log"] listeners: it reads the clock once, pushes the new
    entry on the ring buffer, adds one to the counter of its level,
    notifies ["log"] once, prints one line when console output is on
    (on stderr from ERROR up, on stdout below), and with file output
    buffers the plain line in the text writer, the structured line in
    the structured writer, and the structured line in the errors-only
    writer from ERROR up only.  No other logger is touched. *)
Theorem accepted_write_is_recorded_once (fuel id : nat) (levelName msg : string)
    (meta : option Meta) (w : World) (lg : Logger.t) (code : Z) :
  heap w !! id = Some lg →
  LOG_LEVELS !! levelName = Some code → (_level lg ≤ code)%Z →
  AlertManager._rules (alerts lg) = [] → on_log lg = [] → writers_present lg →
  ∃ w' lg',
    exec (S (S fuel)) (Write id levelName msg meta) w = Ok w' ∧
    heap w' !! id = Some lg' ∧
    (∀ other, other ≠ id → heap w' !! other = heap w !! other) ∧
    ticks w' = S (ticks w) ∧
    let entry := buildEntry (clock (ticks w)) code levelName msg meta (Some (_context lg)) in
    _ring lg' = RingBuffer.push entry (_ring lg) ∧
    MetricsCollector._counts (metrics lg') !! levelName =
      Z.succ <$> MetricsCollector._counts (metrics lg) !! levelName ∧
    (∀ other, other ≠ levelName →
       MetricsCollector._counts (metrics lg') !! other =
       MetricsCollector._counts (metrics lg) !! other) ∧
    trace w' = trace w ++ Emitted id (LogEv entry) ::
      (if _logToConsole lg
       then [if (40 <=? code)%Z
             then Stderr (entryToText entry (_useColor lg) +:+ LF)
             else Stdout (entryToText entry (_useColor lg) +:+ LF)]
       else []) ∧
    RotatingFileWriter._buffer <$> _textWriter lg' =
      (fun b => if _logToFile lg then b ++ [entryToText entry false] else b)
        <$> (RotatingFileWriter._buffer <$> _textWriter lg) ∧
    RotatingFileWriter._buffer <$> _jsonWriter lg' =
      (fun b => if _logToFile lg then b ++ [entryToJson entry] else b)
        <$> (RotatingFileWriter._buffer <$> _jsonWriter lg) ∧
    RotatingFileWriter._buffer <$> _errorWriter lg' =
      (fun b => if _logToFile lg && (40 <=? code)%Z then b ++ [entryToJson entry] else b)
        <$> (RotatingFileWriter._buffer <$> _errorWriter lg).
Proof.
  intros Hlg Hcode Hle Hrules Hlisten Hwr.
  pose proof (write_plain fuel id levelName msg meta w lg code
                Hlg Hcode Hle Hrules Hlisten Hwr) as Hrun.
  set (entry := buildEntry (clock (ticks w)) code levelName msg meta (Some (_context lg))) in *.
  assert (Hlt : id < length (heap w)) by (by eapply lookup_lt).
  eexists _, _. split; [exact Hrun|]. split.
  { apply lookup_put. by rewrite heap_console, heap_record, heap_tick. }
  split.
  { intros other Hne. rewrite lookup_put_ne by done.
    by rewrite heap_console, heap_record, heap_tick. }
  split.
  { rewrite ticks_put. unfold console.
    by destruct (_logToConsole lg), (40 <=? code)%Z. }
  cbv zeta. fold entry.
  assert (Hfields :
    _ring (logged levelName (40 <=? code)%Z entry lg) = RingBuffer.push entry (_ring lg) ∧
    metrics (logged levelName (40 <=? code)%Z entry lg)
      = MetricsCollector.incrementLevel levelName (metrics lg)).
  { unfold logged, with_files. by destruct (_logToFile _). }
  destruct Hfields as [Hring Hmetrics].
  split; [done|]. rewrite Hmetrics. split.
  { unfold MetricsCollector.incrementLevel.
    destruct (MetricsCollector._counts (metrics lg) !! levelName) as [n|] eqn:Hn; simpl.
    - by rewrite lookup_insert_eq.
    - by rewrite Hn. }
  split.
  { intros other Hne. unfold MetricsCollector.incrementLevel.
    destruct (MetricsCollector._counts (metrics lg) !! levelName) as [n|] eqn:Hn; simpl;
      [|done]. by rewrite lookup_insert_ne. }
  split.
  { rewrite trace_put, trace_console, trace_record, trace_tick.
    unfold console_effects. rewrite <- app_assoc. simpl.
    by destruct (_logToConsole lg), (40 <=? code)%Z. }
  unfold logged, with_files.
  change (_logToFile (set_metrics _ (set_ring _ lg))) with (_logToFile lg).
  destruct (_logToFile lg) eqn:Hfile; simpl.
  - destruct (Hwr Hfile) as ([tw Htw] & [jw Hjw] & [ew Hew]).
    rewrite Htw, Hjw, Hew. simpl. by destruct (40 <=? code)%Z.
  - by destruct (_textWriter lg), (_jsonWriter lg), (_errorWriter lg).
Qed.

(** X18. What [child] builds: a new logger that takes its context from
    the call, its level, colour and console settings from [extraOpts]
    when given and from the parent otherwise, where a level of 0 (TRACE)
    counts as not given and a ring size of 0 as the default of 500; it
    never has file output or writers of its own, starts with an empty
    ring buffer, no alert rules and one ["log"] listener, the forwarder
    to the parent; the parent only gains the child in its list of
    children.  The call reads the clock once and notifies nothing. *)
Theorem child_inherits_settings_but_not_state (p : nat) (ctx : option string)
    (extra : Opts) (w0 : World) (lp : Logger.t) :
  heap w0 !! p = Some lp →
  ∃ w1 lc,
    child p ctx extra w0 = Ok (length (heap w0), w1) ∧
    heap w1 !! length (heap w0) = Some lc ∧
    heap w1 !! p = Some (set_children (fun cs => cs ++ [length (heap w0)]) lp) ∧
    (∀ other, other ≠ p → other < length (heap w0) → heap w1 !! other = heap w0 !! other) ∧
    ticks w1 = S (ticks w0) ∧ trace w1 = trace w0 ∧
    _context lc = JS.or_str ctx "app" ∧
    _level lc = match opt_level extra with
                | Some n => if (n =? 0)%Z then _level lp else n
                | None => _level lp
                end ∧
    _useColor lc = default (_useColor lp) (opt_color extra) ∧
    _logToConsole lc = default (_logToConsole lp) (opt_console extra) ∧
    _logToFile lc = false ∧
    _textWriter lc = None ∧ _jsonWriter lc = None ∧ _errorWriter lc = None ∧
    _ring lc = RingBuffer.new (match opt_ringSize extra with
                               | Some (S n) => S n
                               | _ => 500
                               end) ∧
    AlertManager._rules (alerts lc) = [] ∧
    metrics lc = MetricsCollector.new (clock (ticks w0)) ∧
    on_log lc = [Forward p] ∧ on_alert lc = [] ∧ _children lc = [].
Proof.
  intros Hlp. rewrite (child_eq p ctx extra w0 lp Hlp).
  assert (Hlt : p < length (heap w0)) by (by eapply lookup_lt).
  eexists _, _. split; [reflexivity|]. split.
  { rewrite lookup_put_ne by lia. apply lookup_put.
    rewrite heap_alloc, length_app. simpl. lia. }
  split.
  { apply lookup_put. rewrite heap_put, length_insert, heap_alloc, length_app. simpl. lia. }
  split.
  { intros other Hne Hold. rewrite !lookup_put_ne by lia.
    exact (lookup_alloc_old _ (tick w0) other Hold). }
  split; [done|]. split; [done|].
  cbn [construct child_opts set_on_log _context _level _useColor _logToConsole _logToFile
       _textWriter _jsonWriter _errorWriter _ring alerts metrics on_log on_alert _children
       opt_context opt_level opt_color opt_console opt_file opt_ringSize JS.defined_or].
  split; [done|].
  repeat split.
  f_equal. unfold JS.or_nat. by destruct (opt_ringSize extra) as [[|n]|].
Qed.

End WriteAndChildFacts.

Section ListenerFacts.
Context `{rt : Runtime}.
Import Logger.

(** X19. No re-entrancy guard: on a logger whose ["log"] listener logs, on
    the same logger, an entry that passes the level check, a write that
    passes the level check never returns: the listener's write notifies
    the listener again, and no bound on the depth of nested calls is
    enough for the call to complete. *)
Theorem logging_from_a_log_listener_never_returns (fuel id : nat) (w : World)
    (lg : Logger.t) (callback : Script) (levelName msg : string) (meta : option Meta)
    (code : Z) :
  heap w !! id = Some lg →
  AlertManager._rules (alerts lg) = [] →
  on_log lg = [OnLog callback] →
  LOG_LEVELS !! levelName = Some code → (_level lg ≤ code)%Z →
  (∀ e, ∃ m mt rest, callback e = CallWrite id levelName m mt :: rest) →
  exec fuel (Write id levelName msg meta) w = OutOfFuel.
Proof.
  intros Hlg Hrules Hlisten Hcode Hle Hcb.
  revert w lg msg meta Hlg Hrules Hlisten Hle.
  induction (lt_wf fuel) as [fuel _ IH]. intros w lg msg meta Hlg Hrules Hlisten Hle.
  destruct fuel as [|f]; [done|].
  change (exec (S f) (Write id levelName msg meta) w)
    with (_write (exec f) id levelName msg meta w).
  rewrite (write_passes _ _ _ _ _ _ lg code Hlg Hcode Hle).
  set (entry := buildEntry (clock (ticks w)) code levelName msg meta (Some (_context lg))).
  set (lgA := set_metrics (MetricsCollector.incrementLevel levelName)
                (set_ring (RingBuffer.push entry) lg)).
  assert (HA : heap (put id lgA (tick w)) !! id = Some lgA)
    by (apply lookup_put; by eapply lookup_lt).
  rewrite (evaluate_no_rules _ _ _ _ lgA HA Hrules). cbn [mbind res_bind].
  destruct f as [|f']; [done|].
  change (exec (S f') (Emit id (LogEv entry)) (put id lgA (tick w)))
    with (emit (exec f') id (LogEv entry) (put id lgA (tick w))).
  unfold emit. rewrite (deref_lookup _ _ _ HA). cbn [mbind res_bind].
  change (on_log lgA) with (on_log lg). rewrite Hlisten. cbn [forEach].
  destruct (Hcb entry) as (m & mt & rest & ->). unfold run_script. cbn [forEach].
  rewrite (IH f' ltac:(lia) _ lgA m mt); [done| | done | done | done].
  rewrite heap_record. exact HA.
Qed.

End ListenerFacts.

Section LoggerTimerFacts.
Context `{rt : Runtime}.
Import Logger.


Lemma incrementLevel_timers levelName m :
  MetricsCollector._timers (MetricsCollector.incrementLevel levelName m)
    = MetricsCollector._timers m ∧
  MetricsCollector._histograms (MetricsCollector.incrementLevel levelName m)
    = MetricsCollector._histograms m.
Proof.
  unfold MetricsCollector.incrementLevel.
  by destruct (MetricsCollector._counts m !! levelName).
Qed.

(** A DEBUG line on a logger without rules and listeners: logged when
    the minimum level lets DEBUG pass, dropped otherwise. *)
Lemma debug_line fuel id msg meta w lg :
  heap w !! id = Some lg →
  AlertManager._rules (alerts lg) = [] → on_log lg = [] → writers_present lg →
  ∃ w' lg',
    debug (S (S fuel)) id msg meta w = Ok w' ∧ heap w' !! id = Some lg' ∧
    _level lg' = _level lg ∧ _context lg' = _context lg ∧
    alerts lg' = alerts lg ∧ on_log lg' = on_log lg ∧ writers_present lg' ∧
    MetricsCollector._timers (metrics lg') = MetricsCollector._timers (metrics lg) ∧
    MetricsCollector._histograms (metrics lg')
      = MetricsCollector._histograms (metrics lg) ∧
    ((_level lg ≤ 10)%Z →
       ticks w' = S (ticks w) ∧
       _ring lg' = RingBuffer.push
         (buildEntry (clock (ticks w)) 10 "DEBUG" msg meta (Some (_context lg))) (_ring lg)) ∧
    ((10 < _level lg)%Z → w' = w ∧ lg' = lg).
Proof.
  intros Hlg Hrules Hlisten Hwr. unfold debug.
  destruct (Z.le_gt_cases (_level lg) 10) as [Hle|Hgt].
  - rewrite (write_plain fuel id "DEBUG" msg meta w lg 10%Z Hlg LOG_LEVELS_DEBUG
               Hle Hrules Hlisten Hwr).
    set (entry := buildEntry (clock (ticks w)) 10 "DEBUG" msg meta (Some (_context lg))).
    destruct (logged_fields "DEBUG" (40 <=? 10)%Z entry lg)
      as (Hl & Hc & Ha & Ho & Hr & Hm).
    destruct (incrementLevel_timers "DEBUG" (metrics lg)) as [Ht Hh].
    eexists _, _. split; [reflexivity|]. split.
    { apply lookup_put. rewrite heap_console, heap_record, heap_tick. by eapply lookup_lt. }
    split; [done|]. split; [done|]. split; [done|]. split; [done|].
    split; [by apply writers_present_logged|].
    split; [by rewrite Hm|]. split; [by rewrite Hm|]. split.
    + intros _. split; [|done]. rewrite ticks_put. unfold console.
      by destruct (_logToConsole lg), (40 <=? 10)%Z.
    + intros ?. lia.
  - exists w, lg. split.
    { apply (write_dropped _ _ _ _ _ _ lg); [done|].
      intros c. rewrite LOG_LEVELS_DEBUG. intros [= <-]. lia. }
    split; [done|]. split; [done|]. split; [done|]. split; [done|]. split; [done|].
    split; [done|]. split; [done|]. split; [done|]. split; [intros ?; lia | done].
Qed.

(** X20. The timer helpers of the logger, on a logger without alert rules
    and without ["log"] listeners.  For a name that objects do not
    inherit, [startTimer] then [endTimer] return the difference between
    the clock reading of the end and that of the start, record it as a
    sample of the timer and forget the start, so that a further
    [endTimer] returns null and changes nothing, not even the clock.
    When the minimum level lets DEBUG pass, each of the two calls also
    logs one DEBUG entry, and the entry logged by [startTimer] reads the
    clock between the two instants; with a higher minimum level nothing
    is logged.  For a name that objects inherit, such as ["constructor"],
    [startTimer] completes and [endTimer] then throws. *)
Theorem logger_timer_measures_between_its_clock_readings (fuel id : nat)
    (name : string) (w : World) (lg : Logger.t) :
  heap w !! id = Some lg →
  AlertManager._rules (alerts lg) = [] → on_log lg = [] → writers_present lg →
  clock (ticks w) ≠ 0%Z →
  (Dict.Object_prototype !! name = None →
   ∃ w1 w2 lg2,
     startTimer (S (S fuel)) id name w = Ok w1 ∧
     endTimer (S (S fuel)) id name w1
       = Ok (Some (clock (ticks w1) - clock (ticks w))%Z, w2) ∧
     heap w2 !! id = Some lg2 ∧
     MetricsCollector._timers (metrics lg2) !! name = None ∧
     MetricsCollector._histograms (metrics lg2) !! name
       = Some (default [] (MetricsCollector._histograms (metrics lg) !! name)
               ++ [(clock (ticks w1) - clock (ticks w))%Z]) ∧
     endTimer (S (S fuel)) id name w2 = Ok (None, w2) ∧
     ((_level lg ≤ 10)%Z →
        ticks w1 = S (S (ticks w)) ∧ ticks w2 = S (S (ticks w1)) ∧
        _ring lg2 =
          RingBuffer.push
            (buildEntry (clock (S (ticks w1))) 10 "DEBUG" ("Timer ended: " +:+ name)
               (Some (meta_ms (clock (ticks w1) - clock (ticks w)))) (Some (_context lg)))
            (RingBuffer.push
               (buildEntry (clock (S (ticks w))) 10 "DEBUG" ("Timer started: " +:+ name)
                  None (Some (_context lg)))
               (_ring lg))) ∧
     ((10 < _level lg)%Z →
        ticks w1 = S (ticks w) ∧ ticks w2 = S (ticks w1) ∧
        _ring lg2 = _ring lg ∧ trace w2 = trace w)) ∧
  (∀ member,
     Dict.Object_prototype !! name = Some member →
     MetricsCollector._histograms (metrics lg) !! name = None →
     ∃ w1, startTimer (S (S fuel)) id name w = Ok w1 ∧
           endTimer (S (S fuel)) id name w1 = Throw "TypeError").
Proof.
  intros Hlg Hrules Hlisten Hwr Ht0.
  set (t0 := clock (ticks w)) in *.
  set (lgT := set_metrics (MetricsCollector.startTimer t0 name) lg).
  set (wT := put id lgT (tick w)).
  assert (Hlt : id < length (heap w)) by (by eapply lookup_lt).
  assert (HT : heap wT !! id = Some lgT) by (by apply lookup_put).
  destruct (debug_line fuel id ("Timer started: " +:+ name) None wT lgT HT Hrules Hlisten Hwr)
    as (w1 & lg1 & Hd1 & H1 & Hl1 & Hc1 & Ha1 & Ho1 & Hwr1 & Htm1 & Hh1 & Hpass1 & Hdrop1).
  assert (Hstart : startTimer (S (S fuel)) id name w = Ok w1).
  { unfold startTimer, Date_now. cbv beta iota.
    rewrite (modify_lookup id _ (tick w) lg) by done. cbn [mbind res_bind]. exact Hd1. }
  set (t1 := clock (ticks w1)).
  split.
  - intros Hname.
    assert (Hnp : name ≠ "__proto__") by (intros ->; done).
    assert (Hstarted : MetricsCollector._timers (metrics lg1) !! name = Some t0).
    { rewrite Htm1. simpl. apply dict_set_lookup. by left. }
    pose proof (endTimer_started t1 name (metrics lg1) t0 Hstarted Ht0 (or_intror Hname))
      as Hend1.
    set (m2 := {| MetricsCollector._startedAt := MetricsCollector._startedAt (metrics lg1);
                  MetricsCollector._counts := MetricsCollector._counts (metrics lg1);
                  MetricsCollector._timers := delete name (MetricsCollector._timers (metrics lg1));
                  MetricsCollector._gauges := MetricsCollector._gauges (metrics lg1);
                  MetricsCollector._histograms :=
                    <[name := default [] (MetricsCollector._histograms (metrics lg1) !! name)
                              ++ [(t1 - t0)%Z]]> (MetricsCollector._histograms (metrics lg1)) |})
      in *.
    assert (Htimer2 : MetricsCollector._timers m2 !! name = None)
      by (simpl; by rewrite lookup_delete_eq).
    assert (Hhist2 : MetricsCollector._histograms m2 !! name
              = Some (default [] (MetricsCollector._histograms (metrics lg) !! name)
                      ++ [(t1 - t0)%Z])).
    { simpl. rewrite lookup_insert_eq. by rewrite Hh1. }
    set (lgE := set_metrics (fun _ => m2) lg1).
    set (wE := put id lgE (tick w1)).
    assert (Hlt1 : id < length (heap w1)) by (by eapply lookup_lt).
    assert (HE : heap wE !! id = Some lgE) by (by apply lookup_put).
    destruct (debug_line fuel id ("Timer ended: " +:+ name) (Some (meta_ms (t1 - t0))) wE lgE HE)
      as (w2 & lg2 & Hd2 & H2 & Hl2 & Hc2 & Ha2 & Ho2 & Hwr2 & Htm2 & Hh2 & Hpass2 & Hdrop2).
    { change (alerts lgE) with (alerts lg1). by rewrite Ha1. }
    { change (on_log lgE) with (on_log lg1). by rewrite Ho1. }
    { done. }
    exists w1, w2, lg2. split; [done|]. split.
    { unfold endTimer. rewrite (deref_lookup _ _ _ H1). cbn [mbind res_bind].
      fold t1. rewrite Hend1. cbn [mbind res_bind].
      rewrite (modify_lookup id _ (tick w1) lg1) by done. cbn [mbind res_bind].
      fold lgE wE. rewrite Hd2. done. }
    split; [done|]. split; [by rewrite Htm2|]. split; [by rewrite Hh2|]. split.
    { unfold endTimer. rewrite (deref_lookup _ _ _ H2). cbn [mbind res_bind].
      rewrite endTimer_not_started; [done | | done]. by rewrite Htm2. }
    change (_level lgT) with (_level lg) in *. change (_context lgT) with (_context lg) in *.
    change (_level lgE) with (_level lg1) in *. change (_context lgE) with (_context lg1) in *.
    split.
    + intros Hle. destruct (Hpass1 Hle) as [Htick1 Hring1].
      destruct Hpass2 as [Htick2 Hring2]; [lia|].
      split; [done|]. split; [done|].
      rewrite Hring2. change (_ring lgE) with (_ring lg1). rewrite Hring1, Hc1.
      done.
    + intros Hgt. destruct (Hdrop1 Hgt) as [-> ->].
      destruct Hdrop2 as [-> ->]; [lia|]. done.
  - intros member Hname Hhist. exists w1. split; [done|].
    unfold endTimer. rewrite (deref_lookup _ _ _ H1). cbn [mbind res_bind].
    fold t1. rewrite (endTimer_inherited t1 name (metrics lg1) member); [done | done | |].
    + by rewrite Hh1.
    + rewrite Htm1. simpl. intros start Hset. by apply dict_set_stored in Hset as ->.
Qed.

End LoggerTimerFacts.

Section GrandchildFacts.
Context `{rt : Runtime}.
Import Logger.

(** The forwarding listener on a logger that forwards to one logger,
    which forwards to no one. *)
Lemma forward_chain fuel p g entry w lp lg :
  heap w !! p = Some lp → heap w !! g = Some lg →
  quiet lp → quiet lg → forwards lp = [g] → forwards lg = [] →
  writers_present lp → writers_present lg →
  ∃ am_p tr_p k_p am_g tr_g k_g,
    forward (exec (S (S fuel))) p entry w =
      Ok {| heap := <[g := received am_g entry lg]>
                      (<[p := received am_p entry lp]> (heap w));
            ticks := k_g + (k_p + ticks w);
            trace := trace w ++ tr_p ++ [Emitted p (LogEv entry)]
                       ++ tr_g ++ [Emitted g (LogEv entry)] |} ∧
    AlertManager._rules am_p = AlertManager._rules (alerts lp) ∧
    AlertManager._rules am_g = AlertManager._rules (alerts lg) ∧
    Forall (alert_effect p) tr_p ∧ Forall (alert_effect g) tr_g ∧
    (AlertManager._rules (alerts lp) = [] → tr_p = [] ∧ k_p = 0) ∧
    (AlertManager._rules (alerts lg) = [] → tr_g = [] ∧ k_g = 0).
Proof.
  intros Hlp Hlg Hqp Hqg Hfp Hfg Hwp Hwg.
  assert (Hpg : p ≠ g).
  { intros ->. rewrite Hlp in Hlg. injection Hlg as ->. by rewrite Hfg in Hfp. }
  assert (Hltp : p < length (heap w)) by (by eapply lookup_lt).
  assert (Hltg : g < length (heap w)) by (by eapply lookup_lt).
  destruct (forward_quiet (S fuel) p entry w lp Hlp Hqp Hwp)
    as (am_p & tr_p & k_p & Hrules_p & Htr_p & Hnone_p & _ & _ & Hrun).
  set (lpE := set_alerts (fun _ => am_p)
                (set_metrics (MetricsCollector.incrementLevel (Entry.level entry))
                   (set_ring (RingBuffer.push entry) lp))) in *.
  set (wP := {| heap := <[p := lpE]> (heap w); ticks := k_p + ticks w;
                trace := trace w ++ tr_p ++ [Emitted p (LogEv entry)] |}) in *.
  assert (HPg : heap wP !! g = Some lg).
  { unfold wP. simpl. by rewrite list_lookup_insert_ne. }
  destruct (forward_root fuel g entry wP lg HPg Hqg Hfg Hwg)
    as (am_g & tr_g & k_g & Hfwd & Hrules_g & Htr_g & Hnone_g & _ & _).
  exists am_p, tr_p, k_p, am_g, tr_g, k_g.
  split; [|done].
  rewrite Hfp in Hrun. cbn [forEach] in Hrun. rewrite Hfwd in Hrun.
  cbn [mbind res_bind forEach] in Hrun.
  erewrite Hrun; [|reflexivity|].
  - f_equal. unfold put, wP. simpl.
    rewrite (list_insert_insert_ne _ p g) by done.
    rewrite list_insert_insert_eq. by rewrite <- !app_assoc.
  - simpl. rewrite list_lookup_insert_ne by done.
    apply list_lookup_insert_eq. done.
Qed.

Lemma alert_effects_unseen id tr :
  Forall (alert_effect id) tr → notified tr = [] ∧ printed tr = [].
Proof.
  induction 1 as [|eff tr Heff _ [IH1 IH2]]; [done|].
  destruct eff as [i [e|r e]| | |]; try done.
Qed.

Lemma console_effects_printed l code entry :
  notified (console_effects l code entry) = [] ∧
  printed (console_effects l code entry) =
    if _logToConsole l then [entryToText entry (_useColor l) +:+ LF] else [].
Proof. unfold console_effects. by destruct (_logToConsole l), (40 <=? code)%Z. Qed.

Lemma received_without_files am' entry l :
  _logToFile l = false →
  received am' entry l =
    set_alerts (fun _ => am')
      (set_metrics (MetricsCollector.incrementLevel (Entry.level entry))
         (set_ring (RingBuffer.push entry) l)).
Proof.
  intros Hf. unfold received, with_files.
  change (_logToFile (set_alerts _ (set_metrics _ (set_ring _ l)))) with (_logToFile l).
  by rewrite Hf.
Qed.

(** X21. Entries travel up the whole chain of parents.  For any state
    in which logger [c] forwards to [p], [p] to [g] and [g] to no one,
    the two forwarding loggers have no file output, as the loggers
    [child] makes, and the callbacks of the three do not log: an entry
    that [c] accepts is pushed on the ring buffers of [c], of [p] and
    of [g], each holding the last entries up to its capacity; it is
    counted once in each of the three collectors; it is notified as
    ["log"] on [c], then [p], then [g], with nothing but the alerts and
    handler calls of each logger before its notification; it is
    appended to the writers of [g] (the errors-only writer from ERROR
    up) while the writers of [c] and [p] stay as they were; and it is
    printed once, by [c], when the console output of [c] is on. *)
Theorem grandchild_entry_reaches_every_ancestor (fuel g p c : nat) (w : World)
    (lg lp lc : Logger.t) (levelName msg : string) (meta : option Meta) (code : Z)
    (n_c n_p n_g : Z) (N_c N_p N_g : nat) (held_c held_p held_g : list Entry.t) :
  heap w !! g = Some lg → heap w !! p = Some lp → heap w !! c = Some lc →
  forwards lc = [p] → forwards lp = [g] → forwards lg = [] →
  quiet lc → quiet lp → quiet lg →
  _logToFile lc = false → _logToFile lp = false → writers_present lg →
  1 ≤ N_c → ring_inv N_c (_ring lc) held_c →
  1 ≤ N_p → ring_inv N_p (_ring lp) held_p →
  1 ≤ N_g → ring_inv N_g (_ring lg) held_g →
  MetricsCollector._counts (metrics lc) !! levelName = Some n_c →
  MetricsCollector._counts (metrics lp) !! levelName = Some n_p →
  MetricsCollector._counts (metrics lg) !! levelName = Some n_g →
  LOG_LEVELS !! levelName = Some code → (_level lc ≤ code)%Z →
  ∃ w' lc' lp' lg' tr_c tr_p tr_g,
    exec (S (S (S (S fuel)))) (Write c levelName msg meta) w = Ok w' ∧
    heap w' !! c = Some lc' ∧ heap w' !! p = Some lp' ∧ heap w' !! g = Some lg' ∧
    (∀ other, other ≠ c → other ≠ p → other ≠ g → heap w' !! other = heap w !! other) ∧
    let entry := buildEntry (clock (ticks w)) code levelName msg meta
                   (Some (_context lc)) in
    RingBuffer.toArray (_ring lc') = lastN N_c (held_c ++ [entry]) ∧
    RingBuffer.toArray (_ring lp') = lastN N_p (held_p ++ [entry]) ∧
    RingBuffer.toArray (_ring lg') = lastN N_g (held_g ++ [entry]) ∧
    MetricsCollector._counts (metrics lc') =
      <[levelName := (n_c + 1)%Z]> (MetricsCollector._counts (metrics lc)) ∧
    MetricsCollector._counts (metrics lp') =
      <[levelName := (n_p + 1)%Z]> (MetricsCollector._counts (metrics lp)) ∧
    MetricsCollector._counts (metrics lg') =
      <[levelName := (n_g + 1)%Z]> (MetricsCollector._counts (metrics lg)) ∧
    trace w' = trace w ++ tr_c ++ [Emitted c (LogEv entry)]
                 ++ tr_p ++ [Emitted p (LogEv entry)]
                 ++ tr_g ++ [Emitted g (LogEv entry)]
                 ++ console_effects lc code entry ∧
    Forall (alert_effect c) tr_c ∧ Forall (alert_effect p) tr_p ∧
    Forall (alert_effect g) tr_g ∧
    (AlertManager._rules (alerts lc) = [] → tr_c = []) ∧
    (AlertManager._rules (alerts lp) = [] → tr_p = []) ∧
    (AlertManager._rules (alerts lg) = [] → tr_g = []) ∧
    notified (trace w') = notified (trace w) ++ [(c, entry); (p, entry); (g, entry)] ∧
    printed (trace w') =
      printed (trace w) ++
      (if _logToConsole lc then [entryToText entry (_useColor lc) +:+ LF] else []) ∧
    _textWriter lc' = _textWriter lc ∧ _jsonWriter lc' = _jsonWriter lc ∧
    _errorWriter lc' = _errorWriter lc ∧
    _textWriter lp' = _textWriter lp ∧ _jsonWriter lp' = _jsonWriter lp ∧
    _errorWriter lp' = _errorWriter lp ∧
    RotatingFileWriter._buffer <$> _textWriter lg' =
      (fun b => if _logToFile lg then b ++ [entryToText entry false] else b)
        <$> (RotatingFileWriter._buffer <$> _textWriter lg) ∧
    RotatingFileWriter._buffer <$> _jsonWriter lg' =
      (fun b => if _logToFile lg then b ++ [entryToJson entry] else b)
        <$> (RotatingFileWriter._buffer <$> _jsonWriter lg) ∧
    RotatingFileWriter._buffer <$> _errorWriter lg' =
      (fun b => if _logToFile lg && (40 <=? code)%Z
                then b ++ [entryToJson entry] else b)
        <$> (RotatingFileWriter._buffer <$> _errorWriter lg).
Proof.
  intros Hlg Hlp Hlc Hfc Hfp Hfg Hqc Hqp Hqg Hfile_c Hfile_p Hwg
    HNc Hinv_c HNp Hinv_p HNg Hinv_g Hn_c Hn_p Hn_g Hcode Hle.
  assert (Hpg : p ≠ g).
  { intros ->. rewrite Hlp in Hlg. injection Hlg as ->. by rewrite Hfg in Hfp. }
  assert (Hcp : c ≠ p).
  { intros ->. rewrite Hlp in Hlc. injection Hlc as ->. rewrite Hfp in Hfc.
    injection Hfc as ->. done. }
  assert (Hcg : c ≠ g).
  { intros ->. rewrite Hlg in Hlc. injection Hlc as ->. by rewrite Hfg in Hfc. }
  assert (Hwp : writers_present lp) by (intros H; by rewrite Hfile_p in H).
  set (entry := buildEntry (clock (ticks w)) code levelName msg meta (Some (_context lc))).
  assert (Hlev : Entry.level entry = levelName) by done.
  destruct (write_quiet (S (S fuel)) c levelName msg meta w lc code
              Hlc Hqc Hfile_c Hcode Hle)
    as (am_c & tr_c & k_c & Hrules_c & Htr_c & Hnone_c & Hrun).
  fold entry in Hrun.
  assert (HlcE : set_alerts (fun _ => am_c)
                   (set_metrics (MetricsCollector.incrementLevel levelName)
                      (set_ring (RingBuffer.push entry) lc)) = received am_c entry lc)
    by exact (eq_sym (received_without_files am_c entry lc Hfile_c)).
  rewrite HlcE in Hrun.
  set (wC := {| heap := <[c := received am_c entry lc]> (heap w);
                ticks := k_c + S (ticks w);
                trace := trace w ++ tr_c ++ [Emitted c (LogEv entry)] |}) in *.
  assert (HCp : heap wC !! p = Some lp).
  { unfold wC. simpl. by rewrite list_lookup_insert_ne. }
  assert (HCg : heap wC !! g = Some lg).
  { unfold wC. simpl. by rewrite list_lookup_insert_ne. }
  destruct (forward_chain fuel p g entry wC lp lg HCp HCg Hqp Hqg Hfp Hfg Hwp Hwg)
    as (am_p & tr_p & k_p & am_g & tr_g & k_g & Hfwd & _ & _ & Htr_p & Htr_g
        & Hnone_p & Hnone_g).
  rewrite Hfc in Hrun. cbn [forEach] in Hrun. rewrite Hfwd in Hrun.
  cbn [mbind res_bind forEach] in Hrun.
  assert (Hltc : c < length (heap w)) by (by eapply lookup_lt).
  assert (Hltp : p < length (heap w)) by (by eapply lookup_lt).
  assert (Hltg : g < length (heap w)) by (by eapply lookup_lt).
  destruct (received_holds am_c entry lc N_c held_c n_c HNc Hinv_c) as (_ & Harr_c & Hcnt_c);
    [by rewrite Hlev|].
  destruct (received_holds am_p entry lp N_p held_p n_p HNp Hinv_p) as (_ & Harr_p & Hcnt_p);
    [by rewrite Hlev|].
  destruct (received_holds am_g entry lg N_g held_g n_g HNg Hinv_g) as (_ & Harr_g & Hcnt_g);
    [by rewrite Hlev|].
  destruct (received_buffers am_g entry lg Hwg) as (_ & Htext & Hjson & Herror).
  rewrite Hlev in Hcnt_c, Hcnt_p, Hcnt_g, Herror. rewrite Hcode in Herror.
  change (JS.ge (Some code) (LOG_LEVELS !! "ERROR")) with (40 <=? code)%Z in Herror.
  destruct (alert_effects_unseen _ _ Htr_c) as [Hnc Hpc].
  destruct (alert_effects_unseen _ _ Htr_p) as [Hnp Hpp].
  destruct (alert_effects_unseen _ _ Htr_g) as [Hng Hpg'].
  destruct (console_effects_printed lc code entry) as [Hncon Hpcon].
  eexists _, (received am_c entry lc), (received am_p entry lp), (received am_g entry lg),
    tr_c, tr_p, tr_g.
  split; [exact Hrun|].
  split.
  { rewrite heap_console. simpl. rewrite !list_lookup_insert_ne by done.
    by apply list_lookup_insert_eq. }
  split.
  { rewrite heap_console. simpl. rewrite list_lookup_insert_ne by done.
    apply list_lookup_insert_eq. by rewrite length_insert. }
  split.
  { rewrite heap_console. simpl. apply list_lookup_insert_eq.
    by rewrite !length_insert. }
  split.
  { intros other H1 H2 H3. rewrite heap_console. simpl.
    by rewrite !list_lookup_insert_ne. }
  cbv zeta.
  split; [done|]. split; [done|]. split; [done|].
  split; [done|]. split; [done|]. split; [done|].
  assert (Htrace : trace (console lc code entry
                            {| heap := <[g := received am_g entry lg]>
                                         (<[p := received am_p entry lp]> (heap wC));
                               ticks := k_g + (k_p + ticks wC);
                               trace := trace wC ++ tr_p ++ [Emitted p (LogEv entry)]
                                          ++ tr_g ++ [Emitted g (LogEv entry)] |}) =
                   trace w ++ tr_c ++ [Emitted c (LogEv entry)]
                     ++ tr_p ++ [Emitted p (LogEv entry)]
                     ++ tr_g ++ [Emitted g (LogEv entry)]
                     ++ console_effects lc code entry).
  { rewrite trace_console. unfold wC. simpl. by rewrite <- ?app_assoc, <- ?app_comm_cons, <- ?app_assoc. }
  split; [exact Htrace|].
  split; [done|]. split; [done|]. split; [done|].
  split; [intros H; by destruct (Hnone_c H)|].
  split; [intros H; by destruct (Hnone_p H)|].
  split; [intros H; by destruct (Hnone_g H)|].
  split.
  { rewrite Htrace. unfold notified in *. rewrite !omap_app, Hnc, Hnp, Hng, Hncon.
    simpl. done. }
  split.
  { rewrite Htrace. unfold printed in *. rewrite !omap_app, Hpc, Hpp, Hpg', Hpcon.
    done. }
  rewrite !(received_without_files _ _ _ Hfile_c), !(received_without_files _ _ _ Hfile_p).
  done.
Qed.
End GrandchildFacts.

Section RoundTripFacts.
Context `{rt : Runtime}.
Import Logger.

Lemma query_no_filter rb : RingBuffer.query no_filter rb = RingBuffer.toArray rb.
Proof.
  change (RingBuffer.query no_filter rb) with (RingBuffer.scan no_filter (RingBuffer.toArray rb)).
  rewrite scan_filter. induction (RingBuffer.toArray rb) as [|e l IH]; [done|].
  rewrite filter_cons. rewrite decide_True by done. by rewrite IH.
Qed.

Lemma logAll_ring fuel id N calls :
  1 ≤ N →
  ∀ w lg items,
    heap w !! id = Some lg →
    AlertManager._rules (alerts lg) = [] → on_log lg = [] → writers_present lg →
    ring_inv N (_ring lg) (lastN N items) →
    Forall (fun c => ∃ code, LOG_LEVELS !! c.1.1 = Some code ∧ (_level lg ≤ code)%Z) calls →
    ∃ w' lg' entries,
      logAll (S (S fuel)) id calls w = Ok w' ∧ heap w' !! id = Some lg' ∧
      ring_inv N (_ring lg') (lastN N (items ++ entries)) ∧
      (fun e => (Entry.level e, Entry.message e, Entry.meta e)) <$> entries
        = (fun c => (c.1.1, truncateMessage c.1.2 4096, c.2)) <$> calls ∧
      Forall (fun e => Entry.context e = JS.or_str (Some (_context lg)) "app") entries.
Proof.
  intros HN. induction calls as [|[[levelName msg] meta] calls IH];
    intros w lg items Hlg Hrules Hlisten Hwr Hring Hcalls.
  - exists w, lg, []. rewrite app_nil_r.
    split; [done|]. split; [done|]. split; [done|]. split; [done | constructor].
  - apply Forall_cons in Hcalls as [(code & Hcode & Hle) Hcalls]. simpl in Hcode, Hle.
    unfold logAll. cbn [forEach]. fold (logAll (S (S fuel)) id calls).
    rewrite (write_plain fuel id levelName msg meta w lg code Hlg Hcode Hle Hrules
               Hlisten Hwr).
    cbn [mbind res_bind].
    set (entry := buildEntry (clock (ticks w)) code levelName msg meta (Some (_context lg))).
    set (lg1 := logged levelName (40 <=? code)%Z entry lg).
    destruct (logged_fields levelName (40 <=? code)%Z entry lg)
      as (Hl & Hc & Ha & Ho & Hr & Hm).
    fold lg1 in Hl, Hc, Ha, Ho, Hr, Hm.
    destruct (IH (put id lg1 (console lg code entry
                                (record (Emitted id (LogEv entry)) (tick w))))
                lg1 (items ++ [entry]))
      as (w' & lg' & entries & Hrun & Hlg' & Hring' & Hsum & Hctx).
    + apply lookup_put. rewrite heap_console, heap_record, heap_tick. by eapply lookup_lt.
    + by rewrite Ha.
    + by rewrite Ho.
    + by apply writers_present_logged.
    + rewrite Hr, lastN_snoc. by apply ring_inv_push.
    + by rewrite Hl.
    + exists w', lg', (entry :: entries). split; [done|]. split; [done|].
      split; [by rewrite <- app_assoc in Hring'|]. split.
      * rewrite !fmap_cons. by rewrite Hsum.
      * constructor; [done|]. by rewrite Hc in Hctx.
Qed.

(** X22. What was logged can be queried back: on a new logger, after any
    sequence of calls whose levels pass the minimum level, [query] with
    an empty filter returns one entry per call for the most recent
    calls, as many as the ring size (2000 when the size is absent or 0),
    oldest first, each with the level, the message (truncated to 4096
    characters) and the meta of its call and with the context of the
    logger. *)
Theorem logged_entries_can_be_queried_back (fuel : nat) (opts : Opts) (w0 : World)
    (calls : list (string * string * option Meta)) :
  Forall (fun c => ∃ code, LOG_LEVELS !! c.1.1 = Some code ∧
                           (JS.defined_or (opt_level opts) 10 ≤ code)%Z) calls →
  ∃ w' entries,
    logAll (S (S fuel)) (new opts w0).1 calls (new opts w0).2 = Ok w' ∧
    query (new opts w0).1 no_filter w' = Ok entries ∧
    (fun e => (Entry.level e, Entry.message e, Entry.meta e)) <$> entries
      = lastN (JS.or_nat (opt_ringSize opts) 2000)
          ((fun c => (c.1.1, truncateMessage c.1.2 4096, c.2)) <$> calls) ∧
    Forall (fun e => Entry.context e = JS.or_str (opt_context opts) "app") entries.
Proof.
  intros Hcalls. rewrite new_eq. simpl fst. simpl snd.
  set (N := JS.or_nat (opt_ringSize opts) 2000).
  assert (HN : 1 ≤ N) by (apply or_nat_positive; lia).
  set (lg0 := construct opts (clock (ticks w0))).
  destruct (logAll_ring fuel (length (heap w0)) N calls HN
              (alloc lg0 (tick w0)) lg0 [])
    as (w' & lg' & entries & Hrun & Hlg' & Hring & Hsum & Hctx).
  - apply (lookup_alloc lg0 (tick w0)).
  - done.
  - done.
  - apply construct_writers_present.
  - by apply ring_inv_new.
  - done.
  - simpl in Hring.
    exists w', (lastN N entries). split; [done|]. split; [|split].
    + unfold query. rewrite (deref_lookup _ _ _ Hlg'). cbn [mbind res_bind].
      rewrite query_no_filter. f_equal. by apply (ring_inv_toArray N).
    + assert (Hlen : length entries = length calls).
      { apply (f_equal length) in Hsum. by rewrite !length_fmap in Hsum. }
      unfold lastN. by rewrite fmap_drop, Hsum, length_fmap, Hlen.
    + unfold lastN. apply Forall_drop.
      eapply Forall_impl; [exact Hctx|]. intros e ->. simpl.
      apply or_str_or_str. done.
Qed.

End RoundTripFacts.


(** ** The exit hook *)

Section ExitFacts.
Context `{rt : Runtime}.
Import Logger.

Lemma flush_queue (wr : RotatingFileWriter.t) (d : RotatingFileWriter.Disk) :
  ∃ d', RotatingFileWriter.flush wr d = Some (drained wr, d') ∧
        RotatingFileWriter.in_flight d' = RotatingFileWriter.in_flight d ++ queued wr.
Proof.
  destruct (flush_result wr d) as (d' & Hflush & Hempty & Hfull).
  exists d'. split; [done|]. unfold queued.
  destruct (decide (RotatingFileWriter._buffer wr = [])) as [He|Hne].
  - rewrite (Hempty He). by rewrite app_nil_r.
  - destruct (Hfull Hne) as (d_mid & Hmid & ->). simpl. f_equal.
    destruct (RotatingFileWriter.size_reaches _ _ d).
    + destruct (rotate_total wr d) as (dr & Hrot & Hfl & _). congruence.
    + congruence.
Qed.

Lemma flush_files_spec id w d lg tw jw ew :
  heap w !! id = Some lg →
  _textWriter lg = Some tw → _jsonWriter lg = Some jw → _errorWriter lg = Some ew →
  ∃ d',
    flush_files id w d =
      Ok (put id (set_writers (Some (drained tw)) (Some (drained jw)) (Some (drained ew)) lg) w,
          d') ∧
    RotatingFileWriter.in_flight d' =
      RotatingFileWriter.in_flight d ++ queued tw ++ queued jw ++ queued ew.
Proof.
  intros Hlg Ht Hj He. unfold flush_files. rewrite (deref_lookup _ _ _ Hlg).
  cbn [mbind res_bind]. rewrite Ht, Hj, He. unfold flush_writer.
  destruct (flush_queue tw d) as (d1 & -> & Hq1). cbn [mbind res_bind].
  destruct (flush_queue jw d1) as (d2 & -> & Hq2). cbn [mbind res_bind].
  destruct (flush_queue ew d2) as (d3 & -> & Hq3). cbn [mbind res_bind].
  exists d3. split; [done|]. rewrite Hq3, Hq2, Hq1. by rewrite <- !app_assoc.
Qed.

(** X23. At exit nothing stays in the buffers.  On a logger with file
    output, without alert rules and ["log"] listeners, the exit hook
    first logs its own INFO entry (when the minimum level lets INFO
    pass) and then flushes the three writers in the order text,
    structured, errors: every buffer is left empty, and the appends
    queued are, in that order, one per writer with a non-empty buffer,
    each holding all the lines of that buffer, the exit line last in the
    text and structured ones.  Without file output the file system is
    not touched. *)
Theorem exit_hook_flushes_every_buffered_line (fuel id : nat) (code : Z) (w : World)
    (d : RotatingFileWriter.Disk) (lg : Logger.t) :
  heap w !! id = Some lg →
  AlertManager._rules (alerts lg) = [] → on_log lg = [] → writers_present lg →
  (_logToFile lg = false →
     ∃ w', _onExit (S (S fuel)) id code w d = Ok (w', d)) ∧
  (∀ tw jw ew,
     _logToFile lg = true →
     _textWriter lg = Some tw → _jsonWriter lg = Some jw → _errorWriter lg = Some ew →
     ∃ w' d' lg',
       _onExit (S (S fuel)) id code w d = Ok (w', d') ∧
       heap w' !! id = Some lg' ∧
       RotatingFileWriter._buffer <$> _textWriter lg' = Some [] ∧
       RotatingFileWriter._buffer <$> _jsonWriter lg' = Some [] ∧
       RotatingFileWriter._buffer <$> _errorWriter lg' = Some [] ∧
       let entry := buildEntry (clock (ticks w)) 20 "INFO" "Process exiting"
                      (Some (meta_code code)) (Some (_context lg)) in
       ((_level lg ≤ 20)%Z →
          RotatingFileWriter.in_flight d' =
            RotatingFileWriter.in_flight d ++
            [(RotatingFileWriter.filePath tw,
              unlines (RotatingFileWriter._buffer tw ++ [entryToText entry false]));
             (RotatingFileWriter.filePath jw,
              unlines (RotatingFileWriter._buffer jw ++ [entryToJson entry]))] ++
            queued ew) ∧
       ((20 < _level lg)%Z →
          RotatingFileWriter.in_flight d' =
            RotatingFileWriter.in_flight d ++ queued tw ++ queued jw ++ queued ew)).
Proof.
  intros Hlg Hrules Hlisten Hwr.
  assert (Hinfo : LOG_LEVELS !! "INFO" = Some 20%Z) by reflexivity.
  assert (Hlt : id < length (heap w)) by (by eapply lookup_lt).
  assert (Hdrop : (20 < _level lg)%Z →
            exec (S (S fuel)) (Write id "INFO" "Process exiting" (Some (meta_code code))) w
            = Ok w).
  { intros Hgt. apply (write_dropped _ _ _ _ _ _ lg); [done|].
    intros c. rewrite Hinfo. intros [= <-]. lia. }
  split.
  - intros Hfile. unfold _onExit, info.
    destruct (Z.le_gt_cases (_level lg) 20) as [Hle|Hgt].
    + rewrite (write_plain fuel id "INFO" _ _ w lg 20%Z Hlg Hinfo Hle Hrules Hlisten Hwr).
      cbn [mbind res_bind].
      erewrite deref_lookup;
        [|apply lookup_put; by rewrite heap_console, heap_record, heap_tick].
      cbn [mbind res_bind]. unfold logged, with_files.
      change (_logToFile (set_metrics _ (set_ring _ lg))) with (_logToFile lg).
      rewrite Hfile. simpl. rewrite Hfile. by eexists.
    + rewrite (Hdrop Hgt).
      cbn [mbind res_bind]. rewrite (deref_lookup _ _ _ Hlg). cbn [mbind res_bind].
      rewrite Hfile. by eexists.
  - intros tw jw ew Hfile Ht Hj He. unfold _onExit, info.
    destruct (Z.le_gt_cases (_level lg) 20) as [Hle|Hgt].
    + rewrite (write_plain fuel id "INFO" _ _ w lg 20%Z Hlg Hinfo Hle Hrules Hlisten Hwr).
      cbn [mbind res_bind].
      set (entry := buildEntry (clock (ticks w)) 20 "INFO" "Process exiting"
                      (Some (meta_code code)) (Some (_context lg))).
      set (lg1 := logged "INFO" (40 <=? 20)%Z entry lg).
      set (w1 := put id lg1 (console lg 20 entry (record (Emitted id (LogEv entry)) (tick w)))).
      assert (H1 : heap w1 !! id = Some lg1).
      { apply lookup_put. by rewrite heap_console, heap_record, heap_tick. }
      assert (Hw1 : _logToFile lg1 = true ∧
                    _textWriter lg1
                      = Some (RotatingFileWriter.write (entryToText entry false) tw) ∧
                    _jsonWriter lg1 = Some (RotatingFileWriter.write (entryToJson entry) jw) ∧
                    _errorWriter lg1 = Some ew).
      { unfold lg1, logged, with_files.
        change (_logToFile (set_metrics _ (set_ring _ lg))) with (_logToFile lg).
        rewrite Hfile. simpl. by rewrite Hfile, Ht, Hj, He. }
      destruct Hw1 as (Hf1 & Ht1 & Hj1 & He1).
      rewrite (deref_lookup _ _ _ H1). cbn [mbind res_bind]. rewrite Hf1.
      destruct (flush_files_spec id w1 d lg1 _ _ _ H1 Ht1 Hj1 He1) as (d' & -> & Hq).
      eexists _, d', _. split; [reflexivity|]. split.
      { apply lookup_put. exact (lookup_lt _ _ _ H1). }
      split; [done|]. split; [done|]. split; [done|]. cbv zeta. split.
      * intros _. rewrite Hq. unfold queued at 1 2. simpl.
        rewrite !decide_False by (by destruct (RotatingFileWriter._buffer _)).
        done.
      * intros ?. lia.
    + rewrite (Hdrop Hgt).
      cbn [mbind res_bind]. rewrite (deref_lookup _ _ _ Hlg). cbn [mbind res_bind].
      rewrite Hfile.
      destruct (flush_files_spec id w d lg _ _ _ Hlg Ht Hj He) as (d' & -> & Hq).
      eexists _, d', _. split; [reflexivity|]. split; [by apply lookup_put|].
      split; [done|]. split; [done|]. split; [done|]. cbv zeta. split.
      * intros ?. lia.
      * intros _. exact Hq.
Qed.

End ExitFacts.

(** * Concrete runs *)


Lemma write_below_level_is_dropped_witness :
  Logger.exec 1 (Logger.Write 0 "DEBUG" "a" None) (Logger.new warn_opts start_world).2
  = Ok (Logger.new warn_opts start_world).2.
Proof.
  apply (write_below_level_is_dropped 0 0 "DEBUG" "a" None
           (Logger.new warn_opts start_world).2
           (Logger.construct warn_opts (clock 0)) 10%Z).
  - reflexivity.
  - reflexivity.
  - simpl. lia.
Defined.


Lemma flush_drains_rotates_and_retains_witness :
  ∃ d_mid,
    RotatingFileWriter.flush sample_writer sample_disk =
      Some (drained sample_writer,
            RotatingFileWriter.appendFile "logs/app.log"
              ("line one" +:+ LF +:+ "line two" +:+ LF) d_mid) ∧
    RotatingFileWriter.files d_mid !! "logs/app.log" = None ∧
    RotatingFileWriter.files d_mid !! "logs/app.log.1" = Some "older lines".
Proof.
  destruct (flush_drains_rotates_and_retains sample_writer sample_disk)
    as [(d_mid & Hflush & _ & Hrot) _].
  - discriminate.
  - exists d_mid. split; [exact Hflush|].
    destruct (Hrot "older lines") as (_ & Hnone & Hone & _).
    + reflexivity.
    + simpl. lia.
    + split; [exact Hnone | exact Hone].
Defined.





(** ** Concrete runs of the further properties *)

Lemma timestamps_sort_chronologically_witness :
  String.length (formatTimestamp morning) = 24 ∧
  String.ltb (formatTimestamp morning) (formatTimestamp evening) = true.
Proof.
  destruct (timestamps_sort_chronologically morning evening) as (Hlen & Hlt & _).
  - constructor; simpl; lia.
  - constructor; simpl; lia.
  - split; [exact Hlen|]. apply Hlt. simpl. lia.
Defined.

Lemma uptime_splits_the_elapsed_seconds_witness :
  ∃ h m s,
    uptime 1700000000000 1700003725500 =
      padStart (JS.String_of h) 2 None +:+ "h " +:+ padStart (JS.String_of m) 2 None
      +:+ "m " +:+ padStart (JS.String_of s) 2 None +:+ "s" ∧
    (3725 = h * 3600 + m * 60 + s)%Z ∧ (0 ≤ m ≤ 59)%Z ∧ (0 ≤ s ≤ 59)%Z.
Proof.
  destruct (uptime_splits_the_elapsed_seconds 1700000000000 1700003725500)
    as (h & m & s & _ & Hm & Hs & Hsum & Huptime & _).
  - lia.
  - exists h, m, s. split; [exact Huptime|]. split; [exact Hsum|]. split; assumption.
Defined.

Lemma query_limit_keeps_a_suffix_witness :
  RingBuffer.query sample_filter sample_ring
    = lastN 1 (RingBuffer.query (without_limit sample_filter) sample_ring) ∧
  length (RingBuffer.query sample_filter sample_ring) = 1.
Proof.
  destruct (query_limit_keeps_a_suffix sample_filter sample_ring 1) as [Hpos _].
  - reflexivity.
  - destruct Hpos as [Hq Hlen]; [lia|]. split; [exact Hq | exact Hlen].
Defined.

Lemma query_sees_the_last_N_entries_witness :
  RingBuffer.query (without_limit sample_filter) sample_ring
  = [sample_entry "2026-02-12T05:29:12.000Z" "WARN" "database" "slow query";
     sample_entry "2026-02-12T05:29:13.000Z" "FATAL" "api" "out of memory"].
Proof.
  refine (eq_trans (proj1 (query_sees_the_last_N_entries 3 _ sample_filter _)) _).
  - lia.
  - reflexivity.
Defined.

Lemma timer_stats_lie_between_min_and_max_witness :
  ∃ st, MetricsCollector.getTimerStats "t" zero_heavy_metrics = Ok (Some st) ∧
        MetricsCollector.min st = JS.Fin 0 ∧ MetricsCollector.max st = JS.Fin 7 ∧
        (0 ≤ MetricsCollector.avg st ≤ 7)%Z.
Proof.
  destruct (timer_stats_lie_between_min_and_max "t" zero_heavy_metrics
              (MetricsCollector.statsOf zero_heavy_samples))
    as (samples & lo & hi & v95 & v99 & Hs & _ & _ & Hmin & Hmax & _ & _ & _ & Havg & _).
  - reflexivity.
  - exists (MetricsCollector.statsOf zero_heavy_samples).
    split; [reflexivity|]. split; [reflexivity|]. split; [reflexivity|].
    vm_compute. split; discriminate.
Defined.

Lemma timer_measures_from_latest_start_witness :
  (∃ m',
     MetricsCollector.endTimer 1700000000900 "db"
       (MetricsCollector.startTimer 1700000000500 "db" two_timings)
       = Ok (Some 400%Z, m') ∧
     MetricsCollector._histograms m' !! "db" = Some [150%Z; 400%Z]) ∧
  MetricsCollector.endTimer 1700000000900 "constructor"
    (MetricsCollector.startTimer 1700000000500 "constructor" two_timings)
    = Throw "TypeError".
Proof.
  destruct (timer_measures_from_latest_start 1700000000500 1700000000900 "db" two_timings)
    as (Hrun & _ & _); [discriminate|].
  destruct (timer_measures_from_latest_start 1700000000500 1700000000900 "constructor"
              two_timings) as (_ & Hthrows & _); [discriminate|].
  split.
  - destruct Hrun as (m' & Hend & _ & Hhist & _); [reflexivity|].
    exists m'. split; [exact Hend | exact Hhist].
  - destruct (Hthrows (Dict.Method 1)) as [Hend _]; [reflexivity | reflexivity |].
    exact Hend.
Defined.

Lemma written_lines_reach_the_file_in_order_witness :
  ∃ d',
    RotatingFileWriter.flush
      (writeAll ["line one"; "line two"] (RotatingFileWriter.new "logs/app.log" 5 5))
      sample_disk = Some (RotatingFileWriter.new "logs/app.log" 5 5, d') ∧
    RotatingFileWriter.files (RotatingFileWriter.complete 0 d') !! "logs/app.log" =
      Some ("older lines" +:+ "line one" +:+ LF +:+ "line two" +:+ LF).
Proof.
  destruct (written_lines_reach_the_file_in_order
              (RotatingFileWriter.new "logs/app.log" 5 5) sample_disk
              ["line one"; "line two"])
    as (d' & Hflush & _ & _ & Hfile & _).
  - discriminate.
  - reflexivity.
  - exists d'. split; [exact Hflush | exact Hfile].
Defined.

Lemma logger_files_rotate_independently_witness :
  ∃ d', RotatingFileWriter.rotate text_writer two_file_disk = Some d' ∧
        RotatingFileWriter.files d' !! "/srv/app/logs/app.log.1" = Some "text" ∧
        RotatingFileWriter.files d' !! "/srv/app/logs/error.log" = Some "errors".
Proof.
  destruct (RotatingFileWriter.rotate text_writer two_file_disk) as [d'|] eqn:Hrot;
    [|discriminate Hrot].
  exists d'. split; [reflexivity|]. split.
  - injection Hrot as <-. reflexivity.
  - refine (eq_trans (proj2 (logger_files_rotate_independently default_opts 0
                               text_writer error_writer two_file_disk d'
                               "/srv/app/logs/error.log" _ _ _ Hrot _)) _).
    + apply list_elem_of_here.
    + do 2 apply list_elem_of_further. apply list_elem_of_here.
    + discriminate.
    + by left.
    + reflexivity.
Defined.

Lemma rules_sharing_a_name_share_the_cooldown_witness :
  ∃ w', Logger.evaluate 1 0 boom twin_rules_world = Ok w' ∧
        Logger.trace w' = [Logger.Emitted 0 (Logger.AlertEv "disk" boom)].
Proof.
  destruct (rules_sharing_a_name_share_the_cooldown 0 0 twin_rules_world twin_rules_logger
              {| AlertManager.name := "disk"; AlertManager.level := "ERROR";
                 AlertManager.messagePattern := None; AlertManager.cooldownMs := 60000;
                 AlertManager.handler := None |}
              {| AlertManager.name := "disk"; AlertManager.level := "ERROR";
                 AlertManager.messagePattern := None; AlertManager.cooldownMs := 60000;
                 AlertManager.handler := None |} boom) as [Hsame _];
    try reflexivity.
  destruct Hsame as (w' & Hrun & Htrace & _); [reflexivity | discriminate | simpl; lia |].
  exists w'. split; [exact Hrun | exact Htrace].
Defined.

Lemma accepted_write_is_recorded_once_witness :
  ∃ w' lg',
    Logger.exec 2 (Logger.Write 0 "ERROR" "disk full" None)
      (Logger.new default_opts start_world).2 = Ok w' ∧
    Logger.heap w' !! 0 = Some lg' ∧
    Logger.ticks w' = 2 ∧
    length (Logger.trace w') = 2.
Proof.
  destruct (accepted_write_is_recorded_once 0 0 "ERROR" "disk full" None
              (Logger.new default_opts start_world).2
              (Logger.construct default_opts (clock 0)) 40%Z)
    as (w' & lg' & Hrun & Hlg' & _ & Hticks & _ & _ & _ & Htrace & _).
  - reflexivity.
  - reflexivity.
  - simpl. lia.
  - reflexivity.
  - reflexivity.
  - apply construct_writers_present.
  - exists w', lg'. split; [exact Hrun|]. split; [exact Hlg'|]. split; [exact Hticks|].
    rewrite Htrace. reflexivity.
Defined.

Lemma child_inherits_settings_but_not_state_witness :
  ∃ w1 lc,
    Logger.child 0 (Some "database") trace_opts (Logger.new warn_opts start_world).2
      = Ok (1, w1) ∧
    Logger.heap w1 !! 1 = Some lc ∧
    Logger._level lc = 30%Z ∧ Logger._logToFile lc = false ∧
    Logger._context lc = "database".
Proof.
  destruct (child_inherits_settings_but_not_state 0 (Some "database") trace_opts
              (Logger.new warn_opts start_world).2
              (Logger.construct warn_opts (clock 0)))
    as (w1 & lc & Hchild & Hlc & _ & _ & _ & _ & Hctx & Hlevel & _ & _ & Hfile & _).
  - reflexivity.
  - exists w1, lc. split; [exact Hchild|]. split; [exact Hlc|].
    split; [exact Hlevel|]. split; [exact Hfile | exact Hctx].
Defined.

Lemma logging_from_a_log_listener_never_returns_witness :
  Logger.exec 1000 (Logger.Write 0 "INFO" "ready" None) echo_world = OutOfFuel.
Proof.
  apply (logging_from_a_log_listener_never_returns 1000 0 echo_world echo_logger echo
           "INFO" "ready" None 20%Z).
  - reflexivity.
  - reflexivity.
  - reflexivity.
  - reflexivity.
  - simpl. lia.
  - intros e. by eexists _, _, _.
Defined.

Lemma logger_timer_measures_between_its_clock_readings_witness :
  ∃ w1 w2 elapsed,
    Logger.startTimer 2 0 "db" (Logger.new quiet_opts start_world).2 = Ok w1 ∧
    Logger.endTimer 2 0 "db" w1 = Ok (Some elapsed, w2) ∧
    elapsed = 80000%Z.
Proof.
  destruct (logger_timer_measures_between_its_clock_readings 0 0 "db"
              (Logger.new quiet_opts start_world).2
              (Logger.construct quiet_opts (clock 0))) as [Hrun _].
  - reflexivity.
  - reflexivity.
  - reflexivity.
  - apply construct_writers_present.
  - discriminate.
  - destruct Hrun as (w1 & w2 & lg2 & Hstart & Hend & _ & _ & _ & _ & Hpass & _);
      [reflexivity|].
    exists w1, w2, (clock (Logger.ticks w1) - clock 1)%Z.
    split; [exact Hstart|]. split; [exact Hend|].
    destruct Hpass as [-> _]; [simpl; lia | reflexivity].
Defined.

Lemma grandchild_entry_reaches_every_ancestor_witness :
  ∃ w' lg' entry,
    Logger.exec 4 (Logger.Write 2 "WARN" "slow" None) lineage_world = Ok w' ∧
    Logger.heap w' !! 0 = Some lg' ∧
    RingBuffer.toArray (Logger._ring lg') = [entry] ∧
    Entry.context entry = "api.users" ∧
    notified (Logger.trace w') = [(2, entry); (1, entry); (0, entry)] ∧
    length (printed (Logger.trace w')) = 1.
Proof.
  pose (root := Logger.construct default_opts (clock 0)).
  pose (lp0 := Logger.set_on_log (fun ls => ls ++ [Logger.Forward 0])
                 (Logger.construct (child_opts (Some "api") default_opts root) (clock 1))).
  destruct (grandchild_entry_reaches_every_ancestor 0 0 1 2 lineage_world
              (Logger.set_children (fun cs => cs ++ [1]) root)
              (Logger.set_children (fun cs => cs ++ [2]) lp0)
              (Logger.set_on_log (fun ls => ls ++ [Logger.Forward 1])
                 (Logger.construct (child_opts (Some "api.users") default_opts lp0)
                    (clock 2)))
              "WARN" "slow" None 30%Z 0%Z 0%Z 0%Z 500 500 2000 [] [] [])
    as (w' & lc' & lp' & lg' & tr_c & tr_p & tr_g & Hrun & _ & _ & Hg & _ & _ & _ & Harr
        & _ & _ & _ & _ & _ & _ & _ & _ & _ & _ & Hnotified & Hprinted & _).
  - reflexivity.
  - reflexivity.
  - reflexivity.
  - reflexivity.
  - reflexivity.
  - reflexivity.
  - split; repeat constructor.
  - split; repeat constructor.
  - split; repeat constructor.
  - reflexivity.
  - reflexivity.
  - apply construct_writers_present.
  - lia.
  - apply (ring_inv_new 500). lia.
  - lia.
  - apply (ring_inv_new 500). lia.
  - lia.
  - apply (ring_inv_new 2000). lia.
  - reflexivity.
  - reflexivity.
  - reflexivity.
  - reflexivity.
  - simpl. lia.
  - eexists w', lg', _. split; [exact Hrun|]. split; [exact Hg|].
    split; [exact Harr|]. split; [reflexivity|]. split; [exact Hnotified|].
    rewrite Hprinted. reflexivity.
Defined.

Lemma logged_entries_can_be_queried_back_witness :
  ∃ w' entries,
    logAll 2 0 [("INFO", "a", None); ("WARN", "b", None); ("ERROR", "c", None)]
      (Logger.new small_ring_opts start_world).2 = Ok w' ∧
    Logger.query 0 no_filter w' = Ok entries ∧
    (fun e => (Entry.level e, Entry.message e, Entry.meta e)) <$> entries
      = [("WARN", "b", None); ("ERROR", "c", None)].
Proof.
  destruct (logged_entries_can_be_queried_back 0 small_ring_opts start_world
              [("INFO", "a", None); ("WARN", "b", None); ("ERROR", "c", None)])
    as (w' & entries & Hrun & Hquery & Hsum & _).
  - repeat constructor; eexists; (split; [reflexivity | simpl; lia]).
  - exists w', entries. split; [exact Hrun|]. split; [exact Hquery | exact Hsum].
Defined.

Lemma exit_hook_flushes_every_buffered_line_witness :
  ∃ w' d' lg',
    Logger._onExit 2 0 0 (Logger.new default_opts start_world).2 empty_disk = Ok (w', d') ∧
    Logger.heap w' !! 0 = Some lg' ∧
    RotatingFileWriter._buffer <$> Logger._textWriter lg' = Some [] ∧
    length (RotatingFileWriter.in_flight d') = 2.
Proof.
  destruct (exit_hook_flushes_every_buffered_line 0 0 0
              (Logger.new default_opts start_world).2 empty_disk
              (Logger.construct default_opts (clock 0))) as [_ Hfiles].
  - reflexivity.
  - reflexivity.
  - reflexivity.
  - apply construct_writers_present.
  - destruct (Hfiles (RotatingFileWriter.new "/srv/app/logs/app.log" 5 5)
                (RotatingFileWriter.new "/srv/app/logs/app.json.log" 5 5)
                (RotatingFileWriter.new "/srv/app/logs/error.log" 5 5))
      as (w' & d' & lg' & Hrun & Hlg' & Htext & _ & _ & Hqueue & _); try reflexivity.
    exists w', d', lg'. split; [exact Hrun|]. split; [exact Hlg'|]. split; [exact Htext|].
    rewrite Hqueue by (simpl; lia). reflexivity.
Defined.
